(** * UK business scraper: a shallow embedding of [api/scrape.py]

    The development follows the source file top-down: the text helpers of
    [UKBusinessScraper] ([_clean_text], the three extractors and the regular
    expressions they use), the [UKBusiness] record, the five directory
    adapters, the orchestrating [search], and the HTTP [handler].

    Python [str] values are modelled as [string]; a character is read as the
    code point of the same number (U+0000 .. U+00FF).  On that range
    [isspace], [lower] and the character classes of [re] below are the ones
    of CPython.  [str.upper] is exact except on U+00B5, U+00DF and U+00FF,
    whose upper-case forms lie outside the range; they are left unchanged
    (the only use of [upper] is on postcode matches, which never contain
    them).  The postcode extractor, whose pattern accepts characters beyond
    U+00FF, is modelled a second time on strings of arbitrary code points
    ([Module Unicode]). *)

From Stdlib Require Import ZArith Ascii String Lia SpecFloat.
From stdpp Require Import gmap strings list pretty.

Local Open Scope Z_scope.

(** ** Python strings *)

Module Str.

Definition chars : string -> list ascii := list_ascii_of_string.
Definition text : list ascii -> string := string_of_list_ascii.

Definition code (c : ascii) : N := N_of_ascii c.

Definition in_range (lo hi : N) (c : ascii) : bool :=
  ((lo <=? code c) && (code c <=? hi))%N.

(** [str.isspace] on one character: TAB..CR, FS..US, space, NEL, NBSP. *)
Definition isspace (c : ascii) : bool :=
  in_range 9 13 c || in_range 28 32 c || (code c =? 133)%N || (code c =? 160)%N.

(** Decimal digits (what [\d] accepts). *)
Definition isdecimal (c : ascii) : bool := in_range 48 57 c.

Definition lower_char (c : ascii) : ascii :=
  if in_range 65 90 c || (in_range 192 222 c && negb (code c =? 215)%N)
  then ascii_of_N (code c + 32) else c.

Definition upper_char (c : ascii) : ascii :=
  if in_range 97 122 c || (in_range 224 254 c && negb (code c =? 247)%N)
  then ascii_of_N (code c - 32) else c.

Definition lower (s : string) : string := text (lower_char <$> chars s).
Definition upper (s : string) : string := text (upper_char <$> chars s).

(** [s.lstrip()], [s.rstrip()], [s.strip()] on character lists. *)
Fixpoint lstrip_chars (s : list ascii) : list ascii :=
  match s with
  | c :: s' => if isspace c then lstrip_chars s' else s
  | [] => []
  end.

Definition rstrip_chars (s : list ascii) : list ascii :=
  reverse (lstrip_chars (reverse s)).

Definition strip_chars (s : list ascii) : list ascii :=
  rstrip_chars (lstrip_chars s).

Definition strip (s : string) : string := text (strip_chars (chars s)).

(** [s.split()]: the maximal runs of non-space characters, in order. *)
Fixpoint split_chars (s : list ascii) : list (list ascii) :=
  match s with
  | [] => []
  | c :: s' =>
      if isspace c then split_chars s'
      else
        let rest := split_chars s' in
        match s', rest with
        | c' :: _, w :: ws =>
            if isspace c' then [c] :: rest else (c :: w) :: ws
        | _, _ => [c] :: rest
        end
  end.

Definition split (s : string) : list string := text <$> split_chars (chars s).

(** [sep.join(parts)]. *)
Fixpoint join_chars (sep : list ascii) (parts : list (list ascii)) : list ascii :=
  match parts with
  | [] => []
  | [w] => w
  | w :: ws => w ++ sep ++ join_chars sep ws
  end.

Definition join (sep : string) (parts : list string) : string :=
  text (join_chars (chars sep) (chars <$> parts)).

(** [x in s] for strings: [x] occurs as a contiguous substring of [s]. *)
Fixpoint startswith_chars (x s : list ascii) : bool :=
  match x, s with
  | [], _ => true
  | a :: x', b :: s' => bool_decide (a = b) && startswith_chars x' s'
  | _ :: _, [] => false
  end.

Fixpoint contains_chars (x s : list ascii) : bool :=
  startswith_chars x s ||
  match s with
  | [] => false
  | _ :: s' => contains_chars x s'
  end.

Definition contains (x s : string) : bool := contains_chars (chars x) (chars s).

(** Truth value of a string: non-empty. *)
Definition truthy (s : string) : bool :=
  match s with EmptyString => false | _ => true end.

Definition dquote : string := String (ascii_of_nat 34) EmptyString.

End Str.

(** ** The fragment of Python's [re] the scraper uses

    Every pattern of the source is a sequence of greedy repetitions of a
    character class, [c{lo,hi}], optionally with one group of literal
    alternatives ([(?:\+44|0)]).  The matcher is the backtracking one of
    CPython: a repetition first takes as many characters as it can and gives
    them back one at a time while the rest of the pattern fails; alternatives
    are tried left to right.  A match is returned as the list of the pieces
    matched by the successive items, from which both the whole match and the
    capture groups are read. *)

Module re.

Inductive item :=
| Rep (c : ascii -> bool) (lo : nat) (hi : option nat)
| Alt (alts : list (list ascii)).

Definition pattern := list item.

(** Length of the longest prefix of [s] made of characters of class [c]. *)
Fixpoint run (c : ascii -> bool) (s : list ascii) : nat :=
  match s with
  | x :: s' => if c x then S (run c s') else 0%nat
  | [] => 0%nat
  end.

Definition cap (hi : option nat) (n : nat) : nat :=
  match hi with Some h => Nat.min h n | None => n end.

(** The repetition counts a greedy [c{lo,hi}] tries when [k] characters of
    the class are available: the largest first, down to [lo]. *)
Definition counts (lo : nat) (hi : option nat) (k : nat) : list nat :=
  reverse (seq lo (S (cap hi k) - lo)).

Fixpoint first_some {A B} (f : A -> option B) (l : list A) : option B :=
  match l with
  | [] => None
  | a :: l' => match f a with Some b => Some b | None => first_some f l' end
  end.

Fixpoint match_here (p : pattern) (s : list ascii) : option (list (list ascii)) :=
  match p with
  | [] => Some []
  | Rep c lo hi :: p' =>
      first_some
        (fun n => (fun m => take n s :: m) <$> match_here p' (drop n s))
        (counts lo hi (run c s))
  | Alt alts :: p' =>
      first_some
        (fun a => if Str.startswith_chars a s
                  then (fun m => a :: m) <$> match_here p' (drop (length a) s)
                  else None)
        alts
  end.

(** [re.search]: the match at the leftmost position that has one. *)
Fixpoint search_chars (p : pattern) (s : list ascii) : option (list (list ascii)) :=
  match match_here p s with
  | Some m => Some m
  | None => match s with
            | [] => None
            | _ :: s' => search_chars p s'
            end
  end.

(** [re.findall] for a pattern without capture groups: the successive
    non-overlapping matches, scanning left to right.  [skip] counts the
    characters still covered by the previous match.  (All patterns used
    with it need at least one character, so the treatment of empty matches
    never comes into play.) *)
Fixpoint findall_go (p : pattern) (skip : nat) (s : list ascii) : list (list ascii) :=
  match s with
  | [] => []
  | _ :: s' =>
      match skip with
      | S k => findall_go p k s'
      | O => match match_here p s with
             | Some m => concat m :: findall_go p (pred (length (concat m))) s'
             | None => findall_go p 0 s'
             end
      end
  end.

Definition search (p : pattern) (s : string) : option (list string) :=
  (fun m : list (list ascii) => Str.text <$> m) <$> search_chars p (Str.chars s).

(** [match.group()] is the whole match; a capture group spanning the [n]
    items from the [i]-th is read off the pieces by [groups i n]. *)
Definition group (m : list string) : string :=
  Str.text (concat (Str.chars <$> m)).

Definition groups (i n : nat) (m : list string) : string :=
  group (take n (drop i m)).

Definition findall (p : pattern) (s : string) : list string :=
  Str.text <$> findall_go p 0 (Str.chars s).

(** Character classes. *)
Definition lit (a : ascii) : ascii -> bool := fun c => bool_decide (c = a).
Definition A_Z : ascii -> bool := Str.in_range 65 90.
Definition a_z : ascii -> bool := Str.in_range 97 122.
Definition digit : ascii -> bool := Str.isdecimal.
Definition space : ascii -> bool := Str.isspace.
Definition union (c1 c2 : ascii -> bool) : ascii -> bool := fun c => c1 c || c2 c.

(** A class under [re.IGNORECASE]: the character is lower-cased, and
    accepted when that or its upper-case form is in the class. *)
Definition ignorecase (cl : ascii -> bool) : ascii -> bool :=
  fun c => cl (Str.lower_char c) || cl (Str.upper_char (Str.lower_char c)).

Definition one (c : ascii -> bool) : item := Rep c 1 (Some 1%nat).
Definition opt (c : ascii -> bool) : item := Rep c 0 (Some 1%nat).
Definition star (c : ascii -> bool) : item := Rep c 0 None.
Definition plus (c : ascii -> bool) : item := Rep c 1 None.

End re.

(** ** Exceptions and results

    Only subclasses of [Exception] occur.  The adapters tell
    [requests.RequestException] (connection errors, timeouts, and the
    [HTTPError] of [raise_for_status]) from every other exception. *)

Inductive exn :=
| RequestException (msg : string)
| Exception (cls msg : string).

Definition is_RequestException (e : exn) : bool :=
  match e with RequestException _ => true | Exception _ _ => false end.

(** [str(e)] *)
Definition exn_str (e : exn) : string :=
  match e with RequestException m => m | Exception _ m => m end.

Inductive res (A : Type) :=
| Ok (a : A)
| Raise (e : exn).
Arguments Ok {A} a.
Arguments Raise {A} e.

#[global] Instance res_ret : MRet res := fun A a => Ok a.
#[global] Instance res_bind : MBind res := fun A B f x =>
  match x with Ok a => f a | Raise e => Raise e end.

(** ** The record of one business (the [UKBusiness] dataclass) *)

Record UKBusiness := {
  name : string;
  email : string;
  phone : string;
  website : string;
  address : string;
  city : string;
  county : string;
  postcode : string;
  country : string;
  industry : string;
  description : string;
  company_number : string;
  revenue : string;
  employees : string;
  year_founded : string;
  company_status : string;
  sic_codes : string;
  rating : string;
  review_count : string;
  opening_hours : string;
  social_media : list (string * string);
  source : string;
  scraped_at : string
}.

(** [UKBusiness(source=src)], created at time [now]. *)
Definition new_business (src now : string) : UKBusiness :=
  {| name := EmptyString; email := EmptyString; phone := EmptyString;
     website := EmptyString; address := EmptyString; city := EmptyString;
     county := EmptyString; postcode := EmptyString; country := "UK";
     industry := EmptyString; description := EmptyString;
     company_number := EmptyString; revenue := EmptyString;
     employees := EmptyString; year_founded := EmptyString;
     company_status := EmptyString; sic_codes := EmptyString;
     rating := EmptyString; review_count := EmptyString;
     opening_hours := EmptyString; social_media := [];
     source := src; scraped_at := now |}.

(** Attribute assignments [business.f = v]. *)
Definition set_name (v : string) (b : UKBusiness) : UKBusiness :=
  let 'Build_UKBusiness _ f2 f3 f4 f5 f6 f7 f8 f9 f10 f11 f12 f13 f14 f15 f16
         f17 f18 f19 f20 f21 f22 f23 := b in
  Build_UKBusiness v f2 f3 f4 f5 f6 f7 f8 f9 f10 f11 f12 f13 f14 f15 f16
    f17 f18 f19 f20 f21 f22 f23.
Definition set_phone (v : string) (b : UKBusiness) : UKBusiness :=
  let 'Build_UKBusiness f1 f2 _ f4 f5 f6 f7 f8 f9 f10 f11 f12 f13 f14 f15 f16
         f17 f18 f19 f20 f21 f22 f23 := b in
  Build_UKBusiness f1 f2 v f4 f5 f6 f7 f8 f9 f10 f11 f12 f13 f14 f15 f16
    f17 f18 f19 f20 f21 f22 f23.
Definition set_address (v : string) (b : UKBusiness) : UKBusiness :=
  let 'Build_UKBusiness f1 f2 f3 f4 _ f6 f7 f8 f9 f10 f11 f12 f13 f14 f15 f16
         f17 f18 f19 f20 f21 f22 f23 := b in
  Build_UKBusiness f1 f2 f3 f4 v f6 f7 f8 f9 f10 f11 f12 f13 f14 f15 f16
    f17 f18 f19 f20 f21 f22 f23.
Definition set_postcode (v : string) (b : UKBusiness) : UKBusiness :=
  let 'Build_UKBusiness f1 f2 f3 f4 f5 f6 f7 _ f9 f10 f11 f12 f13 f14 f15 f16
         f17 f18 f19 f20 f21 f22 f23 := b in
  Build_UKBusiness f1 f2 f3 f4 f5 f6 f7 v f9 f10 f11 f12 f13 f14 f15 f16
    f17 f18 f19 f20 f21 f22 f23.
Definition set_industry (v : string) (b : UKBusiness) : UKBusiness :=
  let 'Build_UKBusiness f1 f2 f3 f4 f5 f6 f7 f8 f9 _ f11 f12 f13 f14 f15 f16
         f17 f18 f19 f20 f21 f22 f23 := b in
  Build_UKBusiness f1 f2 f3 f4 f5 f6 f7 f8 f9 v f11 f12 f13 f14 f15 f16
    f17 f18 f19 f20 f21 f22 f23.
Definition set_description (v : string) (b : UKBusiness) : UKBusiness :=
  let 'Build_UKBusiness f1 f2 f3 f4 f5 f6 f7 f8 f9 f10 _ f12 f13 f14 f15 f16
         f17 f18 f19 f20 f21 f22 f23 := b in
  Build_UKBusiness f1 f2 f3 f4 f5 f6 f7 f8 f9 f10 v f12 f13 f14 f15 f16
    f17 f18 f19 f20 f21 f22 f23.
Definition set_rating (v : string) (b : UKBusiness) : UKBusiness :=
  let 'Build_UKBusiness f1 f2 f3 f4 f5 f6 f7 f8 f9 f10 f11 f12 f13 f14 f15 f16
         f17 _ f19 f20 f21 f22 f23 := b in
  Build_UKBusiness f1 f2 f3 f4 f5 f6 f7 f8 f9 f10 f11 f12 f13 f14 f15 f16
    f17 v f19 f20 f21 f22 f23.
Definition set_review_count (v : string) (b : UKBusiness) : UKBusiness :=
  let 'Build_UKBusiness f1 f2 f3 f4 f5 f6 f7 f8 f9 f10 f11 f12 f13 f14 f15 f16
         f17 f18 _ f20 f21 f22 f23 := b in
  Build_UKBusiness f1 f2 f3 f4 f5 f6 f7 f8 f9 f10 f11 f12 f13 f14 f15 f16
    f17 f18 v f20 f21 f22 f23.

(** ** Parsed pages

    [BeautifulSoup] is an external library: a parsed document or element is
    given by its text ([get_text()]) and, for each CSS selector asked of it,
    the elements [select] finds, in document order (or the exception it
    raises).  A selector that is not listed finds nothing. *)

#[warnings="-register-all"]
Inductive Tag :=
| Node (text : string) (found : list (string * res (list Tag))).

Definition get_text (t : Tag) : string :=
  match t with Node text _ => text end.

Fixpoint assoc {A} (k : string) (l : list (string * A)) : option A :=
  match l with
  | [] => None
  | (k', v) :: l' => if String.eqb k k' then Some v else assoc k l'
  end.

Definition select (sel : string) (t : Tag) : res (list Tag) :=
  match t with
  | Node _ found => match assoc sel found with Some r => r | None => Ok [] end
  end.

(** [select_one] returns the first element found, or [None]. *)
Definition select_one (sel : string) (t : Tag) : res (option Tag) :=
  l ← select sel t; mret (head l).

(** [t.select(a) or t.select(b)]: a result list is false when empty. *)
Definition select_or (a b : string) (t : Tag) : res (list Tag) :=
  l ← select a t;
  match l with [] => select b t | _ :: _ => mret l end.

(** [t.select_one(a) or t.select_one(b)]: an element is always true. *)
Definition select_one_or (a b : string) (t : Tag) : res (option Tag) :=
  x ← select_one a t;
  match x with Some _ => mret x | None => select_one b t end.

(** ** The outside world

    What the directories answer is not the program's to decide: [oracle]
    gives the outcome of a GET from the URLs requested so far, the number
    of delays slept so far and the URL requested now.  [requests] logs every URL fetched (latest first) and
    [pauses] counts the politeness delays slept; the duration of a delay
    ([random.uniform] of the delay range) is not modelled.  [clock] is
    [datetime.now().isoformat()] as a function of the number of requests and
    pauses so far (so the records parsed from one page carry one time). *)

Inductive outcome :=
| Fails (e : exn)
| Response (status_code : Z) (soup : Tag).

Record World := {
  oracle : list string -> nat -> string -> outcome;
  clock : nat -> nat -> string;
  requests : list string;
  pauses : nat
}.

Definition now (w : World) : string :=
  clock w (length (requests w)) (pauses w).

(** [self.session.get(url, timeout=15)] *)
Definition session_get (url : string) (w : World) : outcome * World :=
  (oracle w (requests w) (pauses w) url,
   {| oracle := oracle w; clock := clock w;
      requests := url :: requests w; pauses := pauses w |}).

(** [self._delay()] *)
Definition _delay (w : World) : World :=
  {| oracle := oracle w; clock := clock w;
     requests := requests w; pauses := S (pauses w) |}.

(** [response.raise_for_status()] raises [HTTPError] on 4xx and 5xx. *)
Definition raise_for_status (status_code : Z) : res unit :=
  if bool_decide (400 <= status_code < 600)
  then Raise (RequestException ("HTTPError: " +:+ pretty status_code))
  else Ok tt.

(** [urllib.parse.quote_plus]: letters, digits and [_.-~] are kept, a space
    becomes [+], any other character is percent-encoded from its UTF-8
    bytes. *)
Definition hex_digit (n : N) : ascii :=
  if (n <? 10)%N then ascii_of_N (48 + n) else ascii_of_N (55 + n).

Definition percent (byte : N) : list ascii :=
  ["%"%char; hex_digit (byte / 16); hex_digit (byte mod 16)].

Definition quote_char (c : ascii) : list ascii :=
  if re.A_Z c || re.a_z c || re.digit c
     || bool_decide (c ∈ ["_"; "."; "-"; "~"]%char)
  then [c]
  else if bool_decide (c = " "%char) then ["+"%char]
  else if (Str.code c <? 128)%N then percent (Str.code c)
  else percent (192 + Str.code c / 64) ++ percent (128 + Str.code c mod 64).

Definition quote_plus (s : string) : string :=
  Str.text (concat (quote_char <$> Str.chars s)).

(** [range(a, b)] *)
Definition range (a b : Z) : list Z := seqZ a (b - a).

(** [l[:n]] *)
Definition slice_to {A} (n : Z) (l : list A) : list A :=
  if bool_decide (0 <= n) then take (Z.to_nat n) l
  else take (length l - Z.to_nat (- n)) l.

(** Iteration order of a Python [set] of strings is not specified
    (it depends on the process's hash seed); [list(set(l))] is modelled by
    the enumeration [elements] of the finite set, one such order.  Nothing
    below depends on which order it is. *)
Definition list_set (l : list string) : list string :=
  elements (list_to_set l : gset string).

(** ** The scraper *)

Module UKBusinessScraper.

Import re.

(** [[a-zA-Z0-9._%+-]+@[a-zA-Z0-9.-]+\.[a-zA-Z]{2,}] *)
Definition email_local : ascii -> bool :=
  fun c => a_z c || A_Z c || digit c
           || bool_decide (c ∈ ["."; "_"; "%"; "+"; "-"]%char).
Definition email_host : ascii -> bool :=
  fun c => a_z c || A_Z c || digit c || bool_decide (c ∈ ["."; "-"]%char).
Definition email_pattern : pattern :=
  [plus email_local; one (lit "@"); plus email_host; one (lit ".");
   Rep (union a_z A_Z) 2 None].

Definition email_noise : list string :=
  ["example."; "domain."; "email."; ".png"; ".jpg"; ".gif"; "sentry.io"].

Definition _extract_emails (text : string) : list string :=
  let emails := findall email_pattern text in
  let filtered :=
    filter (fun e => existsb (fun x => Str.contains x (Str.lower e)) email_noise = false)
           emails in
  list_set filtered.

(** The three phone patterns:
    [(?:\+44|0)[\s.-]?\d{2,4}[\s.-]?\d{3,4}[\s.-]?\d{3,4}],
    [(?:\+44|0)\s?\d{10,11}] and [\d{5}\s?\d{6}]. *)
Definition phone_sep : ascii -> bool :=
  fun c => space c || bool_decide (c ∈ ["."; "-"]%char).
Definition phone_prefix : item := Alt [Str.chars "+44"; Str.chars "0"].
Definition phone_patterns : list pattern :=
  [ [phone_prefix; opt phone_sep; Rep digit 2 (Some 4%nat); opt phone_sep;
     Rep digit 3 (Some 4%nat); opt phone_sep; Rep digit 3 (Some 4%nat)];
    [phone_prefix; opt space; Rep digit 10 (Some 11%nat)];
    [Rep digit 5 (Some 5%nat); opt space; Rep digit 6 (Some 6%nat)] ].

Definition _extract_uk_phones (text : string) : list string :=
  let phones :=
    foldl (fun phones pattern => phones ++ findall pattern text) [] phone_patterns in
  list_set phones.

(** [[A-Z]{1,2}\d[A-Z\d]?\s*\d[A-Z]{2}] under [re.IGNORECASE] (which
    changes nothing for [\d] and [\s]), on the characters up to U+00FF.
    The pattern and the extractor on all characters are
    [Unicode.postcode_pattern] and [Unicode._extract_uk_postcode] below; on
    a text within U+00FF the two extractors return the same
    ([UnicodeFacts.extract_uk_postcode_of_string]). *)
Definition postcode_pattern : pattern :=
  [Rep (ignorecase A_Z) 1 (Some 2%nat); one digit;
   opt (ignorecase (union A_Z digit)); star space; one digit;
   Rep (ignorecase A_Z) 2 (Some 2%nat)].

Definition _extract_uk_postcode (text : string) : string :=
  match search postcode_pattern text with
  | Some m => Str.upper (group m)
  | None => EmptyString
  end.

Definition _clean_text (text : string) : string :=
  if negb (Str.truthy text) then EmptyString
  else Str.strip (Str.join " " (Str.split text)).

(** *** Adapters

    Each adapter runs the same loop in the source, written out once per
    directory.  [fetch_listings] is the head of the [try] block of a page:
    the GET, [raise_for_status], the parse and the container selection
    [soup.select(primary) or soup.select(fallback)]. *)

Definition fetch_listings (primary fallback url : string) (w : World)
  : res (list Tag) * World :=
  match session_get url w with
  | (Fails e, w1) => (Raise e, w1)
  | (Response status_code soup, w1) =>
      (_ ← raise_for_status status_code; select_or primary fallback soup, w1)
  end.

(** The loop over the listing containers of one page: a listing whose
    processing raises is skipped, and a business is appended only when its
    name is non-empty. *)
Definition parse_listings (parse : Tag -> res UKBusiness) (listings : list Tag)
    (businesses : list UKBusiness) : list UKBusiness :=
  foldl (fun businesses listing =>
           match parse listing with
           | Ok business =>
               if Str.truthy (name business) then businesses ++ [business]
               else businesses
           | Raise _ => businesses
           end)
        businesses listings.

Definition attr (sel val : string) : string :=
  "[" +:+ sel +:+ "=" +:+ Str.dquote +:+ val +:+ Str.dquote +:+ "]".

Definition texts (tags : list Tag) : list string :=
  (fun c => _clean_text (get_text c)) <$> tags.

(** **** Yell *)

Definition yell_url (query location : string) (page : Z) : string :=
  "https://www.yell.com" +:+ "/ucs/UcsSearchAction.do?scrambleSeed=&keywords="
    +:+ quote_plus query +:+ "&location=" +:+ quote_plus location
    +:+ "&pageNum=" +:+ pretty page.

Definition yell_listing (now : string) (listing : Tag) : res UKBusiness :=
  let business := new_business "yell.com" now in
  name_elem ← select_one_or ".businessCapsule--name a" "h2 a" listing;
  let business :=
    match name_elem with
    | Some e => set_name (_clean_text (get_text e)) business
    | None => business
    end in
  address_elem ← select_one_or ".businessCapsule--address"
                   (attr "itemprop" "address") listing;
  let business :=
    match address_elem with
    | Some e =>
        let full_address := _clean_text (get_text e) in
        set_postcode (_extract_uk_postcode full_address)
          (set_address full_address business)
    | None => business
    end in
  phone_elem ← select_one_or ".businessCapsule--phone"
                 (attr "data-testid" "phone-number") listing;
  let business :=
    match phone_elem with
    | Some e => set_phone (_clean_text (get_text e)) business
    | None => business
    end in
  categories ← select ".businessCapsule--category a" listing;
  let business :=
    match categories with
    | _ :: _ => set_industry (Str.join ", " (texts categories)) business
    | [] => business
    end in
  rating_elem ← select_one ".starRating--average" listing;
  let business :=
    match rating_elem with
    | Some e => set_rating (_clean_text (get_text e)) business
    | None => business
    end in
  desc_elem ← select_one ".businessCapsule--description" listing;
  let business :=
    match desc_elem with
    | Some e => set_description (_clean_text (get_text e)) business
    | None => business
    end in
  mret business.

Fixpoint yell_loop (query location : string) (pages : list Z)
    (businesses : list UKBusiness) (w : World)
  : res (list UKBusiness) * World :=
  match pages with
  | [] => (Ok businesses, w)
  | page :: pages' =>
      let search_url := yell_url query location page in
      match fetch_listings ".businessCapsule" (attr "data-testid" "business-card")
              search_url w with
      | (Raise e, w1) =>
          if is_RequestException e then (Ok businesses, w1) else (Raise e, w1)
      | (Ok [], w1) => (Ok businesses, w1)
      | (Ok listings, w1) =>
          yell_loop query location pages'
            (parse_listings (yell_listing (now w1)) listings businesses)
            (_delay w1)
      end
  end.

Definition scrape_yell (query location : string) (max_pages : Z) (w : World)
  : res (list UKBusiness) * World :=
  yell_loop query location (range 1 (max_pages + 1)) [] w.

(** **** FreeIndex *)

Definition freeindex_url (query location : string) (page : Z) : string :=
  "https://www.freeindex.co.uk" +:+ "/searchresults.htm?k=" +:+ quote_plus query
    +:+ "&l=" +:+ quote_plus location +:+ "&p=" +:+ pretty page.

Definition freeindex_listing (now : string) (listing : Tag) : res UKBusiness :=
  let business := new_business "freeindex" now in
  name_elem ← select_one_or ".listing-title a" "h3 a" listing;
  let business :=
    match name_elem with
    | Some e => set_name (_clean_text (get_text e)) business
    | None => business
    end in
  loc_elem ← select_one ".listing-location" listing;
  let business :=
    match loc_elem with
    | Some e =>
        set_postcode (_extract_uk_postcode (get_text e))
          (set_address (_clean_text (get_text e)) business)
    | None => business
    end in
  cat_elem ← select_one ".listing-category" listing;
  let business :=
    match cat_elem with
    | Some e => set_industry (_clean_text (get_text e)) business
    | None => business
    end in
  rating_elem ← select_one ".rating-value" listing;
  let business :=
    match rating_elem with
    | Some e => set_rating (_clean_text (get_text e)) business
    | None => business
    end in
  mret business.

Fixpoint freeindex_loop (query location : string) (pages : list Z)
    (businesses : list UKBusiness) (w : World)
  : res (list UKBusiness) * World :=
  match pages with
  | [] => (Ok businesses, w)
  | page :: pages' =>
      let search_url := freeindex_url query location page in
      match fetch_listings ".listing" ".search-result-item" search_url w with
      | (Raise e, w1) =>
          if is_RequestException e then (Ok businesses, w1) else (Raise e, w1)
      | (Ok [], w1) => (Ok businesses, w1)
      | (Ok listings, w1) =>
          freeindex_loop query location pages'
            (parse_listings (freeindex_listing (now w1)) listings businesses)
            (_delay w1)
      end
  end.

Definition scrape_freeindex (query location : string) (max_pages : Z) (w : World)
  : res (list UKBusiness) * World :=
  freeindex_loop query location (range 1 (max_pages + 1)) [] w.

(** **** Thomson Local *)

Definition thomson_url (query location : string) (page : Z) : string :=
  "https://www.thomsonlocal.com" +:+ "/search/" +:+ quote_plus query +:+ "/"
    +:+ quote_plus location +:+ "?page=" +:+ pretty page.

Definition thomson_listing (now : string) (listing : Tag) : res UKBusiness :=
  let business := new_business "thomson_local" now in
  name_elem ← select_one_or ".listing-name a" "h2 a" listing;
  let business :=
    match name_elem with
    | Some e => set_name (_clean_text (get_text e)) business
    | None => business
    end in
  address_elem ← select_one ".listing-address" listing;
  let business :=
    match address_elem with
    | Some e =>
        set_postcode (_extract_uk_postcode (get_text e))
          (set_address (_clean_text (get_text e)) business)
    | None => business
    end in
  phone_elem ← select_one_or ".listing-phone" ("a[href^=" +:+ Str.dquote +:+ "tel:"
                                                 +:+ Str.dquote +:+ "]") listing;
  let business :=
    match phone_elem with
    | Some e => set_phone (_clean_text (get_text e)) business
    | None => business
    end in
  mret business.

Fixpoint thomson_loop (query location : string) (pages : list Z)
    (businesses : list UKBusiness) (w : World)
  : res (list UKBusiness) * World :=
  match pages with
  | [] => (Ok businesses, w)
  | page :: pages' =>
      let search_url := thomson_url query location page in
      match fetch_listings ".listing-item" ".search-result" search_url w with
      | (Raise e, w1) =>
          if is_RequestException e then (Ok businesses, w1) else (Raise e, w1)
      | (Ok [], w1) => (Ok businesses, w1)
      | (Ok listings, w1) =>
          thomson_loop query location pages'
            (parse_listings (thomson_listing (now w1)) listings businesses)
            (_delay w1)
      end
  end.

Definition scrape_thomson_local (query location : string) (max_pages : Z)
    (w : World) : res (list UKBusiness) * World :=
  thomson_loop query location (range 1 (max_pages + 1)) [] w.

(** **** Yelp UK: pages are result offsets, and the loop has no test for a
    page without listings. *)

Definition yelp_url (query location : string) (page : Z) : string :=
  let start := page * 10 in
  "https://www.yelp.co.uk" +:+ "/search?find_desc=" +:+ quote_plus query
    +:+ "&find_loc=" +:+ quote_plus location +:+ "&start=" +:+ pretty start.

Definition yelp_listing (now : string) (listing : Tag) : res UKBusiness :=
  let business := new_business "yelp_uk" now in
  name_elem ← select_one ("a[href*=" +:+ Str.dquote +:+ "/biz/" +:+ Str.dquote +:+ "]")
                listing;
  let business :=
    match name_elem with
    | Some e => set_name (_clean_text (get_text e)) business
    | None => business
    end in
  cats ← select ("[class*=" +:+ Str.dquote +:+ "category" +:+ Str.dquote +:+ "] a")
           listing;
  let business :=
    match cats with
    | _ :: _ => set_industry (Str.join ", " (texts cats)) business
    | [] => business
    end in
  mret business.

Fixpoint yelp_loop (query location : string) (pages : list Z)
    (businesses : list UKBusiness) (w : World)
  : res (list UKBusiness) * World :=
  match pages with
  | [] => (Ok businesses, w)
  | page :: pages' =>
      let search_url := yelp_url query location page in
      match fetch_listings (attr "data-testid" "serp-ia-card")
              ".container__09f24__FeTO6" search_url w with
      | (Raise e, w1) =>
          if is_RequestException e then (Ok businesses, w1) else (Raise e, w1)
      | (Ok listings, w1) =>
          yelp_loop query location pages'
            (parse_listings (yelp_listing (now w1)) listings businesses)
            (_delay w1)
      end
  end.

Definition scrape_yelp_uk (query location : string) (max_pages : Z) (w : World)
  : res (list UKBusiness) * World :=
  yelp_loop query location (range 0 max_pages) [] w.

(** **** Google local results: one page, at most [max_results] results.
    The rating pattern reads: group 1 is one or more digits, an optional
    dot and any digits; then any white space; then group 2, one or more
    digits, between parentheses.  The phone is [phones[0]], the first
    element of a [list(set(...))]: when several numbers were found, which
    one comes first depends on the hash seed of the process, and here on the
    enumeration [list_set] stands for. *)

Definition rating_pattern : pattern :=
  [plus digit; opt (lit "."); star digit; star space; one (lit "(");
   plus digit; one (lit ")")].

Definition google_url (query location : string) : string :=
  let search_query := query +:+ " in " +:+ location +:+ " UK" in
  "https://www.google.com/search?q=" +:+ quote_plus search_query +:+ "&tbm=lcl".

Definition google_result (now : string) (result : Tag) : res UKBusiness :=
  let business := new_business "google_maps" now in
  name_elem ← select_one_or ".dbg0pd" ".OSrXXb" result;
  let business :=
    match name_elem with
    | Some e => set_name (_clean_text (get_text e)) business
    | None => business
    end in
  let text := get_text result in
  let business :=
    match search rating_pattern text with
    | Some rating_match =>
        set_review_count (groups 5 1 rating_match)
          (set_rating (groups 0 3 rating_match) business)
    | None => business
    end in
  address_elem ← select_one ".rllt__details" result;
  let business :=
    match address_elem with
    | Some e =>
        set_postcode (_extract_uk_postcode (get_text e))
          (set_address (_clean_text (get_text e)) business)
    | None => business
    end in
  let business :=
    match _extract_uk_phones text with
    | phone0 :: _ => set_phone phone0 business
    | [] => business
    end in
  mret business.

Definition scrape_google_maps (query location : string) (max_results : Z)
    (w : World) : res (list UKBusiness) * World :=
  match fetch_listings ".VkpGBb" "[data-hveid]" (google_url query location) w with
  | (Raise e, w1) =>
      if is_RequestException e then (Ok [], w1) else (Raise e, w1)
  | (Ok local_results, w1) =>
      (Ok (parse_listings (google_result (now w1))
             (slice_to max_results local_results) []),
       _delay w1)
  end.

(** *** The orchestrator *)

Definition source_methods (query location : string) (max_pages : Z)
  : gmap string (World -> res (list UKBusiness) * World) :=
  list_to_map
    [("yell", scrape_yell query location max_pages);
     ("google", scrape_google_maps query location (max_pages * 10));
     ("thomson", scrape_thomson_local query location max_pages);
     ("freeindex", scrape_freeindex query location max_pages);
     ("yelp", scrape_yelp_uk query location max_pages)].

(** The loop over the requested sources. *)
Fixpoint run_sources (methods : gmap string (World -> res (list UKBusiness) * World))
    (sources : list string) (all_businesses : list UKBusiness) (w : World)
  : list UKBusiness * World :=
  match sources with
  | [] => (all_businesses, w)
  | source :: sources' =>
      match methods !! source with
      | Some method =>
          match method w with
          | (Ok results, w1) =>
              run_sources methods sources' (all_businesses ++ results) w1
          | (Raise _, w1) => run_sources methods sources' all_businesses w1
          end
      | None => run_sources methods sources' all_businesses w
      end
  end.

Definition name_lower (biz : UKBusiness) : string :=
  Str.strip (Str.lower (name biz)).

(** The loop that removes duplicates by name. *)
Fixpoint deduplicate (all_businesses : list UKBusiness) (seen_names : gset string)
    (unique_businesses : list UKBusiness) : list UKBusiness :=
  match all_businesses with
  | [] => unique_businesses
  | biz :: rest =>
      if Str.truthy (name_lower biz) && bool_decide (name_lower biz ∉ seen_names)
      then deduplicate rest ({[name_lower biz]} ∪ seen_names)
             (unique_businesses ++ [biz])
      else deduplicate rest seen_names unique_businesses
  end.

(** [search]; [sources] is [None] when the argument is left out.  The
    list returned is also what the scraper keeps in [self.results]. *)
Definition search (query location : string) (sources : option (list string))
    (max_pages : Z) (w : World) : list UKBusiness * World :=
  let sources := default ["yell"; "freeindex"] sources in
  let '(all_businesses, w1) :=
    run_sources (source_methods query location max_pages) sources [] w in
  (deduplicate all_businesses ∅ [], w1).

End UKBusinessScraper.

(** ** The request boundary

    [json] is the value [json.loads] returns (and [json.dumps] takes): a
    float is kept as an IEEE double. *)

#[warnings="-register-all"]
Inductive json :=
| JNull
| JBool (b : bool)
| JInt (n : Z)
| JFloat (x : spec_float)
| JStr (s : string)
| JArr (items : list json)
| JObj (fields : list (string * json)).

(** Python's truth value of a decoded JSON value. *)
Definition json_truthy (v : json) : bool :=
  match v with
  | JNull => false
  | JBool b => b
  | JInt n => negb (n =? 0)
  | JFloat (S754_zero _) => false
  | JFloat _ => true
  | JStr s => Str.truthy s
  | JArr items => match items with [] => false | _ => true end
  | JObj fields => match fields with [] => false | _ => true end
  end.

Definition type_name (v : json) : string :=
  match v with
  | JNull => "NoneType" | JBool _ => "bool" | JInt _ => "int"
  | JFloat _ => "float" | JStr _ => "str" | JArr _ => "list" | JObj _ => "dict"
  end.

Definition quoted (s : string) : string := "'" +:+ s +:+ "'".

(** [data.get(key, default)]: only a [dict] has the method. *)
Definition json_get (data : json) (key : string) (default : json) : res json :=
  match data with
  | JObj fields => Ok (from_option id default (assoc key fields))
  | _ => Raise (Exception "AttributeError"
                  (quoted (type_name data) +:+ " object has no attribute 'get'"))
  end.

(** The double 5.0, in the canonical form of binary64 (53-bit mantissa). *)
Definition five : spec_float := S754_finite false 5629499534213120 (-50).

(** [min(v, 5)]: the built-in keeps [v] unless [5 < v]; comparing [5] with
    a value that is not a number raises [TypeError]. *)
Definition min_5 (v : json) : res json :=
  match v with
  | JInt n => Ok (if 5 <? n then JInt 5 else v)
  | JBool _ => Ok v
  | JFloat x => Ok (if SFltb five x then JInt 5 else v)
  | _ => Raise (Exception "TypeError"
                  ("'<' not supported between instances of 'int' and "
                   +:+ quoted (type_name v)))
  end.

(** [repr(s)] of a [str] of characters up to U+00FF (what a header value
    is): between single quotes, or between double quotes when the string has
    a single quote and no double quote; the quote used and the backslash are
    escaped, TAB, LF and CR are written [\t], [\n], [\r], and every other
    character that is not printable as [\x] and two hexadecimal digits. *)
Definition dquote_char : ascii := ascii_of_nat 34.

Definition hex_lower (n : N) : ascii :=
  if (n <? 10)%N then ascii_of_N (48 + n) else ascii_of_N (87 + n).

Definition isprintable (c : ascii) : bool :=
  Str.in_range 32 126 c
  || (Str.in_range 161 255 c && negb (Str.code c =? 173)%N).

Definition repr_char (quote c : ascii) : list ascii :=
  if bool_decide (c = quote) || bool_decide (c = "\"%char) then ["\"%char; c]
  else if (Str.code c =? 9)%N then ["\"; "t"]%char
  else if (Str.code c =? 10)%N then ["\"; "n"]%char
  else if (Str.code c =? 13)%N then ["\"; "r"]%char
  else if isprintable c then [c]
  else ["\"%char; "x"%char; hex_lower (Str.code c / 16); hex_lower (Str.code c mod 16)].

Definition repr_chars (s : list ascii) : list ascii :=
  let quote :=
    if bool_decide ("'"%char ∈ s) && negb (bool_decide (dquote_char ∈ s))
    then dquote_char else "'"%char in
  [quote] ++ concat (repr_char quote <$> s) ++ [quote].

Definition repr (s : string) : string := Str.text (repr_chars (Str.chars s)).

(** [int(s)] for a header value, as CPython 3.11 computes it.  After any
    white space and an optional sign come decimal digits, among which single
    underscores may stand; white space may follow.  White space is here
    TAB..CR, the space, NEL and NBSP.  More than 4300 digits (the default of
    [sys.set_int_max_str_digits]) are refused as soon as they have been
    counted, before what follows them is looked at.  The message of every
    other refusal shows the first 200 characters of [repr(s)]. *)
Definition int_space (c : ascii) : bool :=
  Str.in_range 9 13 c || (Str.code c =? 32)%N
  || (Str.code c =? 133)%N || (Str.code c =? 160)%N.

(** The run of digits and underscores at the head of [s]: its value, the
    number of its digits and what follows it; [None] for two underscores in
    a row or an underscore at the end of the run. *)
Fixpoint scan_digits (acc : Z) (digits : nat) (after_underscore : bool)
    (s : list ascii) : option (Z * nat * list ascii) :=
  match s with
  | [] => if after_underscore then None else Some (acc, digits, [])
  | c :: s' =>
      if Str.isdecimal c
      then scan_digits (10 * acc + Z.of_N (Str.code c - 48)) (S digits) false s'
      else if bool_decide (c = "_"%char)
      then if after_underscore then None else scan_digits acc digits true s'
      else if after_underscore then None else Some (acc, digits, s)
  end.

Fixpoint skip_space (s : list ascii) : list ascii :=
  match s with
  | c :: s' => if int_space c then skip_space s' else s
  | [] => []
  end.

Definition max_str_digits : nat := 4300.

Definition invalid_literal (s : string) : exn :=
  Exception "ValueError"
    ("invalid literal for int() with base 10: "
     +:+ Str.text (take 200 (Str.chars (repr s)))).

Definition exceeds_limit (digits : nat) : exn :=
  Exception "ValueError"
    ("Exceeds the limit (4300 digits) for integer string conversion: value has "
     +:+ pretty (Z.of_nat digits)
     +:+ " digits; use sys.set_int_max_str_digits() to increase the limit").

Definition int_of_str (s : string) : res Z :=
  let s1 := skip_space (Str.chars s) in
  let '(sign, s2) :=
    match s1 with
    | c :: rest =>
        if bool_decide (c = "-"%char) then (-1, rest)
        else if bool_decide (c = "+"%char) then (1, rest)
        else (1, s1)
    | [] => (1, s1)
    end in
  match s2 with
  | c :: _ =>
      if bool_decide (c = "_"%char) then Raise (invalid_literal s)
      else
        match scan_digits 0 0 false s2 with
        | None => Raise (invalid_literal s)
        | Some (value, digits, rest) =>
            if (max_str_digits <? digits)%nat then Raise (exceeds_limit digits)
            else if (digits =? 0)%nat then Raise (invalid_literal s)
            else if forallb int_space rest then Ok (sign * value)
            else Raise (invalid_literal s)
        end
  | [] => Raise (invalid_literal s)
  end.

Definition int (v : option string) : res Z :=
  match v with
  | None =>
      Raise (Exception "TypeError"
               "int() argument must be a string, a bytes-like object or a real number, not 'NoneType'")
  | Some s => int_of_str s
  end.

(** [dataclasses.asdict] *)
Definition asdict (b : UKBusiness) : json :=
  JObj [("name", JStr (name b)); ("email", JStr (email b));
        ("phone", JStr (phone b)); ("website", JStr (website b));
        ("address", JStr (address b)); ("city", JStr (city b));
        ("county", JStr (county b)); ("postcode", JStr (postcode b));
        ("country", JStr (country b)); ("industry", JStr (industry b));
        ("description", JStr (description b));
        ("company_number", JStr (company_number b));
        ("revenue", JStr (revenue b)); ("employees", JStr (employees b));
        ("year_founded", JStr (year_founded b));
        ("company_status", JStr (company_status b));
        ("sic_codes", JStr (sic_codes b)); ("rating", JStr (rating b));
        ("review_count", JStr (review_count b));
        ("opening_hours", JStr (opening_hours b));
        ("social_media", JObj ((fun kv => (kv.1, JStr kv.2)) <$> social_media b));
        ("source", JStr (source b)); ("scraped_at", JStr (scraped_at b))].

(** An inbound POST: its headers (names compared without case) and its
    body stream.  [rfile_read req n] is [self.rfile.read(n)]: it raises (on a
    socket stream, [ValueError] for a length below -1; a connection error),
    or it returns bytes, which are given by what
    [json.loads(post_data.decode('utf-8'))] makes of them.  A response:
    status, the headers the handler sends, and the value passed to
    [json.dumps]. *)
Record Request := {
  headers : list (string * string);
  rfile_read : Z -> res (res json)
}.

(** [json.loads(self.rfile.read(n).decode('utf-8'))], the read included. *)
Definition payload (req : Request) (n : Z) : res json :=
  match rfile_read req n with
  | Ok post_data => post_data
  | Raise e => Raise e
  end.

Record Reply := {
  status : Z;
  sent_headers : list (string * string);
  body : json
}.

Definition header (name : string) (req : Request) : option string :=
  (fun hit => hit.2.2)
    <$> list_find (fun kv => Str.lower kv.1 = Str.lower name) (headers req).

(** What a call of [do_POST] comes to.  [Untyped] marks a request whose
    [query], [location], [sources] or [max_pages] has a JSON type other than
    the one [search] declares for it ([str], [str], [List[str]] or null,
    [int]) and that the handler nevertheless passes on: what Python's dynamic
    typing makes of such a call (it may be served, and it may fail after
    directories were contacted) is outside this development, and nothing is
    stated about it; the world paired with [Untyped] carries no
    information. *)
Inductive handled :=
| Responded (r : Reply)
| Propagated (e : exn)
| Untyped.

Module handler.

Definition as_str (v : json) : option string :=
  match v with JStr s => Some s | _ => None end.

Definition as_int (v : json) : option Z :=
  match v with JInt n => Some n | _ => None end.

Definition as_sources (v : json) : option (option (list string)) :=
  match v with
  | JNull => Some None
  | JArr items => Some <$> mapM as_str items
  | _ => None
  end.

Definition error_reply (code : Z) (msg : string) : Reply :=
  {| status := code;
     sent_headers := [("Content-type", "application/json")];
     body := JObj [("error", JStr msg)] |}.

Definition ok_reply (businesses : list UKBusiness) (query location sources : json)
  : Reply :=
  {| status := 200;
     sent_headers := [("Content-type", "application/json");
                      ("Access-Control-Allow-Origin", "*")];
     body := JObj [("businesses", JArr (asdict <$> businesses));
                   ("count", JInt (Z.of_nat (length businesses)));
                   ("query", query); ("location", location);
                   ("sources", sources)] |}.

(** The body of the [try] block; [None] stands for [Untyped]. *)
Definition try_block (post_data : res json) (w : World)
  : res (option (Reply * World)) :=
  data ← post_data;
  query ← json_get data "query" (JStr EmptyString);
  location ← json_get data "location" (JStr EmptyString);
  sources ← json_get data "sources" (JArr [JStr "yell"; JStr "freeindex"]);
  max_pages ← (json_get data "max_pages" (JInt 2) ≫= min_5);
  if negb (json_truthy query) || negb (json_truthy location)
  then mret (Some (error_reply 400 "Missing query or location", w))
  else
    match as_str query, as_str location, as_sources sources, as_int max_pages with
    | Some q, Some l, Some srcs, Some n =>
        let '(businesses, w1) := UKBusinessScraper.search q l srcs n w in
        mret (Some (ok_reply businesses query location sources, w1))
    | _, _, _, _ => mret None
    end.

(** The two statements before the [try] are not protected by it: what
    [int] or [read] raises leaves [do_POST], and nothing is sent. *)
Definition do_POST (req : Request) (w : World) : handled * World :=
  match int (header "Content-Length" req) with
  | Raise e => (Propagated e, w)
  | Ok content_length =>
      match rfile_read req content_length with
      | Raise e => (Propagated e, w)
      | Ok post_data =>
          match try_block post_data w with
          | Ok (Some (reply, w1)) => (Responded reply, w1)
          | Ok None => (Untyped, w)
          | Raise e => (Responded (error_reply 500 (exn_str e)), w)
          end
      end
  end.

Definition do_OPTIONS : Reply :=
  {| status := 200;
     sent_headers := [("Access-Control-Allow-Origin", "*");
                      ("Access-Control-Allow-Methods", "POST, OPTIONS");
                      ("Access-Control-Allow-Headers", "Content-Type")];
     body := JNull |}.

End handler.

(** * Texts beyond U+00FF

    The strings above stop at U+00FF.  A page, and so the text given to
    [_extract_uk_postcode], may hold any character; and the classes of the
    postcode pattern accept characters beyond U+00FF: under
    [re.IGNORECASE], [[A-Z]] also matches U+0130, U+0131, U+017F and U+212A
    (whose lower-case or upper-case forms are ASCII letters), [\d] matches
    every decimal digit of Unicode and [\s] every white-space character.
    This section models the extractor on a [str] given as the list of its
    code points, with the tables of Unicode 14.0 (CPython 3.11). *)

Module Unicode.

Definition str : Type := list N.

(** The code points of a string of the first model. *)
Definition of_chars (s : list ascii) : str := Str.code <$> s.
Definition of_string (s : string) : str := of_chars (Str.chars s).

Definition in_ranges (ranges : list (N * N)) (c : N) : bool :=
  existsb (fun r => (r.1 <=? c)%N && (c <=? r.2)%N) ranges.

(** [\d]: the characters of category Nd.  They come in runs of ten from
    a zero, except the fifty mathematical digits from U+1D7CE. *)
Definition zeros : list N :=
  [0x30; 0x660; 0x6F0; 0x7C0; 0x966; 0x9E6; 0xA66; 0xAE6;
   0xB66; 0xBE6; 0xC66; 0xCE6; 0xD66; 0xDE6; 0xE50; 0xED0;
   0xF20; 0x1040; 0x1090; 0x17E0; 0x1810; 0x1946; 0x19D0; 0x1A80;
   0x1A90; 0x1B50; 0x1BB0; 0x1C40; 0x1C50; 0xA620; 0xA8D0; 0xA900;
   0xA9D0; 0xA9F0; 0xAA50; 0xABF0; 0xFF10; 0x104A0; 0x10D30; 0x11066;
   0x110F0; 0x11136; 0x111D0; 0x112F0; 0x11450; 0x114D0; 0x11650; 0x116C0;
   0x11730; 0x118E0; 0x11950; 0x11C50; 0x11D50; 0x11DA0; 0x16A60; 0x16AC0;
   0x16B50; 0x1E140; 0x1E2F0; 0x1E950; 0x1FBF0]%N.

Definition isdecimal (c : N) : bool :=
  existsb (fun zero => (zero <=? c)%N && (c <? zero + 10)%N) zeros
  || ((0x1D7CE <=? c)%N && (c <=? 0x1D7FF)%N).

(** [\s] *)
Definition isspace (c : N) : bool :=
  in_ranges [(0x9, 0xD); (0x1C, 0x20); (0x85, 0x85); (0xA0, 0xA0);
             (0x1680, 0x1680); (0x2000, 0x200A); (0x2028, 0x2029);
             (0x202F, 0x202F); (0x205F, 0x205F); (0x3000, 0x3000)]%N c.

(** [[A-Z]] under [re.IGNORECASE] *)
Definition letter (c : N) : bool :=
  in_ranges [(0x41, 0x5A); (0x61, 0x7A); (0x130, 0x131); (0x17F, 0x17F);
             (0x212A, 0x212A)]%N c.

(** [[A-Z\d]] under [re.IGNORECASE] *)
Definition alnum (c : N) : bool := letter c || isdecimal c.

(** [str.upper], one character at a time.  This is exact on every
    character the postcode pattern can match, the only ones it is applied
    to: of these, [a]..[z] become capitals, U+0131 becomes [I], U+017F
    becomes [S], and the others stay.  Elsewhere it follows
    [Str.upper_char]. *)
Definition upper_char (c : N) : N :=
  if ((0x61 <=? c) && (c <=? 0x7A))%N
     || ((0xE0 <=? c) && (c <=? 0xFE) && negb (c =? 0xF7))%N
  then (c - 32)%N
  else if (c =? 0x131)%N then 0x49%N
  else if (c =? 0x17F)%N then 0x53%N
  else c.

(** The matcher of [re], for patterns that are a sequence of greedy
    repetitions of a class (the postcode pattern has no alternation). *)
Inductive item :=
| Rep (c : N -> bool) (lo : nat) (hi : option nat).

Definition pattern := list item.

Fixpoint run (c : N -> bool) (s : str) : nat :=
  match s with
  | x :: s' => if c x then S (run c s') else 0%nat
  | [] => 0%nat
  end.

Fixpoint match_here (p : pattern) (s : str) : option (list str) :=
  match p with
  | [] => Some []
  | Rep c lo hi :: p' =>
      re.first_some
        (fun n => (fun m => take n s :: m) <$> match_here p' (drop n s))
        (re.counts lo hi (run c s))
  end.

Fixpoint search_chars (p : pattern) (s : str) : option (list str) :=
  match match_here p s with
  | Some m => Some m
  | None => match s with
            | [] => None
            | _ :: s' => search_chars p s'
            end
  end.

Definition postcode_pattern : pattern :=
  [Rep letter 1 (Some 2%nat); Rep isdecimal 1 (Some 1%nat);
   Rep alnum 0 (Some 1%nat); Rep isspace 0 None; Rep isdecimal 1 (Some 1%nat);
   Rep letter 2 (Some 2%nat)].

Definition _extract_uk_postcode (text : str) : str :=
  match search_chars postcode_pattern text with
  | Some m => upper_char <$> concat m
  | None => []
  end.

End Unicode.

(** * Vocabulary of the specification *)

(** ** What a pattern means

    [matches p m]: the pieces [m] are, item by item, an admissible reading of
    pattern [p]. *)

Definition within (hi : option nat) (n : nat) : Prop :=
  match hi with Some h => (n <= h)%nat | None => True end.

Inductive matches : re.pattern -> list (list ascii) -> Prop :=
| matches_nil : matches [] []
| matches_rep c lo hi p x m :
    Forall (fun a => c a = true) x ->
    (lo <= length x)%nat -> within hi (length x) ->
    matches p m ->
    matches (re.Rep c lo hi :: p) (x :: m)
| matches_alt alts p a m :
    a ∈ alts -> matches p m -> matches (re.Alt alts :: p) (a :: m).

(** ** The postcode grammar, as the specification words it

    One or two letters, one digit, an optional letter or digit, white space,
    one digit, two letters.  [capitals] asks for capital letters only;
    [gap] is the least number of white-space characters that counts as
    "white space" between the two halves. *)

Definition letter (c : ascii) : bool := re.a_z c || re.A_Z c.

Definition postcode_shape (capitals : bool) (gap : nat) (s : list ascii) : Prop :=
  let L := if capitals then re.A_Z else letter in
  exists area d1 o ws d2 unit_,
    s = area ++ [d1] ++ o ++ ws ++ [d2] ++ unit_ /\
    (1 <= length area <= 2)%nat /\ Forall (fun c => L c = true) area /\
    re.digit d1 = true /\
    (length o <= 1)%nat /\ Forall (fun c => L c || re.digit c = true) o /\
    (gap <= length ws)%nat /\ Forall (fun c => Str.isspace c = true) ws /\
    re.digit d2 = true /\
    length unit_ = 2%nat /\ Forall (fun c => L c = true) unit_.

(** [sub] occurs in [s] after [n] characters. *)
Definition occurs_at (n : nat) (sub s : list ascii) : Prop :=
  exists pre post, s = pre ++ sub ++ post /\ length pre = n.

(** ** The postcode grammar over all of Unicode

    As [postcode_shape], with the classes the pattern really has: a letter
    is a character [[A-Z]] matches regardless of case, a capital is what
    [str.upper] makes of one ([A]..[Z], U+0130 or U+212A), a digit is any
    decimal digit, and any run of white space may stand between the two
    halves. *)

Module UnicodeShape.

Definition capital (c : N) : bool :=
  Unicode.in_ranges [(0x41, 0x5A); (0x130, 0x130); (0x212A, 0x212A)]%N c.

Inductive matches : Unicode.pattern -> list Unicode.str -> Prop :=
| matches_nil : matches [] []
| matches_rep c lo hi p x m :
    Forall (fun a => c a = true) x ->
    (lo <= length x)%nat -> within hi (length x) ->
    matches p m ->
    matches (Unicode.Rep c lo hi :: p) (x :: m).

Definition postcode_shape (capitals : bool) (s : Unicode.str) : Prop :=
  let L := if capitals then capital else Unicode.letter in
  exists area d1 o ws d2 unit_,
    s = area ++ [d1] ++ o ++ ws ++ [d2] ++ unit_ /\
    (1 <= length area <= 2)%nat /\ Forall (fun c => L c = true) area /\
    Unicode.isdecimal d1 = true /\
    (length o <= 1)%nat /\
    Forall (fun c => L c || Unicode.isdecimal c = true) o /\
    Forall (fun c => Unicode.isspace c = true) ws /\
    Unicode.isdecimal d2 = true /\
    length unit_ = 2%nat /\ Forall (fun c => L c = true) unit_.

(** [sub] occurs in [s] after [n] characters. *)
Definition occurs_at (n : nat) (sub s : Unicode.str) : Prop :=
  exists pre post, s = pre ++ sub ++ post /\ length pre = n.

End UnicodeShape.

(** ** Vocabulary for the adapters' loops *)



(** Fetching [url] in world [w] succeeds, and neither container selector
    finds a listing on the page. *)
Definition empty_page (primary fallback url : string) (w : World) : bool :=
  match oracle w (requests w) (pauses w) url with
  | Fails _ => false
  | Response status_code soup =>
      negb (bool_decide (400 <= status_code < 600))
      && match select primary soup, select fallback soup with
         | Ok [], Ok [] => true
         | _, _ => false
         end
  end.

(** The world right after one GET of [url]. *)
Definition after_get (url : string) (w : World) : World := (session_get url w).2.

(** The shape all four page loops have. *)
Definition loop : Type :=
  list Z -> list UKBusiness -> World -> res (list UKBusiness) * World.


Definition stops_on_empty_page (primary fallback : string) (url : Z -> string)
    (L : loop) : Prop :=
  forall page rest businesses w,
    empty_page primary fallback (url page) w = true ->
    L (page :: rest) businesses w = (Ok businesses, after_get (url page) w).

(** A record as the adapters build them: the name is the normalized text of
    some element and is not empty, and the postcode is empty or was produced
    by the postcode extractor. *)
Definition built_record (b : UKBusiness) : Prop :=
  name b <> EmptyString /\
  (exists raw, name b = UKBusinessScraper._clean_text raw) /\
  (postcode b = EmptyString
   \/ exists raw, postcode b = UKBusinessScraper._extract_uk_postcode raw).



(** ** Vocabulary for the orchestrator *)

Definition known_sources : list string :=
  ["yell"; "google"; "thomson"; "freeindex"; "yelp"].

(** Deduplication as the specification words it: going through [l] in
    order, a record is kept exactly when no record before it (in [before] or
    earlier in [l]) has the same normalized name. *)
Fixpoint first_occurrences (before l : list UKBusiness) : list UKBusiness :=
  match l with
  | [] => []
  | b :: l' =>
      (if bool_decide (UKBusinessScraper.name_lower b
                         ∈ UKBusinessScraper.name_lower <$> before)
       then [] else [b])
      ++ first_occurrences (before ++ [b]) l'
  end.

(** The list [search] accumulates before it removes duplicates. *)
Definition accumulated (query location : string) (sources : option (list string))
    (max_pages : Z) (w : World) : list UKBusiness :=
  (UKBusinessScraper.run_sources
     (UKBusinessScraper.source_methods query location max_pages)
     (default ["yell"; "freeindex"] sources) [] w).1.

(** ** The e-mail grammar and the noise tests, in words *)

(** [local@domain.tld]: a non-empty local part, [@], a non-empty host, a dot
    and a top-level domain of two or more letters. *)
Definition email_shape (s : list ascii) : Prop :=
  exists local_ host tld,
    s = local_ ++ ["@"%char] ++ host ++ ["."%char] ++ tld /\
    local_ <> [] /\ Forall (fun c => UKBusinessScraper.email_local c = true) local_ /\
    host <> [] /\ Forall (fun c => UKBusinessScraper.email_host c = true) host /\
    (2 <= length tld)%nat /\ Forall (fun c => letter c = true) tld.

(** The test the source applies to a match: one of the noise strings
    occurs somewhere in the lower-cased match. *)
Definition noisy (e : string) : bool :=
  existsb (fun x => Str.contains x (Str.lower e)) UKBusinessScraper.email_noise.

(** The part of an address after its first [@]. *)
Fixpoint after_at (s : list ascii) : list ascii :=
  match s with
  | [] => []
  | c :: s' => if bool_decide (c = "@"%char) then s' else after_at s'
  end.

Definition domain_of (e : string) : string := Str.text (after_at (Str.chars e)).

(** A match "from a noise domain", read as broadly as the words allow: one
    of the noise strings occurs in the domain part of the address. *)
Definition from_noise_domain (e : string) : bool :=
  existsb (fun x => Str.contains x (Str.lower (domain_of e)))
          UKBusinessScraper.email_noise.

(** No item of the pattern can consume the character [sep]. *)
Definition item_rejects (sep : ascii) (i : re.item) : bool :=
  match i with
  | re.Rep c _ _ => negb (c sep)
  | re.Alt alts => forallb (fun a => negb (bool_decide (sep ∈ a))) alts
  end.

Definition rejects (sep : ascii) (p : re.pattern) : bool :=
  forallb (item_rejects sep) p.

(** What running source [s] comes to in world [w], if [s] is a known
    source: the call [source_methods[s]()]. *)
Definition run_source (query location : string) (max_pages : Z) (s : string)
    (w : World) : option (res (list UKBusiness) * World) :=
  (fun method => method w)
    <$> UKBusinessScraper.source_methods query location max_pages !! s.

(** The five adapters, as [search] calls them. *)
Definition adapters (query location : string) (max_pages : Z)
  : list (World -> res (list UKBusiness) * World) :=
  [UKBusinessScraper.scrape_yell query location max_pages;
   UKBusinessScraper.scrape_google_maps query location (max_pages * 10);
   UKBusinessScraper.scrape_thomson_local query location max_pages;
   UKBusinessScraper.scrape_freeindex query location max_pages;
   UKBusinessScraper.scrape_yelp_uk query location max_pages].

(** ** Example pages and worlds *)

Module Examples.

Definition element (text : string) : Tag := Node text [].

Definition page (container : string) (listings : list Tag) : Tag :=
  Node EmptyString [(container, Ok listings)].

Definition no_listings : Tag := Node EmptyString [].

(** A world whose answers depend on the URL only. *)
Definition world (site : string -> outcome) : World :=
  {| oracle := fun _ _ url => site url;
     clock := fun _ _ => "2024-05-01T09:00:00";
     requests := []; pauses := 0 |}.

Definition yell_card (name address : string) : Tag :=
  Node EmptyString [(".businessCapsule--name a", Ok [element name]);
                    (".businessCapsule--address", Ok [element address])].

Definition freeindex_card (name : string) : Tag :=
  Node EmptyString [(".listing-title a", Ok [element name])].

Definition yelp_card (name : string) : Tag :=
  Node EmptyString
    [("a[href*=" +:+ Str.dquote +:+ "/biz/" +:+ Str.dquote +:+ "]", Ok [element name])].

(** Yell and FreeIndex both list Acme, spelt differently. *)
Definition acme : World :=
  world (fun url =>
    if String.prefix "https://www.yell.com" url
    then Response 200 (page ".businessCapsule" [yell_card "ACME LTD " "1 High St, Leeds LS1 4AP"])
    else if String.prefix "https://www.freeindex.co.uk" url
    then Response 200 (page ".listing" [freeindex_card "acme ltd"])
    else Response 404 no_listings).

(** On Yell, [session.get] raises an exception that is not a
    [RequestException]; Thomson Local lists three businesses, one of them
    with a blank name. *)
Definition yell_down : World :=
  world (fun url =>
    if String.prefix "https://www.yell.com" url
    then Fails (Exception "UnicodeError" "label too long")
    else if String.prefix "https://www.thomsonlocal.com" url
    then Response 200
           (page ".listing-item"
              [Node EmptyString [(".listing-name a", Ok [element "Aire Plumbing"])];
               Node EmptyString [(".listing-name a", Ok [element "   "])];
               Node EmptyString [(".listing-name a", Ok [element "Briggate Boilers"])]])
    else Response 404 no_listings).

(** Yell serves its first page and then answers 503. *)
Definition yell_flaky : World :=
  world (fun url =>
    if String.prefix "https://www.yell.com" url
    then if Str.contains "pageNum=1" url
         then Response 200 (page ".businessCapsule"
                              [yell_card "ABC Plumbing" "2 Park Row, Leeds ls1   4ap"])
         else Response 503 no_listings
    else Response 404 no_listings).

(** Yelp has nothing at offset 0 and one business at offset 10; Yell has
    nothing on page 1 and one business on page 2. *)
Definition gap : World :=
  world (fun url =>
    if String.prefix "https://www.yelp.co.uk" url
    then if Str.contains "start=0" url
         then Response 200 no_listings
         else Response 200 (page (UKBusinessScraper.attr "data-testid" "serp-ia-card")
                              [yelp_card "Late Cafe"])
    else if Str.contains "pageNum=1" url
    then Response 200 no_listings
    else Response 200 (page ".businessCapsule" [yell_card "Late Cafe" "Leeds"])).


Definition post (hdrs : list (string * string)) (data : json) : Request :=
  {| headers := hdrs; rfile_read := fun _ => Ok (Ok data) |}.

Definition plumbers (max_pages : Z) : json :=
  JObj [("query", JStr "plumbers"); ("location", JStr "Leeds");
        ("sources", JArr [JStr "yell"]); ("max_pages", JInt max_pages)].

End Examples.

(** A string has ink when some character of it is not white space. *)
Definition has_ink (l : list ascii) : Prop :=
  exists c, c ∈ l /\ Str.isspace c = false.


(** ** Further vocabulary *)

(** A word: a non-empty run of characters none of which is white space. *)
Definition word (w : list ascii) : Prop :=
  w <> [] /\ Forall (fun c => Str.isspace c = false) w.

(** The text is empty or starts with white space. *)
Definition head_space (s : list ascii) : bool :=
  match s with c :: _ => Str.isspace c | [] => true end.

(** The characters an item can consume. *)
Definition item_accepts (i : re.item) (a : ascii) : bool :=
  match i with
  | re.Rep c _ _ => c a
  | re.Alt alts => bool_decide (a ∈ concat alts)
  end.

(** The least and the greatest number of characters a reading of a pattern
    can have ([None]: no bound). *)
Definition item_min (i : re.item) : nat :=
  match i with
  | re.Rep _ lo _ => lo
  | re.Alt alts => foldr Nat.min (foldr Nat.max 0%nat (length <$> alts)) (length <$> alts)
  end.

Definition item_max (i : re.item) : option nat :=
  match i with
  | re.Rep _ _ hi => hi
  | re.Alt alts => Some (foldr Nat.max 0%nat (length <$> alts))
  end.

Definition min_len (p : re.pattern) : nat :=
  foldr (fun i n => (item_min i + n)%nat) 0%nat p.

Definition max_len (p : re.pattern) : option nat :=
  foldr (fun i n => match item_max i, n with
                    | Some a, Some b => Some (a + b)%nat
                    | _, _ => None
                    end) (Some 0%nat) p.

(** A character that can occur in a phone number: a digit, [+], white
    space, a dot or a hyphen. *)
Definition phone_char (c : ascii) : bool :=
  re.digit c || Str.isspace c || bool_decide (c ∈ ["+"; "."; "-"]%char).

(** World [w'] comes after [w] with at most [n] more requests: the log of
    [w] is extended by at most [n] URLs, and no delay is undone. *)
Definition grows_by (n : nat) (w w' : World) : Prop :=
  exists urls, requests w' = urls ++ requests w /\ (length urls <= n)%nat
               /\ (pauses w <= pauses w')%nat.

(** A page loop fetches the pages it is given in their order, without
    skipping or repeating one, up to the page at which it stops; and it
    sleeps after every fetch except possibly the last. *)
Definition fetches_pages_in_order (url : Z -> string) (L : loop) : Prop :=
  forall pages businesses w,
    exists fetched,
      fetched `prefix_of` pages
      /\ requests (L pages businesses w).2 = reverse (url <$> fetched) ++ requests w
      /\ (pauses w + length fetched <= pauses (L pages businesses w).2 + 1)%nat
      /\ (pauses w <= pauses (L pages businesses w).2 <= pauses w + length fetched)%nat.

(** The number of sources a reply says were used: the length of the
    [sources] array it echoes, and 2 (the default pair) when it echoes none. *)
Definition listed (r : Reply) : nat :=
  match body r with
  | JObj fields =>
      match assoc "sources" fields with
      | Some (JArr items) => length items
      | _ => 2%nat
      end
  | _ => 0%nat
  end.


Module MoreExamples.

Definition google_result_card (name : string) (text : string) : Tag :=
  Node text [(".dbg0pd", Ok [Examples.element name])].

(** Google lists three places; the other directories answer 404. *)
Definition google_three : World :=
  Examples.world (fun url =>
    if String.prefix "https://www.google.com" url
    then Response 200
           (Examples.page ".VkpGBb"
              [google_result_card "Aire Cafe" "Aire Cafe 4.5 (120) 0113 496 0000";
               google_result_card "Briggate Cafe" "Briggate Cafe";
               google_result_card "Calls Cafe" "Calls Cafe 3.9 (8)"])
    else Response 404 Examples.no_listings).

End MoreExamples.

(** The fields no adapter ever assigns keep their defaults. *)
Definition defaults_kept (b : UKBusiness) : Prop :=
  email b = EmptyString /\ website b = EmptyString /\ city b = EmptyString
  /\ county b = EmptyString /\ country b = "UK"
  /\ company_number b = EmptyString /\ revenue b = EmptyString
  /\ employees b = EmptyString /\ year_founded b = EmptyString
  /\ company_status b = EmptyString /\ sic_codes b = EmptyString
  /\ opening_hours b = EmptyString /\ social_media b = [].

(** What the records of each adapter look like. *)
Definition yell_record (b : UKBusiness) : Prop :=
  source b = "yell.com" /\ defaults_kept b /\ review_count b = EmptyString
  /\ postcode b = UKBusinessScraper._extract_uk_postcode (address b).

Definition freeindex_record (b : UKBusiness) : Prop :=
  source b = "freeindex" /\ defaults_kept b /\ phone b = EmptyString
  /\ description b = EmptyString /\ review_count b = EmptyString.

Definition thomson_record (b : UKBusiness) : Prop :=
  source b = "thomson_local" /\ defaults_kept b /\ industry b = EmptyString
  /\ rating b = EmptyString /\ description b = EmptyString
  /\ review_count b = EmptyString.

Definition yelp_record (b : UKBusiness) : Prop :=
  source b = "yelp_uk" /\ defaults_kept b /\ address b = EmptyString
  /\ postcode b = EmptyString /\ phone b = EmptyString
  /\ rating b = EmptyString /\ review_count b = EmptyString
  /\ description b = EmptyString.

Definition google_record (b : UKBusiness) : Prop :=
  source b = "google_maps" /\ defaults_kept b /\ industry b = EmptyString
  /\ description b = EmptyString.

Definition source_tags : list string :=
  ["yell.com"; "google_maps"; "thomson_local"; "freeindex"; "yelp_uk"].

(** The record has a name that is not blank. *)
Definition named (b : UKBusiness) : Prop :=
  Str.truthy (UKBusinessScraper.name_lower b) = true.

(** The fields of a request body have the types the interface declares:
    [query] and [location], when present, are strings; [sources] is absent,
    null or an array of strings; [max_pages] is absent or an integer. *)
Definition is_str (v : json) : bool :=
  match v with JStr _ => true | _ => false end.

Definition declared_types (fields : list (string * json)) : bool :=
  from_option is_str true (assoc "query" fields)
  && from_option is_str true (assoc "location" fields)
  && match assoc "sources" fields with
     | None | Some JNull => true
     | Some (JArr items) => forallb is_str items
     | Some _ => false
     end
  && match assoc "max_pages" fields with
     | None | Some (JInt _) => true
     | Some _ => false
     end.

(** The JSON values [min] can compare with [5]. *)
Definition is_number (v : json) : bool :=
  match v with JInt _ | JBool _ | JFloat _ => true | _ => false end.

Definition is_object (v : json) : bool :=
  match v with JObj _ => true | _ => false end.

(** A string of decimal digits. *)
Definition digits (s : list ascii) : Prop := Forall (fun c => re.digit c = true) s.

(** The rating fields of a Google record: both empty, or set together from
    one match, the rating being digits with at most one dot after the first
    run of digits and the review count a non-empty string of digits. *)
Definition rated (b : UKBusiness) : Prop :=
  (rating b = EmptyString /\ review_count b = EmptyString)
  \/ exists whole dot frac count,
       Str.chars (rating b) = whole ++ dot ++ frac
       /\ whole <> [] /\ digits whole
       /\ (dot = [] \/ dot = ["."%char]) /\ digits frac
       /\ Str.chars (review_count b) = count
       /\ count <> [] /\ digits count.

(** * Facts *)

(** * Facts about strings *)

Module StrFacts.
Import Str.

Lemma chars_text l : chars (text l) = l.
Proof. apply list_ascii_of_string_of_list_ascii. Qed.

Lemma text_chars s : text (chars s) = s.
Proof. apply string_of_list_ascii_of_string. Qed.

Lemma chars_app s1 s2 : chars (s1 +:+ s2) = chars s1 ++ chars s2.
Proof. induction s1 as [|a s1 IH]; simpl; [done|]. by rewrite <- IH. Qed.

Lemma text_nil_iff l : text l = EmptyString <-> l = [].
Proof. destruct l; simpl; split; congruence. Qed.

Lemma truthy_iff s : truthy s = true <-> s <> EmptyString.
Proof. destruct s; simpl; split; congruence. Qed.

Lemma isspace_lower_char c : isspace (lower_char c) = isspace c.
Proof. by destruct c as [[] [] [] [] [] [] [] []]. Qed.

Lemma lstrip_sub c s : c ∈ lstrip_chars s -> c ∈ s.
Proof.
  induction s as [|a s IH]; simpl; [done|].
  destruct (isspace a); [|done]. intros ?; right; auto.
Qed.

Lemma lstrip_keeps_ink c s :
  c ∈ s -> isspace c = false -> c ∈ lstrip_chars s.
Proof.
  induction s as [|a s IH]; simpl; [done|].
  intros Hin Hc. destruct (isspace a) eqn:Ha; [|done].
  apply elem_of_cons in Hin as [-> | Hin]; [congruence | auto].
Qed.

Lemma lstrip_nonempty_ink s : lstrip_chars s <> [] -> has_ink (lstrip_chars s).
Proof.
  induction s as [|a s IH]; simpl; [done|].
  destruct (isspace a) eqn:Ha; [done|].
  intros _. exists a. split; [left | done].
Qed.

Lemma strip_keeps_ink s : has_ink s -> has_ink (strip_chars s).
Proof.
  intros (c & Hin & Hc). exists c. split; [|done].
  unfold strip_chars, rstrip_chars.
  apply elem_of_reverse, lstrip_keeps_ink; [|done].
  apply elem_of_reverse, lstrip_keeps_ink; done.
Qed.

Lemma strip_nonempty_ink s : strip_chars s <> [] -> has_ink (strip_chars s).
Proof.
  unfold strip_chars, rstrip_chars. intros Hne.
  destruct (lstrip_nonempty_ink (reverse (lstrip_chars s))) as (c & Hin & Hc).
  - intros Heq. rewrite Heq in Hne. done.
  - exists c. split; [|done]. by apply elem_of_reverse.
Qed.

Lemma has_ink_nonempty s : has_ink s -> s <> [].
Proof. intros (c & Hin & _) ->. by apply elem_of_nil in Hin. Qed.

Lemma lower_keeps_ink s : has_ink s -> has_ink (lower_char <$> s).
Proof.
  intros (c & Hin & Hc). exists (lower_char c). split.
  - by apply list_elem_of_fmap_2.
  - by rewrite isspace_lower_char.
Qed.

(** A string with ink still has a non-empty value after [lower().strip()]. *)
Lemma strip_lower_truthy s :
  has_ink (chars s) -> truthy (strip (lower s)) = true.
Proof.
  intros Hink. apply truthy_iff. unfold strip, lower.
  rewrite chars_text. intros Heq%text_nil_iff.
  by apply (has_ink_nonempty _ (strip_keeps_ink _ (lower_keeps_ink _ Hink))).
Qed.

Lemma strip_truthy_ink s : truthy (strip s) = true -> has_ink (chars (strip s)).
Proof.
  intros H%truthy_iff. unfold strip in *. rewrite chars_text.
  apply strip_nonempty_ink. intros Heq. apply H. by rewrite Heq.
Qed.

End StrFacts.

(** * Facts about the matcher *)

Module reFacts.
Import re.

Lemma first_some_Some {A B} (f : A -> option B) l b :
  first_some f l = Some b ->
  exists l1 a l2, l = l1 ++ a :: l2 /\ f a = Some b
                  /\ forall a', a' ∈ l1 -> f a' = None.
Proof.
  induction l as [|a l IH]; simpl; [done|].
  destruct (f a) eqn:Hfa.
  - intros [= ->]. exists [], a, l. split_and!; [done..|].
    intros a' Hin. by apply elem_of_nil in Hin.
  - intros (l1 & a0 & l2 & -> & Hf & Hnone)%IH.
    exists (a :: l1), a0, l2. split_and!; [done..|].
    intros a' [-> | Hin]%elem_of_cons; auto.
Qed.

Lemma first_some_None {A B} (f : A -> option B) l :
  first_some f l = None <-> forall a, a ∈ l -> f a = None.
Proof.
  induction l as [|a l IH]; simpl.
  - split; [|done]. intros _ a Hin. by apply elem_of_nil in Hin.
  - destruct (f a) eqn:Hfa.
    + split; [done|]. intros H. rewrite <- Hfa. apply H. left.
    + rewrite IH. split.
      * intros H a' [-> | Hin]%elem_of_cons; auto.
      * intros H a' Hin. apply H. by right.
Qed.

Lemma first_some_ext {A B} (f g : A -> option B) l :
  (forall a, a ∈ l -> f a = g a) -> first_some f l = first_some g l.
Proof.
  induction l as [|a l IH]; simpl; [done|]. intros H.
  rewrite (H a) by left. destruct (g a); [done|].
  apply IH. intros a' Hin. apply H. by right.
Qed.

Lemma elem_of_counts lo hi k n :
  n ∈ counts lo hi k <-> (lo <= n <= cap hi k)%nat.
Proof.
  unfold counts. rewrite elem_of_reverse, elem_of_seq. lia.
Qed.

Lemma cap_le hi k n : (n <= cap hi k)%nat <-> (n <= k)%nat /\ within hi n.
Proof. destruct hi; simpl; lia. Qed.

Lemma run_le_length c s : (run c s <= length s)%nat.
Proof. induction s as [|a s IH]; simpl; [lia|]. destruct (c a); simpl; lia. Qed.

Lemma run_take c s n :
  (n <= run c s)%nat -> Forall (fun a => c a = true) (take n s) /\ length (take n s) = n.
Proof.
  revert n. induction s as [|a s IH]; intros n; simpl.
  - intros Hn. assert (n = 0%nat) as -> by lia. by split.
  - destruct n as [|n]; [by split|]. destruct (c a) eqn:Ha; [|lia].
    intros Hn. destruct (IH n) as [HF HL]; [lia|]. simpl. split; [|lia].
    by constructor.
Qed.

Lemma run_app c x r :
  Forall (fun a => c a = true) x -> (length x <= run c (x ++ r))%nat.
Proof.
  induction 1 as [|a x Ha _ IH]; simpl; [lia|]. rewrite Ha. lia.
Qed.

(** Soundness: what the matcher returns is a reading of the pattern and a
    prefix of the text. *)
Lemma match_here_sound p : forall s m,
  match_here p s = Some m -> matches p m /\ exists r, s = concat m ++ r.
Proof.
  induction p as [|[c lo hi|alts] p IH]; intros s m; simpl.
  - intros [= <-]. split; [constructor | by exists s].
  - intros (l1 & n & l2 & Hl & Hf & _)%first_some_Some.
    assert (n ∈ counts lo hi (run c s)) as Hn
      by (rewrite Hl; apply elem_of_app; right; left).
    apply elem_of_counts in Hn as [Hlo [Hk Hhi]%cap_le].
    destruct (match_here p (drop n s)) as [m'|] eqn:Hm'; [|done].
    injection Hf as <-. destruct (IH _ _ Hm') as [Hm [r Hr]].
    destruct (run_take c s n Hk) as [HF HL]. split.
    + constructor; rewrite ?HL; done.
    + exists r. simpl. rewrite <- (assoc_L (++)), <- Hr. by rewrite take_drop.
  - intros (l1 & a & l2 & Hl & Hf & _)%first_some_Some.
    destruct (Str.startswith_chars a s) eqn:Hpre; [|done].
    destruct (match_here p (drop (length a) s)) as [m'|] eqn:Hm'; [|done].
    injection Hf as <-. destruct (IH _ _ Hm') as [Hm [r Hr]]. split.
    + constructor; [|done]. rewrite Hl. apply elem_of_app; right; left.
    + exists r. simpl. rewrite <- (assoc_L (++)), <- Hr.
      clear -Hpre. revert s Hpre.
      induction a as [|x a IHa]; intros [|y s]; simpl; try done.
      intros [->%bool_decide_eq_true Hs]%andb_true_iff. f_equal. auto.
Qed.

Lemma startswith_app a r : Str.startswith_chars a (a ++ r) = true.
Proof.
  induction a as [|x a IH]; simpl; [done|].
  rewrite IH, andb_true_r. by apply bool_decide_eq_true.
Qed.

(** Completeness: when the matcher fails at a position, no reading of the
    pattern is a prefix of the text there. *)
Lemma match_here_complete p : forall s m r,
  match_here p s = None -> matches p m -> s <> concat m ++ r.
Proof.
  induction p as [|[c lo hi|alts] p IH]; intros s m r; simpl; [done|..].
  - intros Hnone Hm Hs. inversion Hm as [|? ? ? ? x m' HF Hlo Hhi Hm'|]; subst.
    simpl in Hnone. rewrite first_some_None in Hnone.
    specialize (Hnone (length x)). simpl in Hnone.
    rewrite <- (assoc_L (++)) in Hnone.
    rewrite take_app_length, drop_app_length in Hnone.
    destruct (match_here p (concat m' ++ r)) as [?|] eqn:Hm2.
    + discriminate Hnone. apply elem_of_counts. split; [done|].
      apply cap_le. split; [|done]. by apply run_app.
    + by eapply IH.
  - intros Hnone Hm Hs. inversion Hm as [| |? ? a m' Hin Hm']; subst.
    simpl in Hnone. rewrite first_some_None in Hnone.
    specialize (Hnone a Hin). simpl in Hnone.
    rewrite <- (assoc_L (++)) in Hnone.
    rewrite startswith_app, drop_app_length in Hnone.
    destruct (match_here p (concat m' ++ r)) as [?|] eqn:Hm2; [done|].
    by eapply IH.
Qed.

(** [search_chars] returns the match at the leftmost position where the
    pattern can be read at all. *)
Lemma search_chars_Some p : forall s m,
  search_chars p s = Some m ->
  matches p m /\
  exists pre post, s = pre ++ concat m ++ post /\
    forall pre' rest m' r, s = pre' ++ rest -> (length pre' < length pre)%nat ->
      matches p m' -> rest <> concat m' ++ r.
Proof.
  induction s as [|a s IH]; intros m; simpl.
  - destruct (match_here p []) as [m0|] eqn:H0; [|done].
    intros [= ->]. destruct (match_here_sound _ _ _ H0) as [Hm [r Hr]].
    split; [done|]. exists [], r. split; [done|]. simpl. lia.
  - destruct (match_here p (a :: s)) as [m0|] eqn:H0.
    + intros [= ->]. destruct (match_here_sound _ _ _ H0) as [Hm [r Hr]].
      split; [done|]. exists [], r. split; [done|]. simpl. lia.
    + intros (Hm & pre & post & -> & Hleft)%IH. split; [done|].
      exists (a :: pre), post. split; [done|].
      intros [|b pre'] rest m' r Heq Hlen Hm'; simpl in *.
      * subst rest. by apply (match_here_complete p).
      * injection Heq as -> Heq. eapply Hleft; [done| lia | done].
Qed.

Lemma search_chars_None p : forall s,
  search_chars p s = None ->
  forall pre rest m r, s = pre ++ rest -> matches p m -> rest <> concat m ++ r.
Proof.
  induction s as [|a s IH]; simpl.
  - destruct (match_here p []) eqn:H0; [done|]. intros _ pre rest m r Heq.
    symmetry in Heq. apply app_eq_nil in Heq as [-> ->].
    by apply (match_here_complete p).
  - destruct (match_here p (a :: s)) eqn:H0; [done|].
    intros Hs [|b pre] rest m r Heq; simpl in *.
    + subst rest. by apply (match_here_complete p).
    + injection Heq as -> Heq. by eapply IH.
Qed.

End reFacts.

(** * The postcode extractor *)

Module PostcodeFacts.
Import re UKBusinessScraper StrFacts reFacts.

Lemma ignorecase_A_Z c : ignorecase A_Z c = letter c.
Proof. by destruct c as [[] [] [] [] [] [] [] []]. Qed.

Lemma ignorecase_alnum c : ignorecase (union A_Z digit) c = letter c || digit c.
Proof. by destruct c as [[] [] [] [] [] [] [] []]. Qed.

Lemma upper_letter c : letter c = true -> A_Z (Str.upper_char c) = true.
Proof. by destruct c as [[] [] [] [] [] [] [] []]. Qed.

Lemma upper_digit c : digit c = true -> Str.upper_char c = c.
Proof. by destruct c as [[] [] [] [] [] [] [] []]. Qed.

Lemma upper_space c : Str.isspace c = true -> Str.upper_char c = c.
Proof. by destruct c as [[] [] [] [] [] [] [] []]. Qed.

Lemma length_one {A} (x : list A) :
  (1 <= length x)%nat -> (length x <= 1)%nat -> exists a, x = [a].
Proof. destruct x as [|a [|??]]; simpl; try lia. by exists a. Qed.

Lemma Forall_class (c1 c2 : ascii -> bool) x :
  (forall a, c1 a = c2 a) ->
  Forall (fun a => c1 a = true) x <-> Forall (fun a => c2 a = true) x.
Proof. intros H. apply Forall_proper; [|done]. intros a. by rewrite H. Qed.

(** The pattern of the source and the grammar in words (any amount of
    white space, letters of either case) describe the same strings. *)
Lemma postcode_matches_shape m :
  matches postcode_pattern m -> postcode_shape false 0 (concat m).
Proof.
  unfold postcode_pattern, one, opt, star. intros H.
  inversion H as [|? ? ? ? area m1 Ha La Ua H1|]; subst; clear H.
  inversion H1 as [|? ? ? ? x1 m2 Hd1 L1 U1 H2|]; subst; clear H1.
  inversion H2 as [|? ? ? ? o m3 Ho Lo Uo H3|]; subst; clear H2.
  inversion H3 as [|? ? ? ? ws m4 Hws Lws Uws H4|]; subst; clear H3.
  inversion H4 as [|? ? ? ? x2 m5 Hd2 L2 U2 H5|]; subst; clear H4.
  inversion H5 as [|? ? ? ? un m6 Hun Lun Uun H6|]; subst; clear H5.
  inversion H6; subst; clear H6. simpl in *.
  destruct (length_one x1) as [d1 ->]; [done..|].
  destruct (length_one x2) as [d2 ->]; [done..|].
  rewrite Forall_singleton in Hd1, Hd2.
  apply (Forall_class _ _ _ ignorecase_A_Z) in Ha, Hun.
  apply (Forall_class _ _ _ ignorecase_alnum) in Ho.
  exists area, d1, o, ws, d2, un. rewrite app_nil_r.
  split_and!; try done; try lia.
Qed.

Lemma postcode_shape_matches s :
  postcode_shape false 0 s -> exists m, matches postcode_pattern m /\ concat m = s.
Proof.
  intros (area & d1 & o & ws & d2 & un & -> & La & Ha & Hd1 & Lo & Ho & _ & Hws
          & Hd2 & Lun & Hun).
  apply (Forall_class _ _ _ ignorecase_A_Z) in Ha, Hun.
  apply (Forall_class _ _ _ ignorecase_alnum) in Ho.
  exists [area; [d1]; o; ws; [d2]; un]. split; [|by simpl; rewrite app_nil_r].
  unfold postcode_pattern, one, opt, star.
  repeat (apply matches_rep || apply matches_nil);
    simpl; try done; try lia; by apply Forall_singleton.
Qed.

(** Upper-casing a postcode gives a postcode in capitals. *)
Lemma postcode_shape_upper gap s :
  postcode_shape false gap s -> postcode_shape true gap (Str.upper_char <$> s).
Proof.
  intros (area & d1 & o & ws & d2 & un & -> & La & Ha & Hd1 & Lo & Ho & Lws & Hws
          & Hd2 & Lun & Hun).
  exists (Str.upper_char <$> area), d1, (Str.upper_char <$> o), ws, d2,
         (Str.upper_char <$> un).
  assert (Str.upper_char <$> ws = ws) as Hwseq.
  { clear -Hws. induction Hws as [|c ws Hc _ IH]; [done|].
    by rewrite fmap_cons, IH, upper_space. }
  rewrite !fmap_app, !length_fmap, Hwseq. simpl.
  rewrite (upper_digit d1), (upper_digit d2) by done.
  split_and!; try done; try lia.
  - apply Forall_fmap. eapply Forall_impl; [exact Ha|]. apply upper_letter.
  - apply Forall_fmap. eapply Forall_impl; [exact Ho|]. simpl.
    intros c [Hc|Hc]%orb_true_iff.
    + by rewrite (upper_letter c).
    + rewrite (upper_digit c) by done. by rewrite Hc, orb_true_r.
  - apply Forall_fmap. eapply Forall_impl; [exact Hun|]. apply upper_letter.
Qed.

Lemma group_text m : group (Str.text <$> m) = Str.text (concat m).
Proof.
  unfold group. f_equal. f_equal. rewrite <- list_fmap_compose.
  rewrite <- (list_fmap_id m) at 2. apply list_fmap_ext.
  intros _ x _. apply chars_text.
Qed.

(** What [_extract_uk_postcode] returns, for any text. *)
Lemma extract_uk_postcode_cases text :
  (_extract_uk_postcode text = EmptyString /\
   forall n sub, occurs_at n sub (Str.chars text) -> ~ postcode_shape false 0 sub)
  \/
  (exists n sub,
     occurs_at n sub (Str.chars text) /\ postcode_shape false 0 sub /\
     (forall n' sub', occurs_at n' sub' (Str.chars text) ->
        postcode_shape false 0 sub' -> (n <= n')%nat) /\
     _extract_uk_postcode text = Str.upper (Str.text sub) /\
     postcode_shape true 0 (Str.chars (_extract_uk_postcode text))).
Proof.
  unfold _extract_uk_postcode, re.search.
  destruct (search_chars postcode_pattern (Str.chars text)) as [m|] eqn:Hs;
    cbn [fmap option_fmap option_map].
  - right. apply search_chars_Some in Hs as (Hm & pre & post & Heq & Hleft).
    exists (length pre), (concat m). split_and!.
    + by exists pre, post.
    + by apply postcode_matches_shape.
    + intros n' sub' (pre' & post' & Heq' & <-) (m' & Hm' & <-)%postcode_shape_matches.
      destruct (decide (length pre <= length pre')%nat); [done|].
      exfalso. eapply (Hleft pre' _ m' post'); [exact Heq' | lia | done | done].
    + by rewrite group_text.
    + rewrite group_text. unfold Str.upper. rewrite !chars_text.
      by apply postcode_shape_upper, postcode_matches_shape.
  - left. split; [done|].
    intros n sub (pre & post & Heq & _) (m' & Hm' & <-)%postcode_shape_matches.
    eapply (search_chars_None _ _ Hs pre _ m' post); done.
Qed.

Lemma extract_uk_postcode_shape text :
  _extract_uk_postcode text = EmptyString
  \/ postcode_shape true 0 (Str.chars (_extract_uk_postcode text)).
Proof.
  destruct (extract_uk_postcode_cases text) as [[-> _]|(n & sub & _ & _ & _ & _ & H)];
    [by left | by right].
Qed.

End PostcodeFacts.

(** * The postcode extractor beyond U+00FF *)

Module UnicodeFacts.
Import Unicode UnicodeShape reFacts.

Lemma u_run_le_length c s : (run c s <= length s)%nat.
Proof. induction s as [|a s IH]; simpl; [lia|]. destruct (c a); simpl; lia. Qed.

Lemma u_run_take c s n :
  (n <= run c s)%nat -> Forall (fun a => c a = true) (take n s) /\ length (take n s) = n.
Proof.
  revert n. induction s as [|a s IH]; intros n; simpl.
  - intros Hn. assert (n = 0%nat) as -> by lia. by split.
  - destruct n as [|n]; [by split|]. destruct (c a) eqn:Ha; [|lia].
    intros Hn. destruct (IH n) as [HF HL]; [lia|]. simpl. split; [|lia].
    by constructor.
Qed.

Lemma u_run_app c x r :
  Forall (fun a => c a = true) x -> (length x <= run c (x ++ r))%nat.
Proof.
  induction 1 as [|a x Ha _ IH]; simpl; [lia|]. rewrite Ha. lia.
Qed.

(** Soundness and completeness of the matcher, as for the first model. *)
Lemma u_match_here_sound p : forall s m,
  match_here p s = Some m -> matches p m /\ exists r, s = concat m ++ r.
Proof.
  induction p as [|[c lo hi] p IH]; intros s m; simpl.
  - intros [= <-]. split; [constructor | by exists s].
  - intros (l1 & n & l2 & Hl & Hf & _)%first_some_Some.
    assert (n ∈ re.counts lo hi (run c s)) as Hn
      by (rewrite Hl; apply elem_of_app; right; left).
    apply elem_of_counts in Hn as [Hlo [Hk Hhi]%cap_le].
    destruct (match_here p (drop n s)) as [m'|] eqn:Hm'; [|done].
    injection Hf as <-. destruct (IH _ _ Hm') as [Hm [r Hr]].
    destruct (u_run_take c s n Hk) as [HF HL]. split.
    + constructor; rewrite ?HL; done.
    + exists r. simpl. rewrite <- (assoc_L (++)), <- Hr. by rewrite take_drop.
Qed.

Lemma u_match_here_complete p : forall s m r,
  match_here p s = None -> matches p m -> s <> concat m ++ r.
Proof.
  induction p as [|[c lo hi] p IH]; intros s m r; simpl; [done|].
  intros Hnone Hm Hs. inversion Hm as [|? ? ? ? x m' HF Hlo Hhi Hm']; subst.
  simpl in Hnone. rewrite first_some_None in Hnone.
  specialize (Hnone (length x)). simpl in Hnone.
  rewrite <- (assoc_L (++)) in Hnone.
  rewrite take_app_length, drop_app_length in Hnone.
  destruct (match_here p (concat m' ++ r)) as [?|] eqn:Hm2.
  - discriminate Hnone. apply elem_of_counts. split; [done|].
    apply cap_le. split; [|done]. by apply u_run_app.
  - by eapply IH.
Qed.

Lemma u_search_chars_Some p : forall s m,
  search_chars p s = Some m ->
  matches p m /\
  exists pre post, s = pre ++ concat m ++ post /\
    forall pre' rest m' r, s = pre' ++ rest -> (length pre' < length pre)%nat ->
      matches p m' -> rest <> concat m' ++ r.
Proof.
  induction s as [|a s IH]; intros m; simpl.
  - destruct (match_here p []) as [m0|] eqn:H0; [|done].
    intros [= ->]. destruct (u_match_here_sound _ _ _ H0) as [Hm [r Hr]].
    split; [done|]. exists [], r. split; [done|]. simpl. lia.
  - destruct (match_here p (a :: s)) as [m0|] eqn:H0.
    + intros [= ->]. destruct (u_match_here_sound _ _ _ H0) as [Hm [r Hr]].
      split; [done|]. exists [], r. split; [done|]. simpl. lia.
    + intros (Hm & pre & post & -> & Hleft)%IH. split; [done|].
      exists (a :: pre), post. split; [done|].
      intros [|b pre'] rest m' r Heq Hlen Hm'; simpl in *.
      * subst rest. by apply (u_match_here_complete p).
      * injection Heq as -> Heq. eapply Hleft; [done| lia | done].
Qed.

Lemma u_search_chars_None p : forall s,
  search_chars p s = None ->
  forall pre rest m r, s = pre ++ rest -> matches p m -> rest <> concat m ++ r.
Proof.
  induction s as [|a s IH]; simpl.
  - destruct (match_here p []) eqn:H0; [done|]. intros _ pre rest m r Heq.
    symmetry in Heq. apply app_eq_nil in Heq as [-> ->].
    by apply (u_match_here_complete p).
  - destruct (match_here p (a :: s)) eqn:H0; [done|].
    intros Hs [|b pre] rest m r Heq; simpl in *.
    + subst rest. by apply (u_match_here_complete p).
    + injection Heq as -> Heq. by eapply IH.
Qed.

(** *** The classes and [upper] *)

(** A property of the code points up to U+017F is checked on each. *)
Lemma small_forall (Q : N -> bool) :
  forallb Q (N.of_nat <$> seq 0 384) = true ->
  forall c, (c <= 0x17F)%N -> Q c = true.
Proof.
  intros H c Hc. rewrite forallb_forall in H. apply H.
  apply list_elem_of_In, list_elem_of_fmap. exists (N.to_nat c).
  split; [lia|]. apply elem_of_seq. lia.
Qed.

Lemma upper_char_far c : (0x17F < c)%N -> upper_char c = c.
Proof.
  intros Hc. unfold upper_char.
  destruct (N.leb_spec c 0x7A); [lia|]. destruct (N.leb_spec c 0xFE); [lia|].
  rewrite !andb_false_r. cbn [orb andb].
  destruct (N.eqb_spec c 0x131); [lia|]. destruct (N.eqb_spec c 0x17F); [lia|].
  done.
Qed.

Lemma letter_small c : letter c = true -> (c <= 0x17F)%N \/ c = 0x212A%N.
Proof.
  unfold letter, in_ranges. cbn [existsb fst snd].
  rewrite !orb_true_iff, !andb_true_iff, !N.leb_le. lia.
Qed.

Lemma upper_letter_capital c : letter c = true -> capital (upper_char c) = true.
Proof.
  intros Hc. destruct (letter_small c Hc) as [Hs| ->]; [|done].
  revert Hc. apply (small_forall (fun c => implb (letter c) (capital (upper_char c))))
    in Hs; [|by vm_compute]. by destruct (letter c).
Qed.

Lemma upper_decimal c : isdecimal c = true -> upper_char c = c.
Proof.
  intros Hc. destruct (N.le_gt_cases c 0x17F) as [Hs|Hs]; [|by apply upper_char_far].
  revert Hc. apply (small_forall (fun c => implb (isdecimal c) (upper_char c =? c)%N))
    in Hs; [|by vm_compute]. destruct (isdecimal c); [|done].
  by intros _; apply N.eqb_eq.
Qed.

Lemma upper_isspace c : isspace c = true -> upper_char c = c.
Proof.
  intros Hc. destruct (N.le_gt_cases c 0x17F) as [Hs|Hs]; [|by apply upper_char_far].
  revert Hc. apply (small_forall (fun c => implb (isspace c) (upper_char c =? c)%N))
    in Hs; [|by vm_compute]. destruct (isspace c); [|done].
  by intros _; apply N.eqb_eq.
Qed.

Lemma u_length_one {A} (x : list A) :
  (1 <= length x)%nat -> (length x <= 1)%nat -> exists a, x = [a].
Proof. destruct x as [|a [|??]]; simpl; try lia. by exists a. Qed.

(** The pattern and the grammar in words describe the same strings. *)
Lemma u_postcode_matches_shape m :
  matches postcode_pattern m -> postcode_shape false (concat m).
Proof.
  unfold postcode_pattern. intros H.
  inversion H as [|? ? ? ? area m1 Ha La Ua H1]; subst; clear H.
  inversion H1 as [|? ? ? ? x1 m2 Hd1 L1 U1 H2]; subst; clear H1.
  inversion H2 as [|? ? ? ? o m3 Ho Lo Uo H3]; subst; clear H2.
  inversion H3 as [|? ? ? ? ws m4 Hws Lws Uws H4]; subst; clear H3.
  inversion H4 as [|? ? ? ? x2 m5 Hd2 L2 U2 H5]; subst; clear H4.
  inversion H5 as [|? ? ? ? un m6 Hun Lun Uun H6]; subst; clear H5.
  inversion H6; subst; clear H6. simpl in *.
  destruct (u_length_one x1) as [d1 ->]; [done..|].
  destruct (u_length_one x2) as [d2 ->]; [done..|].
  rewrite Forall_singleton in Hd1, Hd2.
  exists area, d1, o, ws, d2, un. rewrite app_nil_r.
  split_and!; try done; try lia.
Qed.

Lemma u_postcode_shape_matches s :
  postcode_shape false s -> exists m, matches postcode_pattern m /\ concat m = s.
Proof.
  intros (area & d1 & o & ws & d2 & un & -> & La & Ha & Hd1 & Lo & Ho & Hws
          & Hd2 & Lun & Hun).
  exists [area; [d1]; o; ws; [d2]; un]. split; [|by simpl; rewrite app_nil_r].
  unfold postcode_pattern.
  repeat (apply matches_rep || apply matches_nil);
    simpl; try done; try lia; by apply Forall_singleton.
Qed.

(** Upper-casing a postcode gives a postcode in capitals. *)
Lemma u_postcode_shape_upper s :
  postcode_shape false s -> postcode_shape true (upper_char <$> s).
Proof.
  intros (area & d1 & o & ws & d2 & un & -> & La & Ha & Hd1 & Lo & Ho & Hws
          & Hd2 & Lun & Hun).
  exists (upper_char <$> area), d1, (upper_char <$> o), ws, d2, (upper_char <$> un).
  assert (upper_char <$> ws = ws) as Hwseq.
  { clear -Hws. induction Hws as [|c ws Hc _ IH]; [done|].
    by rewrite fmap_cons, IH, upper_isspace. }
  rewrite !fmap_app, !length_fmap, Hwseq. simpl.
  rewrite (upper_decimal d1), (upper_decimal d2) by done.
  split_and!; try done; try lia.
  - apply Forall_fmap. eapply Forall_impl; [exact Ha|]. apply upper_letter_capital.
  - apply Forall_fmap. eapply Forall_impl; [exact Ho|]. simpl.
    intros c [Hc|Hc]%orb_true_iff.
    + by rewrite (upper_letter_capital c).
    + rewrite (upper_decimal c) by done. by rewrite Hc, orb_true_r.
  - apply Forall_fmap. eapply Forall_impl; [exact Hun|]. apply upper_letter_capital.
Qed.

(** What [_extract_uk_postcode] returns, for any text. *)
Lemma u_extract_uk_postcode_cases text :
  (_extract_uk_postcode text = [] /\
   forall n sub, occurs_at n sub text -> ~ postcode_shape false sub)
  \/
  (exists n sub,
     occurs_at n sub text /\ postcode_shape false sub /\
     (forall n' sub', occurs_at n' sub' text ->
        postcode_shape false sub' -> (n <= n')%nat) /\
     _extract_uk_postcode text = upper_char <$> sub /\
     postcode_shape true (_extract_uk_postcode text)).
Proof.
  unfold _extract_uk_postcode.
  destruct (search_chars postcode_pattern text) as [m|] eqn:Hs.
  - right. apply u_search_chars_Some in Hs as (Hm & pre & post & Heq & Hleft).
    exists (length pre), (concat m). split_and!.
    + by exists pre, post.
    + by apply u_postcode_matches_shape.
    + intros n' sub' (pre' & post' & Heq' & <-) (m' & Hm' & <-)%u_postcode_shape_matches.
      destruct (decide (length pre <= length pre')%nat); [done|].
      exfalso. eapply (Hleft pre' _ m' post'); [exact Heq' | lia | done | done].
    + done.
    + by apply u_postcode_shape_upper, u_postcode_matches_shape.
  - left. split; [done|].
    intros n sub (pre & post & Heq & _) (m' & Hm' & <-)%u_postcode_shape_matches.
    eapply (u_search_chars_None _ _ Hs pre _ m' post); done.
Qed.

(** *** Texts within U+00FF: the two models agree *)

Lemma letter_code a : letter (Str.code a) = re.ignorecase re.A_Z a.
Proof. by destruct a as [[] [] [] [] [] [] [] []]. Qed.

Lemma isdecimal_code a : isdecimal (Str.code a) = re.digit a.
Proof. by destruct a as [[] [] [] [] [] [] [] []]. Qed.

Lemma alnum_code a :
  alnum (Str.code a) = re.ignorecase (re.union re.A_Z re.digit) a.
Proof. by destruct a as [[] [] [] [] [] [] [] []]. Qed.

Lemma isspace_code a : isspace (Str.code a) = re.space a.
Proof. by destruct a as [[] [] [] [] [] [] [] []]. Qed.

Lemma upper_char_code a : upper_char (Str.code a) = Str.code (Str.upper_char a).
Proof. by destruct a as [[] [] [] [] [] [] [] []]. Qed.

Lemma first_some_map {A B C} (F : B -> C) (g : A -> option B) l :
  re.first_some (fun a => F <$> g a) l = F <$> re.first_some g l.
Proof. induction l as [|a l IH]; simpl; [done|]. by destruct (g a). Qed.

Lemma run_code c c' s :
  (forall a, c' (Str.code a) = c a) -> run c' (of_chars s) = re.run c s.
Proof.
  intros Hc. induction s as [|a s IH]; simpl; [done|]. rewrite Hc.
  destruct (c a); [f_equal; exact IH | done].
Qed.

(** A pattern of the first model and one over code points whose classes
    agree on the characters up to U+00FF find the same match. *)
Lemma match_here_code p q :
  Forall2 (fun i j =>
             match i, j with
             | re.Rep c lo hi, Rep c' lo' hi' =>
                 lo' = lo /\ hi' = hi /\ forall a, c' (Str.code a) = c a
             | re.Alt _, _ => False
             end) p q ->
  forall s : list ascii,
    match_here q (of_chars s)
    = (fun m : list (list ascii) => of_chars <$> m) <$> re.match_here p s.
Proof.
  induction 1 as [|[c lo hi|alts] [c' lo' hi'] p q Hi _ IH]; intros s;
    cbn [match_here re.match_here]; [done| |done].
  destruct Hi as (-> & -> & Hc).
  rewrite (run_code c c' s Hc), <- first_some_map. apply first_some_ext.
  intros n _. unfold of_chars at 1 2. rewrite <- fmap_take, <- fmap_drop.
  fold (of_chars (drop n s)). rewrite IH.
  by destruct (re.match_here p (drop n s)).
Qed.

Lemma search_chars_code p q :
  (forall s : list ascii,
     match_here q (of_chars s)
     = (fun m : list (list ascii) => of_chars <$> m) <$> re.match_here p s) ->
  forall s : list ascii,
    search_chars q (of_chars s)
    = (fun m : list (list ascii) => of_chars <$> m) <$> re.search_chars p s.
Proof.
  intros Hm. induction s as [|a s IH].
  - change (search_chars q (of_chars []))
      with (match match_here q (of_chars []) with
            | Some m => Some m
            | None => None
            end).
    rewrite Hm. cbn [re.search_chars]. by destruct (re.match_here p []).
  - change (search_chars q (of_chars (a :: s)))
      with (match match_here q (of_chars (a :: s)) with
            | Some m => Some m
            | None => search_chars q (of_chars s)
            end).
    rewrite Hm. cbn [re.search_chars].
    destruct (re.match_here p (a :: s)); [done | exact IH].
Qed.

Lemma postcode_patterns_agree :
  Forall2 (fun i j =>
             match i, j with
             | re.Rep c lo hi, Rep c' lo' hi' =>
                 lo' = lo /\ hi' = hi /\ forall a, c' (Str.code a) = c a
             | re.Alt _, _ => False
             end) UKBusinessScraper.postcode_pattern postcode_pattern.
Proof.
  unfold UKBusinessScraper.postcode_pattern, postcode_pattern, re.one, re.opt, re.star.
  repeat constructor; auto using letter_code, isdecimal_code, alnum_code, isspace_code.
Qed.

Lemma concat_of_chars (m : list (list ascii)) :
  concat (of_chars <$> m) = of_chars (concat m).
Proof.
  induction m as [|x m IH]; [done|].
  rewrite fmap_cons. cbn [concat]. rewrite IH. unfold of_chars. by rewrite fmap_app.
Qed.

(** On a text within U+00FF the extractor over code points returns what
    the extractor of the first model returns. *)
Lemma extract_uk_postcode_of_string t :
  _extract_uk_postcode (of_string t)
  = of_string (UKBusinessScraper._extract_uk_postcode t).
Proof.
  unfold _extract_uk_postcode, UKBusinessScraper._extract_uk_postcode, re.search,
    of_string.
  rewrite (search_chars_code _ _ (match_here_code _ _ postcode_patterns_agree)).
  destruct (re.search_chars UKBusinessScraper.postcode_pattern (Str.chars t))
    as [m|]; cbn [fmap option_fmap option_map]; [|done].
  rewrite PostcodeFacts.group_text, concat_of_chars. unfold Str.upper.
  rewrite !StrFacts.chars_text. unfold of_chars.
  rewrite <- !list_fmap_compose. apply list_fmap_ext.
  intros _ a _. apply upper_char_code.
Qed.

Lemma of_string_nil t : of_string t = [] -> t = EmptyString.
Proof.
  unfold of_string, of_chars. intros H%fmap_nil_inv.
  by rewrite <- (StrFacts.text_chars t), H.
Qed.

(** The postcode of a record an adapter built has the shape, in capitals. *)
Lemma built_record_postcode b :
  built_record b ->
  postcode b = EmptyString \/ postcode_shape true (of_string (postcode b)).
Proof.
  intros (_ & _ & [Hp|[raw Hp]]); [by left|]. rewrite Hp.
  rewrite <- extract_uk_postcode_of_string.
  destruct (u_extract_uk_postcode_cases (of_string raw))
    as [[Hnil _]|(_ & _ & _ & _ & _ & _ & Hshape)]; [|by right].
  left. apply of_string_nil. by rewrite <- extract_uk_postcode_of_string.
Qed.

End UnicodeFacts.

(** * The adapters *)

Module AdapterFacts.
Import UKBusinessScraper StrFacts.

#[local] Arguments _clean_text : simpl never.
#[local] Arguments _extract_uk_postcode : simpl never.
#[local] Arguments _extract_uk_phones : simpl never.
#[local] Arguments re.search : simpl never.
#[local] Arguments re.groups : simpl never.
#[local] Arguments Str.join : simpl never.
#[local] Arguments texts : simpl never.
#[local] Arguments select : simpl never.
#[local] Arguments select_one : simpl never.
#[local] Arguments select_one_or : simpl never.
#[local] Arguments attr : simpl never.
#[local] Arguments String.append : simpl never.


Lemma fetch_listings_empty primary fallback url w :
  empty_page primary fallback url w = true ->
  fetch_listings primary fallback url w = (Ok [], after_get url w).
Proof.
  unfold empty_page, fetch_listings, after_get, session_get. simpl.
  destruct (oracle w (requests w) (pauses w) url) as [e|code soup]; [done|].
  intros [Hc Hs]%andb_true_iff. unfold raise_for_status, select_or.
  apply negb_true_iff in Hc. rewrite Hc. simpl.
  destruct (select primary soup) as [[|??]|?]; try done. simpl.
  by destruct (select fallback soup) as [[|??]|?].
Qed.

(** Only one request is made by [fetch_listings]. *)
Lemma fetch_listings_world primary fallback url w :
  (fetch_listings primary fallback url w).2 = after_get url w.
Proof.
  unfold fetch_listings, after_get, session_get. simpl.
  by destruct (oracle w (requests w) (pauses w) url).
Qed.

Lemma parse_listings_snoc parse listings businesses :
  exists more, parse_listings parse listings businesses = businesses ++ more
    /\ Forall (fun b => Str.truthy (name b) = true
                        /\ exists listing, listing ∈ listings /\ parse listing = Ok b)
              more.
Proof.
  unfold parse_listings. revert businesses.
  induction listings as [|x listings IH]; intros businesses; simpl.
  - exists []. by rewrite app_nil_r.
  - destruct (parse x) as [b|e] eqn:Hp.
    + destruct (Str.truthy (name b)) eqn:Hn.
      * destruct (IH (businesses ++ [b])) as (more & -> & HF).
        exists (b :: more). rewrite <- (assoc_L (++)). split; [done|].
        constructor.
        -- split; [done|]. exists x. split; [left | done].
        -- eapply Forall_impl; [exact HF|]. simpl.
           intros b' [? (y & ? & ?)]. split; [done|]. exists y. split; [by right|done].
      * destruct (IH businesses) as (more & -> & HF). exists more. split; [done|].
        eapply Forall_impl; [exact HF|]. simpl.
        intros b' [? (y & ? & ?)]. split; [done|]. exists y. split; [by right|done].
    + destruct (IH businesses) as (more & -> & HF). exists more. split; [done|].
      eapply Forall_impl; [exact HF|]. simpl.
      intros b' [? (y & ? & ?)]. split; [done|]. exists y. split; [by right|done].
Qed.

(** A property every parsed record with a name has passes to the list. *)
Lemma parse_listings_Forall (P : UKBusiness -> Prop) parse listings businesses :
  (forall listing b, parse listing = Ok b -> Str.truthy (name b) = true -> P b) ->
  Forall P businesses -> Forall P (parse_listings parse listings businesses).
Proof.
  intros Hparse Hacc.
  destruct (parse_listings_snoc parse listings businesses) as (more & -> & HF).
  apply Forall_app. split; [done|].
  eapply Forall_impl; [exact HF|]. simpl. intros b [Hn (y & _ & Hy)]. eauto.
Qed.

(** Case analysis over the selector look-ups of a listing parser. *)
Ltac lookups H :=
  repeat
    (match type of H with
     | context [select_one_or ?a ?b ?l] =>
         destruct (select_one_or a b l) as [[?|]|?]
     | context [select_one ?a ?l] => destruct (select_one a l) as [[?|]|?]
     | context [select ?a ?l] => destruct (select a l) as [[|??]|?]
     | context [re.search ?p ?t] => destruct (re.search p t) as [?|]
     | context [_extract_uk_phones ?t] => destruct (_extract_uk_phones t) as [|??]
     end; simpl in H; try discriminate H).

Ltac built_record_tac H Hn :=
  simpl in H; lookups H; injection H as <-; simpl in Hn |- *;
  try discriminate Hn;
  (split_and!;
   [ by apply truthy_iff
   | by eexists
   | first [ by left | right; by eexists ] ]).

Lemma yell_listing_built now listing b :
  yell_listing now listing = Ok b -> Str.truthy (name b) = true -> built_record b.
Proof. unfold yell_listing, built_record. intros H Hn. built_record_tac H Hn. Qed.

Lemma freeindex_listing_built now listing b :
  freeindex_listing now listing = Ok b -> Str.truthy (name b) = true -> built_record b.
Proof. unfold freeindex_listing, built_record. intros H Hn. built_record_tac H Hn. Qed.

Lemma thomson_listing_built now listing b :
  thomson_listing now listing = Ok b -> Str.truthy (name b) = true -> built_record b.
Proof. unfold thomson_listing, built_record. intros H Hn. built_record_tac H Hn. Qed.

Lemma yelp_listing_built now listing b :
  yelp_listing now listing = Ok b -> Str.truthy (name b) = true -> built_record b.
Proof. unfold yelp_listing, built_record. intros H Hn. built_record_tac H Hn. Qed.

Lemma google_result_built now result b :
  google_result now result = Ok b -> Str.truthy (name b) = true -> built_record b.
Proof. unfold google_result, built_record. intros H Hn. built_record_tac H Hn. Qed.

(** *** The page loops *)







Ltac stop_empty :=
  intros page rest businesses w H; cbn -[fetch_listings];
  match goal with
  | |- context [fetch_listings ?a ?b ?u ?w0] =>
      by rewrite (fetch_listings_empty a b u w0 H)
  end.

Lemma yell_stops_on_empty_page q l :
  stops_on_empty_page ".businessCapsule" (attr "data-testid" "business-card")
    (yell_url q l) (yell_loop q l).
Proof. stop_empty. Qed.

Lemma freeindex_stops_on_empty_page q l :
  stops_on_empty_page ".listing" ".search-result-item"
    (freeindex_url q l) (freeindex_loop q l).
Proof. stop_empty. Qed.

Lemma thomson_stops_on_empty_page q l :
  stops_on_empty_page ".listing-item" ".search-result"
    (thomson_url q l) (thomson_loop q l).
Proof. stop_empty. Qed.

(** Induction over the pages of a loop, for the loops that test for an
    empty page and for the one that does not. *)
Ltac loop_cases IH :=
  match goal with
  | |- context [fetch_listings ?a ?b ?u ?w] =>
      destruct (fetch_listings a b u w) as [[listings|e] w1];
      [ try (destruct listings as [|listing listings]);
        cbn -[parse_listings]
      | destruct (is_RequestException e) eqn:He; cbn ]
  end.













(** Every record a loop returns was built by the adapter's parser. *)
Ltac built parser_built :=
  intros pages; induction pages as [|page pages IH]; intros businesses w r Hacc;
  cbn -[fetch_listings parse_listings]; [by intros [= <-]|];
  loop_cases IH; try done; try (by intros [= <-]);
  apply IH;
  (apply (parse_listings_Forall built_record);
   [intros ? ?; apply parser_built | done]).

Lemma yell_loop_built q l : forall pages businesses w r,
  Forall built_record businesses ->
  (yell_loop q l pages businesses w).1 = Ok r -> Forall built_record r.
Proof. built yell_listing_built. Qed.

Lemma freeindex_loop_built q l : forall pages businesses w r,
  Forall built_record businesses ->
  (freeindex_loop q l pages businesses w).1 = Ok r -> Forall built_record r.
Proof. built freeindex_listing_built. Qed.

Lemma thomson_loop_built q l : forall pages businesses w r,
  Forall built_record businesses ->
  (thomson_loop q l pages businesses w).1 = Ok r -> Forall built_record r.
Proof. built thomson_listing_built. Qed.

Lemma yelp_loop_built q l : forall pages businesses w r,
  Forall built_record businesses ->
  (yelp_loop q l pages businesses w).1 = Ok r -> Forall built_record r.
Proof. built yelp_listing_built. Qed.

Lemma google_built q l n w r :
  (scrape_google_maps q l n w).1 = Ok r -> Forall built_record r.
Proof.
  unfold scrape_google_maps.
  destruct (fetch_listings _ _ _ w) as [[listings|e1] w1].
  - intros [= <-]. apply (parse_listings_Forall built_record); [|done].
    intros ? ?. apply google_result_built.
  - destruct (is_RequestException e1); [by intros [= <-] | done].
Qed.

End AdapterFacts.

(** * The orchestrator *)

Module SearchFacts.
Import UKBusinessScraper StrFacts AdapterFacts.

Lemma source_methods_lookup q l n s m :
  source_methods q l n !! s = Some m ->
  m = scrape_yell q l n \/ m = scrape_google_maps q l (n * 10)
  \/ m = scrape_thomson_local q l n \/ m = scrape_freeindex q l n
  \/ m = scrape_yelp_uk q l n.
Proof.
  unfold source_methods. cbn [list_to_map foldr uncurry fst snd].
  intros H.
  repeat (apply lookup_insert_Some in H as [[_ <-]|[_ H]]; [tauto|]).
  by rewrite lookup_empty in H.
Qed.

Lemma source_methods_unknown q l n s :
  s ∉ known_sources -> source_methods q l n !! s = None.
Proof.
  unfold source_methods, known_sources. cbn [list_to_map foldr uncurry fst snd].
  intros Hs.
  repeat (rewrite lookup_insert_ne; [|intros <-; apply Hs; repeat constructor]).
  apply lookup_empty.
Qed.

Lemma method_built q l n s m w r :
  source_methods q l n !! s = Some m -> (m w).1 = Ok r -> Forall built_record r.
Proof.
  intros [->|[->|[->|[->| ->]]]]%source_methods_lookup.
  - by apply yell_loop_built.
  - apply google_built.
  - by apply thomson_loop_built.
  - by apply freeindex_loop_built.
  - by apply yelp_loop_built.
Qed.

Lemma run_sources_app methods s1 s2 : forall acc w,
  run_sources methods (s1 ++ s2) acc w =
  run_sources methods s2 (run_sources methods s1 acc w).1
                         (run_sources methods s1 acc w).2.
Proof.
  induction s1 as [|s s1 IH]; intros acc w; simpl; [done|].
  destruct (methods !! s) as [m|]; [|apply IH].
  destruct (m w) as [[r|e] w1]; apply IH.
Qed.


(** A record built by an adapter keeps a non-empty name when the name is
    lower-cased and stripped. *)
Lemma built_record_name_lower b :
  built_record b -> Str.truthy (name_lower b) = true.
Proof.
  intros (Hne & (raw & Hraw) & _). unfold name_lower.
  apply strip_lower_truthy. rewrite Hraw in Hne |- *. revert Hne.
  unfold _clean_text. destruct (negb (Str.truthy raw)); [done|].
  intros Hne. by apply strip_truthy_ink, truthy_iff.
Qed.

Lemma name_lower_truthy_name b :
  Str.truthy (name_lower b) = true -> name b <> EmptyString.
Proof. intros H Hn. unfold name_lower in H. by rewrite Hn in H. Qed.

Lemma seen_snoc (before : list UKBusiness) b seen :
  seen = list_to_set (name_lower <$> before) ->
  ({[name_lower b]} ∪ seen : gset string)
  = list_to_set (name_lower <$> before ++ [b]).
Proof.
  intros ->. apply set_eq. intros x.
  rewrite fmap_app, elem_of_union, !elem_of_list_to_set, elem_of_app.
  rewrite elem_of_singleton. simpl. rewrite list_elem_of_singleton. tauto.
Qed.

(** The loop of the source computes the first occurrences, provided
    every normalized name is non-empty. *)
Lemma deduplicate_first_occurrences all : forall before seen unique,
  Forall (fun b => Str.truthy (name_lower b) = true) all ->
  seen = list_to_set (name_lower <$> before) ->
  deduplicate all seen unique = unique ++ first_occurrences before all.
Proof.
  induction all as [|b all IH]; intros before seen unique Hall ->; simpl.
  - by rewrite app_nil_r.
  - apply Forall_cons in Hall as [Hb Hall]. rewrite Hb. simpl.
    destruct (decide (name_lower b ∈ name_lower <$> before)) as [Hin|Hin].
    + rewrite bool_decide_eq_false_2 by (by rewrite elem_of_list_to_set; intros []).
      rewrite (bool_decide_eq_true_2 _ Hin). simpl.
      apply IH; [done|]. rewrite <- (seen_snoc before b _ eq_refl).
      apply set_eq. intros x. rewrite elem_of_union, elem_of_singleton.
      rewrite elem_of_list_to_set. split; [tauto|]. by intros [->|?].
    + rewrite bool_decide_eq_true_2 by (by rewrite elem_of_list_to_set).
      rewrite (bool_decide_eq_false_2 _ Hin). simpl.
      rewrite (IH (before ++ [b]) _ (unique ++ [b]));
        [by rewrite <- (assoc_L (++)) | done | by apply seen_snoc].
Qed.

(** Whatever the names, the loop only ever keeps records of its input,
    in their order, with a non-empty normalized name. *)
Lemma deduplicate_sublist all : forall seen unique,
  exists kept, deduplicate all seen unique = unique ++ kept
               /\ sublist kept all
               /\ Forall (fun b => Str.truthy (name_lower b) = true) kept.
Proof.
  induction all as [|b all IH]; intros seen unique; simpl.
  - exists []. by rewrite app_nil_r.
  - destruct (Str.truthy (name_lower b) && _) eqn:Hc.
    + destruct (IH ({[name_lower b]} ∪ seen) (unique ++ [b])) as (kept & -> & Hs & HF).
      exists (b :: kept). rewrite <- (assoc_L (++)). split_and!; [done| |].
      * by constructor.
      * apply andb_true_iff in Hc as [Hc _]. by constructor.
    + destruct (IH seen unique) as (kept & -> & Hs & HF).
      exists kept. split_and!; [done| |done]. by constructor.
Qed.


Lemma first_occurrences_sublist before l : sublist (first_occurrences before l) l.
Proof.
  revert before. induction l as [|b l IH]; intros before; simpl; [done|].
  destruct (bool_decide _); simpl; by constructor.
Qed.

Lemma first_occurrences_fresh before l b :
  b ∈ first_occurrences before l -> name_lower b ∉ name_lower <$> before.
Proof.
  revert before. induction l as [|x l IH]; intros before; simpl.
  - by intros ?%elem_of_nil.
  - intros [Hin|Hin]%elem_of_app.
    + destruct (bool_decide _) eqn:Hd; [by apply elem_of_nil in Hin|].
      apply list_elem_of_singleton in Hin as ->. by apply bool_decide_eq_false in Hd.
    + apply IH in Hin. rewrite fmap_app in Hin. intros ?. apply Hin.
      apply elem_of_app. by left.
Qed.

Lemma first_occurrences_NoDup before l :
  NoDup (name_lower <$> first_occurrences before l).
Proof.
  revert before. induction l as [|x l IH]; intros before; simpl; [constructor|].
  destruct (bool_decide _) eqn:Hd; simpl; [apply IH|].
  constructor; [|apply IH].
  intros (y & Hy & Hin%first_occurrences_fresh)%list_elem_of_fmap.
  apply Hin. rewrite fmap_app. simpl. rewrite Hy. apply elem_of_app.
  right. left.
Qed.

End SearchFacts.

(** * The e-mail extractor *)

Module EmailFacts.
Import re UKBusinessScraper StrFacts reFacts.

Lemma startswith_spec x s :
  Str.startswith_chars x s = true <-> exists post, s = x ++ post.
Proof.
  revert s. induction x as [|a x IH]; intros s; simpl.
  - split; [by exists s | done].
  - destruct s as [|b s]; simpl.
    + split; [done | by intros [? ?]].
    + rewrite andb_true_iff, bool_decide_eq_true, IH. split.
      * intros [-> [post ->]]. by exists post.
      * intros [post [= -> ->]]. split; [done | by exists post].
Qed.

(** [x in s] holds exactly when [x] is a contiguous part of [s]. *)
Lemma contains_spec x s :
  Str.contains_chars x s = true <-> exists pre post, s = pre ++ x ++ post.
Proof.
  induction s as [|b s IH]; simpl.
  - rewrite orb_false_r, startswith_spec. split.
    + intros [post ->]. by exists [], post.
    + intros (pre & post & H). symmetry in H.
      apply app_eq_nil in H as [-> H]. by exists post.
  - rewrite orb_true_iff, startswith_spec, IH. split.
    + intros [[post ->]|(pre & post & ->)]; [by exists [], post|].
      by exists (b :: pre), post.
    + intros ([|c pre] & post & H); simpl in H.
      * left. by exists post.
      * injection H as -> ->. right. by exists pre, post.
Qed.

(** Every string [findall] returns is a reading of the pattern that
    occurs in the text. *)
Lemma findall_go_sound p : forall s k x,
  x ∈ findall_go p k s ->
  exists m, matches p m /\ x = concat m /\ exists pre post, s = pre ++ x ++ post.
Proof.
  induction s as [|a s IH]; intros k x; simpl; [by intros ?%elem_of_nil|].
  assert (forall k', x ∈ findall_go p k' s ->
            exists m, matches p m /\ x = concat m
                      /\ exists pre post, a :: s = pre ++ x ++ post) as Hrec.
  { intros k' (m & Hm & -> & pre & post & ->)%IH. exists m. split_and!; [done..|].
    by exists (a :: pre), post. }
  destruct k as [|k]; [|apply Hrec].
  destruct (match_here p (a :: s)) as [m|] eqn:Hm; [|apply Hrec].
  intros [->|Hin]%elem_of_cons; [|by eapply Hrec].
  destruct (match_here_sound _ _ _ Hm) as [Hmm [r Hr]].
  exists m. split_and!; [done..|]. by exists [], r.
Qed.

Lemma run_sep c s sep t : c sep = false -> run c (s ++ sep :: t) = run c s.
Proof.
  intros Hc. induction s as [|a s IH]; simpl; [by rewrite Hc|].
  by rewrite IH.
Qed.

Lemma startswith_sep a s sep t :
  sep ∉ a -> Str.startswith_chars a (s ++ sep :: t) = Str.startswith_chars a s.
Proof.
  revert s. induction a as [|x a IH]; intros s Hsep; simpl; [done|].
  destruct s as [|y s]; simpl.
  - apply andb_false_iff. left. apply bool_decide_eq_false. intros ->.
    apply Hsep. left.
  - rewrite IH; [done|]. intros ?. apply Hsep. by right.
Qed.

Lemma startswith_length a s :
  Str.startswith_chars a s = true -> (length a <= length s)%nat.
Proof. intros [post ->]%startswith_spec. rewrite length_app. lia. Qed.

(** A character no item can consume ends every attempt like the end of
    the text does. *)
Lemma match_here_sep sep t p : forall s,
  rejects sep p = true -> match_here p (s ++ sep :: t) = match_here p s.
Proof.
  induction p as [|[c lo hi|alts] p IH]; intros s; simpl; [done|..].
  - intros [Hc%negb_true_iff Hp]%andb_true_iff. rewrite (run_sep _ _ _ _ Hc).
    apply first_some_ext. intros n [_ [Hn _]%cap_le]%elem_of_counts.
    pose proof (run_le_length c s).
    rewrite take_app_le, drop_app_le by lia. by rewrite IH.
  - intros [Ha Hp]%andb_true_iff. apply first_some_ext. intros a Hin.
    rewrite forallb_forall in Ha. specialize (Ha a).
    rewrite <- list_elem_of_In, negb_true_iff, bool_decide_eq_false in Ha.
    rewrite startswith_sep by auto.
    destruct (Str.startswith_chars a s) eqn:Hpre; [|done].
    apply startswith_length in Hpre. rewrite drop_app_le by lia. by rewrite IH.
Qed.

Lemma match_here_length p s m :
  match_here p s = Some m -> (length (concat m) <= length s)%nat.
Proof.
  intros [_ [r ->]]%match_here_sound. rewrite length_app. lia.
Qed.

(** Scanning two texts joined by such a character finds the matches of
    the first followed by the matches of the second. *)
Lemma findall_go_sep sep t p :
  rejects sep p = true -> match_here p [] = None ->
  forall s k, (k <= length s)%nat ->
    findall_go p k (s ++ sep :: t) = findall_go p k s ++ findall_go p 0 t.
Proof.
  intros Hrej Hnil. induction s as [|a s IH]; intros k Hk.
  - simpl in Hk. assert (k = 0%nat) as -> by lia. cbn [app findall_go].
    pose proof (match_here_sep sep t p [] Hrej) as H0. cbn [app] in H0.
    by rewrite H0, Hnil.
  - cbn [app findall_go]. destruct k as [|k]; [|apply IH; simpl in Hk; lia].
    pose proof (match_here_sep sep t p (a :: s) Hrej) as H0. cbn [app] in H0.
    rewrite H0.
    destruct (match_here p (a :: s)) as [m|] eqn:Hm.
    + apply match_here_length in Hm. simpl in Hm.
      cbn [app]. f_equal. apply IH. lia.
    + apply IH. lia.
Qed.

Lemma findall_sep p t1 t2 :
  rejects " " p = true -> match_here p [] = None ->
  findall p (t1 +:+ " " +:+ t2) = findall p t1 ++ findall p t2.
Proof.
  intros Hrej Hnil. unfold findall. rewrite !chars_app. simpl.
  rewrite (findall_go_sep _ _ _ Hrej Hnil) by lia. by rewrite fmap_app.
Qed.

Lemma email_matches_shape m : matches email_pattern m -> email_shape (concat m).
Proof.
  unfold email_pattern, one, plus. intros H.
  inversion H as [|? ? ? ? loc m1 Hloc Lloc _ H1|]; subst; clear H.
  inversion H1 as [|? ? ? ? x1 m2 Hat L1 U1 H2|]; subst; clear H1.
  inversion H2 as [|? ? ? ? host m3 Hhost Lhost _ H3|]; subst; clear H2.
  inversion H3 as [|? ? ? ? x2 m4 Hdot L2 U2 H4|]; subst; clear H3.
  inversion H4 as [|? ? ? ? tld m5 Htld Ltld _ H5|]; subst; clear H4.
  inversion H5; subst; clear H5. simpl in *.
  destruct (PostcodeFacts.length_one x1) as [c1 ->]; [done..|].
  destruct (PostcodeFacts.length_one x2) as [c2 ->]; [done..|].
  rewrite Forall_singleton in Hat, Hdot. unfold lit in Hat, Hdot.
  apply bool_decide_eq_true in Hat as ->, Hdot as ->.
  exists loc, host, tld. rewrite app_nil_r. split_and!; try done.
  - intros ->. simpl in Lloc. lia.
  - intros ->. simpl in Lhost. lia.
Qed.

Lemma elem_of_list_set x l : x ∈ list_set l <-> x ∈ l.
Proof. unfold list_set. by rewrite elem_of_elements, elem_of_list_to_set. Qed.

Lemma NoDup_list_set l : NoDup (list_set l).
Proof. unfold list_set. apply NoDup_elements. Qed.

Lemma elem_of_extract_emails text e :
  e ∈ _extract_emails text <-> e ∈ findall email_pattern text /\ noisy e = false.
Proof.
  unfold _extract_emails. rewrite elem_of_list_set, list_elem_of_filter.
  unfold noisy. tauto.
Qed.

Lemma extract_emails_join t1 t2 e :
  e ∈ _extract_emails (t1 +:+ " " +:+ t2)
  <-> e ∈ _extract_emails t1 \/ e ∈ _extract_emails t2.
Proof.
  rewrite !elem_of_extract_emails, findall_sep by done.
  rewrite elem_of_app. tauto.
Qed.

End EmailFacts.

(** * The request boundary *)

Module HandlerFacts.
Import UKBusinessScraper handler.

Lemma payload_Ok req n data :
  payload req n = Ok data <-> rfile_read req n = Ok (Ok data).
Proof.
  unfold payload. destruct (rfile_read req n) as [[?|?]|?]; split; congruence.
Qed.

(** What [read] raises leaves [do_POST] like what [int] raises. *)
Lemma do_POST_read_raises req w n e :
  int (header "Content-Length" req) = Ok n ->
  rfile_read req n = Raise e ->
  do_POST req w = (Propagated e, w).
Proof. intros Hn He. unfold do_POST. by rewrite Hn, He. Qed.

(** Once the body has been read, every exception ends in a reply: nothing
    propagates out of [do_POST]. *)
Lemma do_POST_replies_after_read req w n post_data :
  int (header "Content-Length" req) = Ok n ->
  rfile_read req n = Ok post_data ->
  forall e, (do_POST req w).1 <> Propagated e.
Proof.
  intros Hn Hr e. unfold do_POST. rewrite Hn, Hr.
  destruct (try_block post_data w) as [[[??]|]|?]; discriminate.
Qed.

(** An exception inside the [try] block is answered with status 500 and
    its message. *)
Lemma do_POST_500 req w n post_data e :
  int (header "Content-Length" req) = Ok n ->
  rfile_read req n = Ok post_data ->
  try_block post_data w = Raise e ->
  do_POST req w = (Responded (error_reply 500 (exn_str e)), w).
Proof. intros Hn Hr He. unfold do_POST. by rewrite Hn, Hr, He. Qed.

Lemma min_5_int k : min_5 (JInt k) = Ok (JInt (Z.min k 5)).
Proof.
  unfold min_5. destruct (Z.ltb_spec 5 k).
  - by rewrite Z.min_r by lia.
  - by rewrite Z.min_l by lia.
Qed.

Lemma do_POST_typed req w content_length fields q l sources supplied :
  int (header "Content-Length" req) = Ok content_length ->
  payload req content_length = Ok (JObj fields) ->
  assoc "query" fields = Some (JStr q) -> q <> EmptyString ->
  assoc "location" fields = Some (JStr l) -> l <> EmptyString ->
  as_sources (from_option id (JArr [JStr "yell"; JStr "freeindex"])
                (assoc "sources" fields)) = Some sources ->
  assoc "max_pages" fields = JInt <$> supplied ->
  do_POST req w =
    (Responded
       (ok_reply (search q l sources (Z.min (default 2 supplied) 5) w).1
          (JStr q) (JStr l)
          (from_option id (JArr [JStr "yell"; JStr "freeindex"])
             (assoc "sources" fields))),
     (search q l sources (Z.min (default 2 supplied) 5) w).2).
Proof.
  intros Hn Hp%payload_Ok Hq Hqne Hl Hlne Hs Hm. unfold do_POST, try_block.
  rewrite Hn, Hp. cbn [mbind res_bind json_get]. rewrite Hq, Hl, Hm.
  cbn [from_option id].
  assert (min_5 (from_option id (JInt 2) (JInt <$> supplied))
          = Ok (JInt (Z.min (default 2 supplied) 5))) as ->.
  { destruct supplied as [k|]; simpl; [apply min_5_int | done]. }
  cbn [json_truthy as_str as_int].
  apply StrFacts.truthy_iff in Hqne as ->, Hlne as ->. cbn [negb orb].
  rewrite Hs. cbn [mbind res_bind as_int mret res_ret].
  by destruct (search q l sources (Z.min (default 2 supplied) 5) w).
Qed.

End HandlerFacts.

(** * The claims *)

Import UKBusinessScraper.

Lemma search_fst query location sources max_pages w :
  (search query location sources max_pages w).1
  = deduplicate (accumulated query location sources max_pages w) ∅ [].
Proof.
  unfold search, accumulated.
  by destruct (run_sources _ (default ["yell"; "freeindex"] sources) [] w).
Qed.

Lemma search_snd query location sources max_pages w :
  (search query location sources max_pages w).2
  = (run_sources (source_methods query location max_pages)
       (default ["yell"; "freeindex"] sources) [] w).2.
Proof.
  unfold search.
  by destruct (run_sources _ (default ["yell"; "freeindex"] sources) [] w).
Qed.

Lemma run_source_Some query location max_pages s w r :
  run_source query location max_pages s w = Some r ->
  exists method, source_methods query location max_pages !! s = Some method
                 /\ method w = r.
Proof.
  unfold run_source.
  destruct (source_methods query location max_pages !! s) as [m|]; [|done].
  intros [= <-]. by exists m.
Qed.



(** What [search] does with two listed sources, given what each returns. *)
Lemma search_two query location max_pages s1 s2 x1 x2 w w1 w2 :
  run_source query location max_pages s1 w = Some (x1, w1) ->
  run_source query location max_pages s2 w1 = Some (x2, w2) ->
  search query location (Some [s1; s2]) max_pages w
  = (deduplicate (match x1 with Ok r => r | Raise _ => [] end
                  ++ match x2 with Ok r => r | Raise _ => [] end) ∅ [], w2).
Proof.
  intros (m1 & Hm1 & H1)%run_source_Some (m2 & Hm2 & H2)%run_source_Some.
  unfold search. simpl. rewrite Hm1, H1.
  destruct x1 as [r1|e1]; simpl; rewrite Hm2, H2;
    destruct x2 as [r2|e2]; simpl; by rewrite ?app_nil_r.
Qed.

Lemma run_source_built query location max_pages s w r w1 :
  run_source query location max_pages s w = Some (Ok r, w1) ->
  Forall built_record r.
Proof.
  intros (m & Hm & H)%run_source_Some.
  eapply SearchFacts.method_built; [exact Hm|]. by rewrite H.
Qed.



(** C2: an exception raised by the adapter of a selected source is
    swallowed by [search], which goes on with the remaining sources from the
    world the failed call left; wherever the failing source stands in the
    list, the records of the others are kept.  If one adapter raises and
    another returns two records with different normalized names, [search]
    returns exactly those two records, in either order of the sources. *)
Theorem failing_source_is_swallowed query location max_pages :
  (forall s rest w e w1,
     run_source query location max_pages s w = Some (Raise e, w1) ->
     search query location (Some (s :: rest)) max_pages w
     = search query location (Some rest) max_pages w1)
  /\ (forall before s after all_businesses w e w1,
        let methods := source_methods query location max_pages in
        run_source query location max_pages s
          (run_sources methods before all_businesses w).2 = Some (Raise e, w1) ->
        run_sources methods (before ++ s :: after) all_businesses w
        = run_sources methods after
            (run_sources methods before all_businesses w).1 w1)
  /\ (forall a b e r1 r2 w w1 w2,
        run_source query location max_pages a w = Some (Raise e, w1) ->
        run_source query location max_pages b w1 = Some (Ok [r1; r2], w2) ->
        name_lower r1 <> name_lower r2 ->
        search query location (Some [a; b]) max_pages w = ([r1; r2], w2))
  /\ (forall a b e r1 r2 w w1 w2,
        run_source query location max_pages b w = Some (Ok [r1; r2], w1) ->
        run_source query location max_pages a w1 = Some (Raise e, w2) ->
        name_lower r1 <> name_lower r2 ->
        search query location (Some [b; a]) max_pages w = ([r1; r2], w2)).
Proof.
  assert (forall r1 r2, Forall built_record [r1; r2] ->
            name_lower r1 <> name_lower r2 ->
            deduplicate [r1; r2] ∅ [] = [r1; r2]) as Hpair.
  { intros r1 r2 Hb Hne.
    rewrite (SearchFacts.deduplicate_first_occurrences _ [] ∅ []); [|  |done].
    - cbn [first_occurrences app fmap list_fmap].
      rewrite (bool_decide_eq_false_2 (name_lower r1 ∈ [])) by apply not_elem_of_nil.
      rewrite (bool_decide_eq_false_2 (name_lower r2 ∈ [name_lower r1])); [done|].
      intros Heq%list_elem_of_singleton. congruence.
    - eapply Forall_impl; [exact Hb|]. apply SearchFacts.built_record_name_lower. }
  split_and!.
  - intros s rest w e w1 (m & Hm & H)%run_source_Some.
    unfold search. simpl. by rewrite Hm, H.
  - intros before s after all_businesses w e w1 methods
      (m & Hm & H)%run_source_Some.
    rewrite SearchFacts.run_sources_app. simpl. subst methods. by rewrite Hm, H.
  - intros a b e r1 r2 w w1 w2 Ha Hb Hne.
    rewrite (search_two _ _ _ _ _ _ _ _ _ _ Ha Hb). simpl. f_equal.
    apply Hpair; [|done]. by eapply run_source_built.
  - intros a b e r1 r2 w w1 w2 Hb Ha Hne.
    rewrite (search_two _ _ _ _ _ _ _ _ _ _ Hb Ha). simpl. f_equal.
    apply Hpair; [|done]. by eapply run_source_built.
Qed.

Lemma failing_source_is_swallowed_witness :
  exists e w1 r1 r2 w2,
    run_source "plumbers" "Leeds" 1 "yell" Examples.yell_down = Some (Raise e, w1)
    /\ search "plumbers" "Leeds" (Some ["yell"; "thomson"]) 1 Examples.yell_down
       = ([r1; r2], w2)
    /\ name r1 = "Aire Plumbing" /\ name r2 = "Briggate Boilers".
Proof.
  eexists _, _, _, _, _. split; [vm_compute; reflexivity|]. split.
  - eapply (proj1 (proj2 (proj2
             (failing_source_is_swallowed "plumbers" "Leeds" 1)))).
    + vm_compute. reflexivity.
    + vm_compute. reflexivity.
    + vm_compute. discriminate.
  - vm_compute. split; reflexivity.
Defined.




(** C4 (as the code has it): the Yelp adapter does not stop at a page without
    listings.  In the world [Examples.gap], where the page at offset 0 is
    fetched successfully and has no listing container for either selector,
    [scrape_yelp_uk] goes on to fetch offset 10 and returns the business
    found there; so the Yelp loop is not one that stops on an empty page,
    which the Yell loop is in the same world. *)
Theorem yelp_fetches_after_empty_page :
  empty_page (attr "data-testid" "serp-ia-card") ".container__09f24__FeTO6"
    (yelp_url "cafe" "Leeds" 0) Examples.gap = true
  /\ requests (scrape_yelp_uk "cafe" "Leeds" 2 Examples.gap).2
     = [yelp_url "cafe" "Leeds" 1; yelp_url "cafe" "Leeds" 0]
  /\ (name <$> from_option id []
        match (scrape_yelp_uk "cafe" "Leeds" 2 Examples.gap).1 with
        | Ok r => Some r | Raise _ => None end) = ["Late Cafe"]
  /\ ~ stops_on_empty_page (attr "data-testid" "serp-ia-card")
         ".container__09f24__FeTO6" (yelp_url "cafe" "Leeds")
         (yelp_loop "cafe" "Leeds")
  /\ requests (scrape_yell "cafe" "Leeds" 2 Examples.gap).2
     = [yell_url "cafe" "Leeds" 1].
Proof.
  split; [vm_compute; reflexivity|]. split; [vm_compute; reflexivity|].
  split; [vm_compute; reflexivity|]. split; [|vm_compute; reflexivity].
  intros Hstop.
  specialize (Hstop 0 [1] [] Examples.gap ltac:(vm_compute; reflexivity)).
  apply (f_equal (fun x => length (requests x.2))) in Hstop.
  vm_compute in Hstop. discriminate.
Qed.

(** C5: a record is appended to an adapter's list only if its name is
    non-empty after normalization.  So no adapter returns a record with an
    empty name (each name is the normalized text of some element), and
    neither does [search]. *)
Theorem no_record_without_name query location max_pages w :
  (forall parse listings businesses,
     exists appended,
       parse_listings parse listings businesses = businesses ++ appended
       /\ Forall (fun b => name b <> EmptyString) appended)
  /\ (forall adapter records,
        adapter ∈ adapters query location max_pages ->
        (adapter w).1 = Ok records ->
        Forall (fun b => name b <> EmptyString
                         /\ exists raw, name b = _clean_text raw) records)
  /\ (forall sources,
        Forall (fun b => name b <> EmptyString)
               (search query location sources max_pages w).1).
Proof.
  split_and!.
  - intros parse listings businesses.
    destruct (AdapterFacts.parse_listings_snoc parse listings businesses)
      as (more & -> & HF).
    exists more. split; [done|]. eapply Forall_impl; [exact HF|].
    intros b [Hn _]. by apply StrFacts.truthy_iff.
  - intros adapter records Hin Hok.
    assert (Forall built_record records) as Hb.
    { unfold adapters in Hin. repeat (apply elem_of_cons in Hin as [->|Hin]).
      - by eapply AdapterFacts.yell_loop_built.
      - by eapply AdapterFacts.google_built.
      - by eapply AdapterFacts.thomson_loop_built.
      - by eapply AdapterFacts.freeindex_loop_built.
      - by eapply AdapterFacts.yelp_loop_built.
      - by apply elem_of_nil in Hin. }
    eapply Forall_impl; [exact Hb|]. by intros b (? & ? & _).
  - intros sources. rewrite search_fst.
    destruct (SearchFacts.deduplicate_sublist
                (accumulated query location sources max_pages w) ∅ [])
      as (kept & -> & _ & HF).
    eapply Forall_impl; [exact HF|]. apply SearchFacts.name_lower_truthy_name.
Qed.

(** Thomson Local lists three businesses, one with a blank name: two
    records are returned. *)
Lemma no_record_without_name_witness :
  exists records,
    (scrape_thomson_local "plumbers" "Leeds" 1 Examples.yell_down).1 = Ok records
    /\ length records = 2%nat
    /\ Forall (fun b => name b <> EmptyString
                        /\ exists raw, name b = _clean_text raw) records.
Proof.
  eexists. split; [vm_compute; reflexivity|]. split; [reflexivity|].
  apply (proj1 (proj2 (no_record_without_name "plumbers" "Leeds" 1 Examples.yell_down))
           (scrape_thomson_local "plumbers" "Leeds" 1)).
  - unfold adapters. do 2 right. left.
  - vm_compute. reflexivity.
Defined.

(** C10: a source identifier that is not one of the five known ones is
    skipped by [search]: the result and the world are the same as if it had
    not been listed, wherever it stands among the other sources. *)
Theorem unknown_source_is_skipped query location max_pages before s after w :
  s ∉ known_sources ->
  search query location (Some (before ++ s :: after)) max_pages w
  = search query location (Some (before ++ after)) max_pages w.
Proof.
  intros Hs. unfold search. cbn [default from_option id].
  rewrite !SearchFacts.run_sources_app. cbn [run_sources].
  by rewrite (SearchFacts.source_methods_unknown _ _ _ _ Hs).
Qed.

Lemma unknown_source_is_skipped_witness :
  ("bing" ∉ known_sources)
  /\ search "acme" "Leeds" (Some (["yell"] ++ "bing" :: ["freeindex"])) 1 Examples.acme
     = search "acme" "Leeds" (Some (["yell"] ++ ["freeindex"])) 1 Examples.acme.
Proof.
  assert ("bing" ∉ known_sources) as H.
  { apply (bool_decide_unpack _). vm_compute. exact I. }
  split; [exact H|].
  apply (unknown_source_is_skipped "acme" "Leeds" 1 ["yell"] "bing" ["freeindex"]
           Examples.acme H).
Defined.

(** C6, as stated, fails: [SW1A1AA] contains no white space, so no part
    of it is a match of a grammar that asks for white space between the two
    halves; yet the extractor returns it. *)
Lemma extract_uk_postcode_without_space :
  _extract_uk_postcode "SW1A1AA" = "SW1A1AA"
  /\ (forall n sub, occurs_at n sub (Str.chars "SW1A1AA") ->
        ~ postcode_shape false 1 sub).
Proof.
  split; [vm_compute; reflexivity|].
  intros n sub (pre & post & Heq & _)
    (area & d1 & o & ws & d2 & un & -> & _ & _ & _ & _ & _ & Lws & Hws & _).
  destruct ws as [|c ws]; [simpl in Lws; lia|].
  apply Forall_cons in Hws as [Hc _].
  assert (c ∈ Str.chars "SW1A1AA") as Hin.
  { rewrite Heq. rewrite !elem_of_app. right. left. right. right. right. left. left. }
  assert (Forall (fun c => Str.isspace c = false) (Str.chars "SW1A1AA")) as Hall
    by (by repeat constructor).
  rewrite Forall_forall in Hall. specialize (Hall c Hin). congruence.
Qed.

(** C6, amended: for every text, of any characters, [_extract_uk_postcode]
    returns the upper-cased form of the first match, regardless of case, of:
    one or two letters, one digit, an optional letter or digit, any run of
    white-space characters (possibly none), one digit, two letters; and the
    empty string when the text has no such match.  The match taken starts at
    the leftmost position where one starts.  Here a letter is what [[A-Z]]
    matches when case is ignored: [A]..[Z], [a]..[z], and U+0130, U+0131,
    U+017F and U+212A; a digit is any decimal digit of Unicode and white
    space any white-space character of Unicode.  The result, when non-empty,
    is a postcode of that grammar in capitals ([A]..[Z], U+0130, U+212A).
    On a text within U+00FF the grammar is the plain one, with the letters
    [A]..[Z], [a]..[z] and the digits [0]..[9], and the result is in the
    capitals [A]..[Z].  The postcode of every record an adapter returns is
    empty or a postcode of the grammar in capitals. *)
Theorem extract_uk_postcode_spec (text : Unicode.str) query location max_pages w :
  ((Unicode._extract_uk_postcode text = [] /\
    forall n sub, UnicodeShape.occurs_at n sub text ->
                  ~ UnicodeShape.postcode_shape false sub)
   \/
   (exists n sub,
      UnicodeShape.occurs_at n sub text /\ UnicodeShape.postcode_shape false sub /\
      (forall n' sub', UnicodeShape.occurs_at n' sub' text ->
         UnicodeShape.postcode_shape false sub' -> (n <= n')%nat) /\
      Unicode._extract_uk_postcode text = Unicode.upper_char <$> sub /\
      UnicodeShape.postcode_shape true (Unicode._extract_uk_postcode text)))
  /\ (forall t,
        text = Unicode.of_string t ->
        Unicode._extract_uk_postcode text
        = Unicode.of_string (_extract_uk_postcode t)
        /\ ((_extract_uk_postcode t = EmptyString /\
             forall n sub, occurs_at n sub (Str.chars t) ->
                           ~ postcode_shape false 0 sub)
            \/
            (exists n sub,
               occurs_at n sub (Str.chars t) /\ postcode_shape false 0 sub /\
               (forall n' sub', occurs_at n' sub' (Str.chars t) ->
                  postcode_shape false 0 sub' -> (n <= n')%nat) /\
               _extract_uk_postcode t = Str.upper (Str.text sub) /\
               postcode_shape true 0 (Str.chars (_extract_uk_postcode t)))))
  /\ (forall adapter records,
        adapter ∈ adapters query location max_pages ->
        (adapter w).1 = Ok records ->
        Forall (fun b => postcode b = EmptyString
                         \/ UnicodeShape.postcode_shape true
                              (Unicode.of_string (postcode b)))
               records).
Proof.
  split; [apply UnicodeFacts.u_extract_uk_postcode_cases|]. split.
  - intros t ->. split; [apply UnicodeFacts.extract_uk_postcode_of_string|].
    apply PostcodeFacts.extract_uk_postcode_cases.
  - intros adapter records Hin Hok.
    assert (Forall built_record records) as Hb.
    { unfold adapters in Hin. repeat (apply elem_of_cons in Hin as [->|Hin]).
      - by eapply AdapterFacts.yell_loop_built.
      - by eapply AdapterFacts.google_built.
      - by eapply AdapterFacts.thomson_loop_built.
      - by eapply AdapterFacts.freeindex_loop_built.
      - by eapply AdapterFacts.yelp_loop_built.
      - by apply elem_of_nil in Hin. }
    eapply Forall_impl; [exact Hb|]. apply UnicodeFacts.built_record_postcode.
Qed.

Lemma extract_uk_postcode_spec_witness :
  (exists records,
     (scrape_yell "plumbers" "Leeds" 1 Examples.yell_flaky).1 = Ok records
     /\ (postcode <$> records) = ["LS1 4AP"]
     /\ Forall (fun b => postcode b = EmptyString
                         \/ UnicodeShape.postcode_shape true
                              (Unicode.of_string (postcode b)))
               records)
  /\ Unicode._extract_uk_postcode (Unicode.of_string "London sw1a 1aa")
     = Unicode.of_string "SW1A 1AA".
Proof.
  split.
  - eexists. split; [vm_compute; reflexivity|]. split; [reflexivity|].
    apply (proj2 (proj2 (extract_uk_postcode_spec (Unicode.of_string "SW1A 1AA")
                           "plumbers" "Leeds" 1 Examples.yell_flaky))
             (scrape_yell "plumbers" "Leeds" 1)).
    + unfold adapters. left.
    + vm_compute. reflexivity.
  - apply (proj1 (proj1 (proj2 (extract_uk_postcode_spec
                                  (Unicode.of_string "London sw1a 1aa")
                                  "plumbers" "Leeds" 1 Examples.yell_flaky))
                    "London sw1a 1aa" eq_refl)).
Defined.

(** Beyond U+00FF: the Kelvin sign U+212A is taken as a letter and is its
    own capital, the dotless U+0131 becomes [I], and the Arabic-Indic digit
    U+0661 is taken as a digit. *)
Example extract_uk_postcode_beyond_latin1 :
  Unicode._extract_uk_postcode [0x212A; 0x31; 0x20; 0x31; 0x41; 0x41]%N
  = [0x212A; 0x31; 0x20; 0x31; 0x41; 0x41]%N
  /\ Unicode._extract_uk_postcode [0x131; 0x31; 0x20; 0x31; 0x61; 0x61]%N
     = [0x49; 0x31; 0x20; 0x31; 0x41; 0x41]%N
  /\ Unicode._extract_uk_postcode [0x4C; 0x53; 0x661; 0x20; 0x34; 0x41; 0x50]%N
     = [0x4C; 0x53; 0x661; 0x20; 0x34; 0x41; 0x50]%N.
Proof. repeat split. Qed.

(** The two examples of the specification. *)
Example extract_uk_postcode_found :
  _extract_uk_postcode "123 High St, London, SW1A 1AA" = "SW1A 1AA".
Proof. vm_compute. reflexivity. Qed.

Example extract_uk_postcode_none :
  _extract_uk_postcode "no postcode here" = EmptyString.
Proof. vm_compute. reflexivity. Qed.

(** The end-to-end example: one Yell listing named [ABC Plumbing] whose
    address carries the postcode. *)
Example end_to_end :
  exists reply w1,
    handler.do_POST (Examples.post [("Content-Length", "72")] (Examples.plumbers 1))
      Examples.yell_flaky = (Responded reply, w1)
    /\ status reply = 200
    /\ assoc "count" (match body reply with JObj f => f | _ => [] end) = Some (JInt 1)
    /\ (fun b => (name b, postcode b, source b))
         <$> (search "plumbers" "Leeds" (Some ["yell"]) 1 Examples.yell_flaky).1
        = [("ABC Plumbing", "LS1 4AP", "yell.com")].
Proof. eexists _, _. vm_compute. repeat split. Qed.

Example clean_text_example :
  _clean_text (" " +:+ " a   b" +:+ String (ascii_of_nat 10) " c ") = "a b c".
Proof. vm_compute. reflexivity. Qed.

(** C7: the handler caps [max_pages] at 5 before it calls [search].  For a
    request whose fields have their declared types, [search] is called with
    the minimum of the supplied [max_pages] and 5, and with 2 when the field
    is absent; so a supplied 100 is passed as 5. *)
Theorem max_pages_is_capped req w content_length fields q l sources supplied :
  int (header "Content-Length" req) = Ok content_length ->
  payload req content_length = Ok (JObj fields) ->
  assoc "query" fields = Some (JStr q) -> q <> EmptyString ->
  assoc "location" fields = Some (JStr l) -> l <> EmptyString ->
  handler.as_sources (from_option id (JArr [JStr "yell"; JStr "freeindex"])
                        (assoc "sources" fields)) = Some sources ->
  assoc "max_pages" fields = JInt <$> supplied ->
  let passed := Z.min (default 2 supplied) 5 in
  handler.do_POST req w =
    (Responded
       (handler.ok_reply (search q l sources passed w).1 (JStr q) (JStr l)
          (from_option id (JArr [JStr "yell"; JStr "freeindex"])
             (assoc "sources" fields))),
     (search q l sources passed w).2)
  /\ passed <= 5
  /\ (supplied = None -> passed = 2)
  /\ (supplied = Some 100 -> passed = 5).
Proof.
  intros Hn Hp Hq Hqne Hl Hlne Hs Hm passed. split_and!.
  - by eapply HandlerFacts.do_POST_typed.
  - subst passed. lia.
  - by intros ->.
  - by intros ->.
Qed.

Lemma max_pages_is_capped_witness :
  handler.do_POST (Examples.post [("Content-Length", "73")] (Examples.plumbers 100))
    Examples.yell_flaky
  = (Responded
       (handler.ok_reply
          (search "plumbers" "Leeds" (Some ["yell"]) 5 Examples.yell_flaky).1
          (JStr "plumbers") (JStr "Leeds") (JArr [JStr "yell"])),
     (search "plumbers" "Leeds" (Some ["yell"]) 5 Examples.yell_flaky).2).
Proof.
  apply (max_pages_is_capped
           (Examples.post [("Content-Length", "73")] (Examples.plumbers 100))
           Examples.yell_flaky 73
           [("query", JStr "plumbers"); ("location", JStr "Leeds");
            ("sources", JArr [JStr "yell"]); ("max_pages", JInt 100)]
           "plumbers" "Leeds" (Some ["yell"]) (Some 100));
    try reflexivity; discriminate.
Defined.

(** C8, as stated, fails: the address [my.email.box@acme.co.uk] matches the
    grammar and its domain, [acme.co.uk], contains none of the noise
    strings; the extractor drops it all the same, because [email.] occurs in
    its local part. *)
Lemma extract_emails_drops_address_outside_noise_domains :
  "my.email.box@acme.co.uk"
    ∈ re.findall email_pattern "write to my.email.box@acme.co.uk"
  /\ domain_of "my.email.box@acme.co.uk" = "acme.co.uk"
  /\ from_noise_domain "my.email.box@acme.co.uk" = false
  /\ _extract_emails "write to my.email.box@acme.co.uk" = [].
Proof.
  split_and!; try (vm_compute; reflexivity).
  assert (re.findall email_pattern "write to my.email.box@acme.co.uk"
          = ["my.email.box@acme.co.uk"]) as -> by (vm_compute; reflexivity).
  left.
Qed.

(** C8, amended: for every text, [_extract_emails] returns each match of
    the e-mail grammar found by the left-to-right scan exactly once, however
    often it occurs, except the matches whose lower-cased text contains,
    anywhere (local part included), one of [example.], [domain.], [email.],
    [.png], [.jpg], [.gif], [sentry.io]; every other match is returned.
    Every match is a part of the text of the shape [local@host.tld].  The
    result is a set: it does not change when a text is repeated after a
    space, nor, up to order, when two texts joined by a space are swapped. *)
Theorem extract_emails_spec text t1 t2 :
  NoDup (_extract_emails text)
  /\ (forall e, e ∈ _extract_emails text
                <-> e ∈ re.findall email_pattern text /\ noisy e = false)
  /\ (forall e, noisy e = true
                <-> exists x pre post,
                      x ∈ email_noise
                      /\ Str.chars (Str.lower e) = pre ++ Str.chars x ++ post)
  /\ (forall e, e ∈ re.findall email_pattern text ->
                email_shape (Str.chars e)
                /\ exists pre post, Str.chars text = pre ++ Str.chars e ++ post)
  /\ _extract_emails (text +:+ " " +:+ text) ≡ₚ _extract_emails text
  /\ _extract_emails (t1 +:+ " " +:+ t2) ≡ₚ _extract_emails (t2 +:+ " " +:+ t1).
Proof.
  split_and!.
  - apply EmailFacts.NoDup_list_set.
  - apply EmailFacts.elem_of_extract_emails.
  - intros e. unfold noisy. rewrite existsb_exists. split.
    + intros (x & Hin & (pre & post & Hc)%EmailFacts.contains_spec).
      exists x, pre, post. split; [by apply list_elem_of_In | done].
    + intros (x & pre & post & Hin & Hc). exists x. split; [by apply list_elem_of_In|].
      apply EmailFacts.contains_spec. by exists pre, post.
  - intros e (x & -> & Hx)%list_elem_of_fmap.
    apply EmailFacts.findall_go_sound in Hx as (m & Hm & -> & pre & post & Heq).
    rewrite StrFacts.chars_text. split; [by apply EmailFacts.email_matches_shape|].
    by exists pre, post.
  - apply NoDup_Permutation; try apply EmailFacts.NoDup_list_set.
    intros e. rewrite EmailFacts.extract_emails_join. tauto.
  - apply NoDup_Permutation; try apply EmailFacts.NoDup_list_set.
    intros e. rewrite !EmailFacts.extract_emails_join. tauto.
Qed.

Lemma extract_emails_spec_witness :
  _extract_emails "bob@acme.co.uk x@example.com Bob@acme.co.uk bob@acme.co.uk"
  ≡ₚ ["bob@acme.co.uk"; "Bob@acme.co.uk"]
  /\ forall e,
       e ∈ re.findall email_pattern "bob@acme.co.uk" ->
       email_shape (Str.chars e)
       /\ exists pre post, Str.chars "bob@acme.co.uk" = pre ++ Str.chars e ++ post.
Proof.
  split; [vm_compute; reflexivity|].
  apply (proj1 (proj2 (proj2 (proj2
           (extract_emails_spec "bob@acme.co.uk" EmptyString EmptyString))))).
Defined.

(** C9 (as the code has it): a POST without a [Content-Length] header makes
    [int(self.headers['Content-Length'])], which stands before the [try],
    raise [TypeError]; the exception leaves [do_POST] and no reply is sent.
    With a header that [int] rejects it is [ValueError]. *)
Theorem do_POST_without_content_length body w :
  handler.do_POST {| headers := []; rfile_read := body |} w
  = (Propagated
       (Exception "TypeError"
          "int() argument must be a string, a bytes-like object or a real number, not 'NoneType'"),
     w)
  /\ handler.do_POST {| headers := [("Content-Length", "abc")]; rfile_read := body |} w
     = (Propagated
          (Exception "ValueError" "invalid literal for int() with base 10: 'abc'"),
        w).
Proof. split; reflexivity. Qed.

(** * Further properties of the code *)

(** ** [_clean_text] *)

Module CleanFacts.
Import Str UKBusinessScraper StrFacts.

Lemma split_cons_ink c s :
  isspace c = false ->
  split_chars (c :: s)
  = if head_space s then [c] :: split_chars s
    else match split_chars s with
         | w :: ws => (c :: w) :: ws
         | [] => [[c]]
         end.
Proof.
  intros Hc. destruct s as [|c' s'].
  - simpl. by rewrite Hc.
  - change (split_chars (c :: c' :: s'))
      with (if isspace c then split_chars (c' :: s')
            else match split_chars (c' :: s') with
                 | w :: ws =>
                     if isspace c' then [c] :: split_chars (c' :: s')
                     else (c :: w) :: ws
                 | [] => [c] :: split_chars (c' :: s')
                 end).
    rewrite Hc. cbn [head_space].
    destruct (isspace c'); by destruct (split_chars (c' :: s')).
Qed.

Lemma split_cons_space c s :
  isspace c = true -> split_chars (c :: s) = split_chars s.
Proof. intros Hc. simpl. by rewrite Hc. Qed.

Lemma split_words s : Forall word (split_chars s).
Proof.
  induction s as [|c s IH]; [constructor|].
  destruct (isspace c) eqn:Hc; [by rewrite split_cons_space|].
  rewrite split_cons_ink by done.
  assert (word [c]) as Hword by (split; [done | by constructor]).
  destruct (head_space s); [by constructor|].
  destruct (split_chars s) as [|w ws]; [by constructor|].
  apply Forall_cons in IH as [[Hne Hw] Hws].
  constructor; [|done]. split; [done | by constructor].
Qed.

Lemma split_word_sep w sp r :
  word w -> isspace sp = true -> split_chars (w ++ sp :: r) = w :: split_chars r.
Proof.
  intros [Hne Hw] Hsp. induction Hw as [|c w Hc Hw IH]; [done|].
  change ((c :: w) ++ sp :: r) with (c :: (w ++ sp :: r)).
  rewrite split_cons_ink by done.
  destruct w as [|c2 w'].
  - cbn [head_space app]. by rewrite Hsp, split_cons_space.
  - rewrite IH by done. cbn [head_space app].
    apply Forall_cons in Hw as [Hc2 _]. by rewrite Hc2.
Qed.

Lemma split_word w : word w -> split_chars w = [w].
Proof.
  intros [Hne Hw]. induction Hw as [|c w Hc Hw IH]; [done|].
  rewrite split_cons_ink by done.
  destruct w as [|c2 w']; [done|].
  rewrite IH by done. cbn [head_space].
  apply Forall_cons in Hw as [Hc2 _]. by rewrite Hc2.
Qed.

Lemma split_join ws :
  Forall word ws -> split_chars (join_chars [" "%char] ws) = ws.
Proof.
  induction 1 as [|w ws Hw Hws IH]; [done|].
  destruct ws as [|w2 ws'].
  - by apply split_word.
  - change (join_chars [" "%char] (w :: w2 :: ws'))
      with (w ++ " "%char :: join_chars [" "%char] (w2 :: ws')).
    rewrite split_word_sep by done. by rewrite IH.
Qed.

Lemma split_nil_iff s :
  split_chars s = [] <-> Forall (fun c => isspace c = true) s.
Proof.
  induction s as [|c s IH]; [by split|].
  destruct (isspace c) eqn:Hc.
  - rewrite split_cons_space, IH by done.
    split; [by constructor | by intros [_ ?]%Forall_cons].
  - rewrite split_cons_ink by done. split.
    + destruct (head_space s); [done|]. by destruct (split_chars s).
    + intros [? _]%Forall_cons. congruence.
Qed.

Lemma join_head ws :
  Forall word ws -> ws <> [] ->
  exists c x, join_chars [" "%char] ws = c :: x /\ isspace c = false.
Proof.
  intros Hws Hne. destruct Hws as [|w ws [Hw Hink] Hws]; [done|].
  destruct Hink as [|c w' Hc _]; [done|].
  destruct ws; simpl; eauto.
Qed.

Lemma join_last ws :
  Forall word ws -> ws <> [] ->
  exists x c, join_chars [" "%char] ws = x ++ [c] /\ isspace c = false.
Proof.
  induction 1 as [|w ws [Hw Hink] Hws IH]; [done|]. intros _.
  destruct ws as [|w2 ws'].
  - simpl. destruct (exists_last Hw) as (x & c & ->).
    apply Forall_app in Hink as [_ [Hc _]%Forall_cons]. eauto.
  - destruct IH as (x & c & Hx & Hc); [done|].
    exists (w ++ " "%char :: x), c. split; [|done].
    change (join_chars [" "%char] (w :: w2 :: ws'))
      with (w ++ " "%char :: join_chars [" "%char] (w2 :: ws')).
    rewrite Hx. by rewrite <- (assoc_L (++)).
Qed.

Lemma strip_join ws :
  Forall word ws ->
  strip_chars (join_chars [" "%char] ws) = join_chars [" "%char] ws.
Proof.
  intros Hws. destruct (decide (ws = [])) as [->|Hne]; [done|].
  destruct (join_head ws Hws Hne) as (c & x & Hx & Hc).
  destruct (join_last ws Hws Hne) as (y & d & Hy & Hd).
  unfold strip_chars, rstrip_chars.
  assert (lstrip_chars (join_chars [" "%char] ws) = join_chars [" "%char] ws) as ->.
  { rewrite Hx. simpl. by rewrite Hc. }
  rewrite Hy, reverse_app. simpl. rewrite Hd.
  change (d :: reverse y) with (reverse [d] ++ reverse y).
  by rewrite <- reverse_app, reverse_involutive.
Qed.

(** The characters of a cleaned text: its words, joined by single spaces. *)
Lemma clean_text_chars t :
  chars (_clean_text t) = join_chars [" "%char] (split_chars (chars t)).
Proof.
  unfold _clean_text. destruct t as [|a t]; [done|].
  cbn [truthy negb]. unfold strip, join, split.
  rewrite !chars_text, <- list_fmap_compose.
  rewrite (list_fmap_ext (chars ∘ text) id) by (intros; apply chars_text).
  rewrite list_fmap_id. apply strip_join, split_words.
Qed.

Lemma chars_inj s1 s2 : chars s1 = chars s2 -> s1 = s2.
Proof. intros H. by rewrite <- (text_chars s1), <- (text_chars s2), H. Qed.

End CleanFacts.

(** X1: [_clean_text] returns the words of the text (its maximal runs of
    non-space characters) joined by single spaces.  Cleaning is idempotent,
    keeps the words, leaves nothing for [strip] to remove, and gives the
    empty string exactly for a text made of white space only. *)
Theorem clean_text_normal_form t :
  _clean_text (_clean_text t) = _clean_text t
  /\ Str.split (_clean_text t) = Str.split t
  /\ Str.strip (_clean_text t) = _clean_text t
  /\ Str.join " " (Str.split t) = _clean_text t
  /\ (_clean_text t = EmptyString
      <-> Forall (fun c => Str.isspace c = true) (Str.chars t)).
Proof.
  pose proof (CleanFacts.split_words (Str.chars t)) as Hw.
  split_and!.
  - apply CleanFacts.chars_inj. rewrite !CleanFacts.clean_text_chars.
    by rewrite CleanFacts.split_join.
  - unfold Str.split. rewrite CleanFacts.clean_text_chars.
    by rewrite CleanFacts.split_join.
  - apply CleanFacts.chars_inj. unfold Str.strip.
    rewrite StrFacts.chars_text, CleanFacts.clean_text_chars.
    by apply CleanFacts.strip_join.
  - apply CleanFacts.chars_inj. rewrite CleanFacts.clean_text_chars.
    unfold Str.join, Str.split. rewrite StrFacts.chars_text, <- list_fmap_compose.
    rewrite (list_fmap_ext (Str.chars ∘ Str.text) id)
      by (intros; apply StrFacts.chars_text).
    by rewrite list_fmap_id.
  - rewrite <- CleanFacts.split_nil_iff. split.
    + intros H. apply (f_equal Str.chars) in H.
      rewrite CleanFacts.clean_text_chars in H. simpl in H.
      destruct (Str.split_chars (Str.chars t)) as [|w ws]; [done|].
      destruct (CleanFacts.join_head (w :: ws) Hw) as (c & x & Hx & _); [done|].
      congruence.
    + intros H. apply CleanFacts.chars_inj.
      by rewrite CleanFacts.clean_text_chars, H.
Qed.

(** ** [_extract_uk_phones] *)

Module PhoneFacts.
Import re UKBusinessScraper StrFacts reFacts.

Lemma elem_of_concat {A} (x : A) (ls : list (list A)) l :
  x ∈ l -> l ∈ ls -> x ∈ concat ls.
Proof.
  intros Hx. induction ls as [|l' ls IH]; [by intros ?%elem_of_nil|].
  intros [->|Hin]%elem_of_cons; simpl; apply elem_of_app; auto.
Qed.

Lemma matches_accepts p m :
  matches p m ->
  Forall (fun a => exists i, i ∈ p /\ item_accepts i a = true) (concat m).
Proof.
  induction 1 as [|c lo hi p x m Hx _ _ _ IH|alts p a m Ha _ IH]; simpl.
  - constructor.
  - apply Forall_app. split.
    + eapply Forall_impl; [exact Hx|]. intros a Ha.
      exists (Rep c lo hi). split; [left | done].
    + eapply Forall_impl; [exact IH|]. intros a (i & Hi & Hacc).
      exists i. split; [by right | done].
  - apply Forall_app. split.
    + apply Forall_forall. intros c Hc. exists (Alt alts). split; [left|].
      simpl. apply bool_decide_eq_true. by apply (elem_of_concat _ _ a).
    + eapply Forall_impl; [exact IH|]. intros c (i & Hi & Hacc).
      exists i. split; [by right | done].
Qed.

Lemma alt_length_bounds (alts : list (list ascii)) a top :
  a ∈ alts ->
  (foldr Nat.min top (length <$> alts) <= length a)%nat
  /\ (length a <= foldr Nat.max 0 (length <$> alts))%nat.
Proof.
  induction alts as [|b alts IH]; [by intros ?%elem_of_nil|].
  cbn [fmap list_fmap foldr]. intros [->|Hin]%elem_of_cons.
  - lia.
  - specialize (IH Hin). lia.
Qed.

Lemma matches_length p m :
  matches p m ->
  (min_len p <= length (concat m))%nat
  /\ forall top, max_len p = Some top -> (length (concat m) <= top)%nat.
Proof.
  induction 1 as [|c lo hi p x m _ Hlo Hhi _ [IHmin IHmax]
                  |alts p a m Ha _ [IHmin IHmax]]; simpl.
  - split; [lia|]. intros top [= <-]. lia.
  - rewrite length_app. split; [lia|].
    intros top. destruct hi as [h|]; [|done].
    destruct (max_len p) as [b|]; [|done]. intros [= <-].
    specialize (IHmax b eq_refl). simpl in Hhi. lia.
  - rewrite length_app. pose proof (alt_length_bounds alts a (foldr Nat.max 0%nat (length <$> alts)) Ha) as Hb.
    split; [lia|]. intros top.
    destruct (max_len p) as [b|]; [|done]. intros [= <-].
    specialize (IHmax b eq_refl). lia.
Qed.

Lemma phone_items_chars p i a :
  p ∈ phone_patterns -> i ∈ p -> item_accepts i a = true -> phone_char a = true.
Proof.
  unfold phone_patterns. intros Hp Hi.
  repeat (apply elem_of_cons in Hp as [->|Hp]); [..|by apply elem_of_nil in Hp];
    repeat (apply elem_of_cons in Hi as [->|Hi]);
    try (by apply elem_of_nil in Hi);
    by destruct a as [[] [] [] [] [] [] [] []].
Qed.

Lemma extract_uk_phones_elem text ph :
  ph ∈ _extract_uk_phones text
  <-> exists p, p ∈ phone_patterns /\ ph ∈ findall p text.
Proof.
  unfold _extract_uk_phones. rewrite EmailFacts.elem_of_list_set.
  unfold phone_patterns. cbn [foldl]. rewrite !elem_of_app. split.
  - intros [[[[]%elem_of_nil|H]|H]|H]; eexists; (split; [|exact H]);
      repeat constructor.
  - intros (p & Hp & H). repeat (apply elem_of_cons in Hp as [->|Hp]); auto.
    by apply elem_of_nil in Hp.
Qed.

End PhoneFacts.

(** X2: every string [_extract_uk_phones] returns is a part of the text
    that reads as one of the three phone patterns; it is returned once; it
    is made of digits, [+], white space, dots and hyphens only, and is
    between 9 and 18 characters long. *)
Theorem extract_uk_phones_sound text :
  NoDup (_extract_uk_phones text)
  /\ forall ph,
       ph ∈ _extract_uk_phones text ->
       (exists p m pre post,
          p ∈ phone_patterns /\ matches p m /\ Str.chars ph = concat m
          /\ Str.chars text = pre ++ Str.chars ph ++ post)
       /\ Forall (fun c => phone_char c = true) (Str.chars ph)
       /\ (9 <= length (Str.chars ph) <= 18)%nat.
Proof.
  split; [apply EmailFacts.NoDup_list_set|].
  intros ph (p & Hp & Hin)%PhoneFacts.extract_uk_phones_elem.
  apply list_elem_of_fmap in Hin as (x & -> & Hx).
  apply EmailFacts.findall_go_sound in Hx as (m & Hm & -> & pre & post & Heq).
  rewrite StrFacts.chars_text.
  pose proof (PhoneFacts.matches_accepts p m Hm) as Hacc.
  pose proof (PhoneFacts.matches_length p m Hm) as [Hmin Hmax].
  split; [|split].
  - by exists p, m, pre, post.
  - eapply Forall_impl; [exact Hacc|]. intros a (i & Hi & Ha).
    by apply (PhoneFacts.phone_items_chars p i).
  - unfold phone_patterns in Hp.
    repeat (apply elem_of_cons in Hp as [->|Hp]); [..|by apply elem_of_nil in Hp].
    + specialize (Hmax 18%nat eq_refl). simpl in Hmin. lia.
    + specialize (Hmax 15%nat eq_refl). simpl in Hmin. lia.
    + specialize (Hmax 12%nat eq_refl). simpl in Hmin. lia.
Qed.

Lemma extract_uk_phones_sound_witness :
  "0113 496 0000" ∈ _extract_uk_phones "call 0113 496 0000 today"
  /\ Forall (fun c => phone_char c = true) (Str.chars "0113 496 0000").
Proof.
  assert ("0113 496 0000" ∈ _extract_uk_phones "call 0113 496 0000 today") as H.
  { assert (_extract_uk_phones "call 0113 496 0000 today" = ["0113 496 0000"]) as ->
      by (vm_compute; reflexivity).
    left. }
  split; [exact H|].
  exact (proj1 (proj2 (proj2 (extract_uk_phones_sound "call 0113 496 0000 today")
                         "0113 496 0000" H))).
Defined.

(** ** Requests and delays *)

Module TrafficFacts.
Import UKBusinessScraper StrFacts AdapterFacts.

Lemma requests_after_get url w : requests (after_get url w) = url :: requests w.
Proof. done. Qed.

Lemma pauses_after_get url w : pauses (after_get url w) = pauses w.
Proof. done. Qed.

Lemma requests_delay w : requests (_delay w) = requests w.
Proof. done. Qed.

Lemma pauses_delay w : pauses (_delay w) = S (pauses w).
Proof. done. Qed.

Ltac stop_here page :=
  exists [page]; cbn [fst snd];
  rewrite requests_after_get, pauses_after_get;
  split_and!; [by apply prefix_cons, prefix_nil | done | simpl; lia..].

Ltac go_on IH page :=
  match goal with
  | |- context [parse_listings ?f ?ls ?bs] =>
      match goal with
      | |- context [_delay ?w1] =>
          destruct (IH (parse_listings f ls bs) (_delay w1))
            as (fetched & Hpre & Hreq & Hlo & Hge & Hhi);
          rewrite requests_delay, requests_after_get in Hreq;
          rewrite pauses_delay, pauses_after_get in Hlo, Hge, Hhi;
          exists (page :: fetched);
          split_and!;
          [ by apply prefix_cons
          | rewrite Hreq, fmap_cons, reverse_cons, <- (assoc_L (++)); done
          | cbn [length]; lia.. ]
      end
  end.

Ltac in_order :=
  intros pages; induction pages as [|page pages IH]; intros businesses w;
  [ exists []; simpl; split_and!; [done | done | lia..] |];
  cbn -[fetch_listings parse_listings];
  match goal with
  | |- context [fetch_listings ?a ?b ?u w] =>
      pose proof (fetch_listings_world a b u w) as Hw;
      destruct (fetch_listings a b u w) as [[listings|e] w1];
      cbn [snd] in Hw; subst w1;
      [ try (destruct listings as [|listing listings]) | destruct (is_RequestException e) ]
  end;
  first [ stop_here page | go_on IH page ].

Lemma yell_in_order q l : fetches_pages_in_order (yell_url q l) (yell_loop q l).
Proof. in_order. Qed.

Lemma freeindex_in_order q l :
  fetches_pages_in_order (freeindex_url q l) (freeindex_loop q l).
Proof. in_order. Qed.

Lemma thomson_in_order q l :
  fetches_pages_in_order (thomson_url q l) (thomson_loop q l).
Proof. in_order. Qed.

Lemma yelp_in_order q l : fetches_pages_in_order (yelp_url q l) (yelp_loop q l).
Proof. in_order. Qed.

End TrafficFacts.

Module BudgetFacts.
Import UKBusinessScraper StrFacts AdapterFacts TrafficFacts.

Lemma grows_by_refl n w : grows_by n w w.
Proof. exists []. split_and!; [done | simpl; lia | done]. Qed.

Lemma grows_by_trans a b w w1 w2 :
  grows_by a w w1 -> grows_by b w1 w2 -> grows_by (a + b) w w2.
Proof.
  intros (u1 & H1 & L1 & P1) (u2 & H2 & L2 & P2). exists (u2 ++ u1).
  split_and!.
  - by rewrite H2, H1, (assoc_L (++)).
  - rewrite length_app. lia.
  - lia.
Qed.

Lemma grows_by_mono a b w w' : (a <= b)%nat -> grows_by a w w' -> grows_by b w w'.
Proof. intros Hab (u & H & L & P). exists u. split_and!; [done | lia | done]. Qed.

Lemma in_order_grows url L pages businesses w :
  fetches_pages_in_order url L ->
  grows_by (length pages) w (L pages businesses w).2.
Proof.
  intros H.
  destruct (H pages businesses w) as (fetched & Hpre & Hreq & Hlo & Hge & Hhi).
  exists (reverse (url <$> fetched)). split_and!; [done| |done].
  rewrite length_reverse, length_fmap. by apply prefix_length.
Qed.

Lemma length_range a b : length (range a b) = Z.to_nat (b - a).
Proof. unfold range. apply length_seqZ. Qed.

Lemma google_world q l n w :
  requests (scrape_google_maps q l n w).2 = google_url q l :: requests w
  /\ (pauses w <= pauses (scrape_google_maps q l n w).2 <= pauses w + 1)%nat.
Proof.
  unfold scrape_google_maps.
  pose proof (fetch_listings_world ".VkpGBb" "[data-hveid]" (google_url q l) w) as Hw.
  destruct (fetch_listings _ _ _ w) as [[listings|e] w1]; cbn [snd] in Hw; subst w1.
  - cbn [snd]. rewrite requests_delay, pauses_delay, requests_after_get,
      pauses_after_get. split; [done | lia].
  - destruct (is_RequestException e); cbn [snd];
      rewrite requests_after_get, pauses_after_get; (split; [done | lia]).
Qed.



(** Each known source makes at most [max 1 max_pages] requests. *)
Lemma method_grows q l n s m w :
  source_methods q l n !! s = Some m ->
  grows_by (Nat.max 1 (Z.to_nat n)) w (m w).2.
Proof.
  intros [->|[->|[->|[->| ->]]]]%SearchFacts.source_methods_lookup.
  - eapply grows_by_mono; [|apply (in_order_grows _ _ _ _ _ (yell_in_order q l))].
    rewrite length_range. lia.
  - destruct (google_world q l (n * 10) w) as [Hr Hp].
    exists [google_url q l]. split_and!; [done | simpl; lia | lia].
  - eapply grows_by_mono; [|apply (in_order_grows _ _ _ _ _ (thomson_in_order q l))].
    rewrite length_range. lia.
  - eapply grows_by_mono; [|apply (in_order_grows _ _ _ _ _ (freeindex_in_order q l))].
    rewrite length_range. lia.
  - eapply grows_by_mono; [|apply (in_order_grows _ _ _ _ _ (yelp_in_order q l))].
    rewrite length_range. lia.
Qed.

Lemma run_sources_grows q l n sources : forall acc w,
  grows_by (length sources * Nat.max 1 (Z.to_nat n)) w
           (run_sources (source_methods q l n) sources acc w).2.
Proof.
  induction sources as [|s sources IH]; intros acc w; simpl; [apply grows_by_refl|].
  destruct (source_methods q l n !! s) as [m|] eqn:Hm.
  - pose proof (method_grows q l n s m w Hm) as Hg.
    destruct (m w) as [[r|e] w1]; cbn [snd] in Hg;
      eapply grows_by_trans; [exact Hg | apply IH | exact Hg | apply IH].
  - eapply grows_by_mono; [|apply IH]. lia.
Qed.

End BudgetFacts.

(** X3: each of the four paginated adapters fetches the pages of its range
    in order, one request per page, none skipped and none repeated, up to
    the page at which it stops; it sleeps after every fetch except possibly
    the last one.  So a call makes at most [max_pages] requests, and none at
    all when [max_pages] is zero or negative. *)
Theorem adapters_fetch_pages_in_order query location :
  fetches_pages_in_order (yell_url query location) (yell_loop query location)
  /\ fetches_pages_in_order (freeindex_url query location)
       (freeindex_loop query location)
  /\ fetches_pages_in_order (thomson_url query location)
       (thomson_loop query location)
  /\ fetches_pages_in_order (yelp_url query location) (yelp_loop query location)
  /\ (forall max_pages w,
        grows_by (Z.to_nat max_pages) w (scrape_yell query location max_pages w).2
        /\ grows_by (Z.to_nat max_pages) w
             (scrape_freeindex query location max_pages w).2
        /\ grows_by (Z.to_nat max_pages) w
             (scrape_thomson_local query location max_pages w).2
        /\ grows_by (Z.to_nat max_pages) w
             (scrape_yelp_uk query location max_pages w).2)
  /\ (forall max_pages w,
        max_pages <= 0 ->
        scrape_yell query location max_pages w = (Ok [], w)
        /\ scrape_freeindex query location max_pages w = (Ok [], w)
        /\ scrape_thomson_local query location max_pages w = (Ok [], w)
        /\ scrape_yelp_uk query location max_pages w = (Ok [], w)).
Proof.
  split_and!.
  - apply TrafficFacts.yell_in_order.
  - apply TrafficFacts.freeindex_in_order.
  - apply TrafficFacts.thomson_in_order.
  - apply TrafficFacts.yelp_in_order.
  - intros max_pages w. split_and!;
      (eapply BudgetFacts.grows_by_mono;
       [|eapply BudgetFacts.in_order_grows;
         first [ apply TrafficFacts.yell_in_order
               | apply TrafficFacts.freeindex_in_order
               | apply TrafficFacts.thomson_in_order
               | apply TrafficFacts.yelp_in_order ]]);
      rewrite BudgetFacts.length_range; lia.
  - intros max_pages w Hle.
    unfold scrape_yell, scrape_freeindex, scrape_thomson_local, scrape_yelp_uk, range.
    assert (seqZ 0 (max_pages - 0) = []) as ->.
    { unfold seqZ. by rewrite Z2Nat.nonpos by lia. }
    assert (seqZ 1 (max_pages + 1 - 1) = []) as ->.
    { unfold seqZ. by rewrite Z2Nat.nonpos by lia. }
    done.
Qed.

Lemma adapters_fetch_pages_in_order_witness :
  scrape_yell "plumbers" "Leeds" 0 Examples.yell_flaky = (Ok [], Examples.yell_flaky)
  /\ requests (scrape_yell "plumbers" "Leeds" 3 Examples.yell_flaky).2
     = [yell_url "plumbers" "Leeds" 2; yell_url "plumbers" "Leeds" 1].
Proof.
  split.
  - apply (proj2 (proj2 (proj2 (proj2 (proj2
             (adapters_fetch_pages_in_order "plumbers" "Leeds"))))) 0
             Examples.yell_flaky). lia.
  - vm_compute. reflexivity.
Defined.



(** X5: one call of [search] makes at most [max 1 max_pages] requests for
    each source listed (for each of the two default sources when none is
    given); what was requested before stays in the log, and no delay is
    undone. *)
Theorem search_request_budget query location sources max_pages w :
  grows_by (length (default ["yell"; "freeindex"] sources)
            * Nat.max 1 (Z.to_nat max_pages))
           w (search query location sources max_pages w).2.
Proof. rewrite search_snd. apply BudgetFacts.run_sources_grows. Qed.

Module ReplyFacts.
Import UKBusinessScraper handler.

Lemma min_5_le v n : min_5 v = Ok (JInt n) -> n <= 5.
Proof.
  destruct v as [| |k|x| | |]; simpl; try done.
  - destruct (Z.ltb_spec 5 k); intros [= <-]; lia.
  - destruct (SFltb five x); by intros [= <-].
Qed.

(** The ways the [try] block can end. *)
Lemma try_block_cases post w :
  (exists e, try_block post w = Raise e)
  \/ try_block post w = Ok None
  \/ try_block post w = Ok (Some (error_reply 400 "Missing query or location", w))
  \/ exists q l srcs n query location sources,
       n <= 5 /\ as_sources sources = Some srcs
       /\ try_block post w
          = Ok (Some (ok_reply (search q l srcs n w).1 query location sources,
                      (search q l srcs n w).2)).
Proof.
  unfold try_block. destruct post as [data|e]; [|left; by eexists].
  cbn [mbind res_bind].
  destruct data as [| | | | | |fields];
    try (left; by eexists). cbn [json_get mbind res_bind].
  destruct (min_5 _) as [max_pages|e] eqn:Hmin; [|left; by eexists].
  cbn [mbind res_bind].
  destruct (negb _ || negb _); [right; right; by left|].
  destruct (as_str (from_option id (JStr EmptyString) (assoc "query" fields)))
    as [q|]; [|right; by left].
  destruct (as_str (from_option id (JStr EmptyString) (assoc "location" fields)))
    as [l|]; [|right; by left].
  destruct (as_sources _) as [srcs|] eqn:Hs; [|right; by left].
  destruct (as_int max_pages) as [n|] eqn:Hn; [|right; by left].
  destruct max_pages; try done. injection Hn as ->.
  right; right; right. exists q, l, srcs, n. do 3 eexists.
  split; [by eapply min_5_le|]. split; [exact Hs|].
  by destruct (search q l srcs n w).
Qed.

Lemma as_sources_listed sources srcs :
  as_sources sources = Some srcs ->
  length (default ["yell"; "freeindex"] srcs)
  = match sources with JArr items => length items | _ => 2%nat end.
Proof.
  destruct sources as [| | | | |items|]; simpl; try done.
  - by intros [= <-].
  - destruct (mapM as_str items) as [strs|] eqn:Hm; [|done].
    intros [= <-]. simpl. by apply length_mapM in Hm.
Qed.

Lemma typed_str o :
  from_option is_str true o = true ->
  exists q, from_option id (JStr EmptyString) o = JStr q.
Proof. destruct o as [[| | | |q| |]|]; try done; by eexists. Qed.

Lemma mapM_as_str items :
  forallb is_str items = true -> exists strs, mapM as_str items = Some strs.
Proof.
  induction items as [|v items IH]; [by exists []|].
  cbn [forallb]. intros [Hv Hitems]%andb_true_iff.
  destruct (IH Hitems) as [strs Hstrs]. destruct v; try done.
  eexists. cbn [mapM as_str mbind option_bind]. by rewrite Hstrs.
Qed.

Lemma typed_sources fields :
  match assoc "sources" fields with
  | None | Some JNull => true
  | Some (JArr items) => forallb is_str items
  | Some _ => false
  end = true ->
  exists srcs,
    as_sources (from_option id (JArr [JStr "yell"; JStr "freeindex"])
                  (assoc "sources" fields)) = Some srcs.
Proof.
  destruct (assoc "sources" fields) as [[| | | | |items|]|]; try done;
    [by eexists | | by eexists].
  intros [strs Hstrs]%mapM_as_str. cbn [from_option id as_sources].
  rewrite Hstrs. by eexists.
Qed.

Lemma typed_max_pages fields :
  match assoc "max_pages" fields with
  | None | Some (JInt _) => true
  | Some _ => false
  end = true ->
  exists k, k <= 5
            /\ min_5 (from_option id (JInt 2) (assoc "max_pages" fields))
               = Ok (JInt k).
Proof.
  destruct (assoc "max_pages" fields) as [[| |k| | | |]|]; try done; intros _.
  - exists (Z.min k 5). split; [lia|]. apply HandlerFacts.min_5_int.
  - by exists 2.
Qed.

(** A request with the declared types is answered from inside the [try]
    block, with the 400 reply or with the result of a search. *)
Lemma typed_try_block fields w :
  declared_types fields = true ->
  exists q l srcs k,
    from_option id (JStr EmptyString) (assoc "query" fields) = JStr q
    /\ from_option id (JStr EmptyString) (assoc "location" fields) = JStr l
    /\ as_sources (from_option id (JArr [JStr "yell"; JStr "freeindex"])
                     (assoc "sources" fields)) = Some srcs
    /\ k <= 5
    /\ try_block (Ok (JObj fields)) w
       = Ok (Some
           (if negb (Str.truthy q) || negb (Str.truthy l)
            then (error_reply 400 "Missing query or location", w)
            else (ok_reply (search q l srcs k w).1 (JStr q) (JStr l)
                    (from_option id (JArr [JStr "yell"; JStr "freeindex"])
                       (assoc "sources" fields)),
                  (search q l srcs k w).2))).
Proof.
  unfold declared_types.
  intros [[[Hq Hl]%andb_true_iff Hs]%andb_true_iff Hm]%andb_true_iff.
  apply typed_str in Hq as [q Hq]. apply typed_str in Hl as [l Hl].
  apply typed_sources in Hs as [srcs Hs].
  apply typed_max_pages in Hm as (k & Hk & Hm).
  exists q, l, srcs, k. split_and!; [done..|].
  unfold try_block. cbn [mbind res_bind json_get]. rewrite Hq, Hl, Hm.
  cbn [mbind res_bind json_truthy as_str as_int].
  destruct (negb (Str.truthy q) || negb (Str.truthy l)); [done|].
  rewrite Hs. by destruct (search q l srcs k w).
Qed.

End ReplyFacts.



(** X7: with the cap on [max_pages], a POST whose body has the declared
    types makes at most five requests for each source the reply lists (the
    two default sources when the request lists none), whatever [max_pages]
    the caller sent. *)
Theorem do_POST_request_budget req w n fields r w1 :
  int (header "Content-Length" req) = Ok n ->
  rfile_read req n = Ok (Ok (JObj fields)) ->
  declared_types fields = true ->
  handler.do_POST req w = (Responded r, w1) ->
  grows_by (5 * listed r) w w1.
Proof.
  intros Hn Hr Ht. unfold handler.do_POST. rewrite Hn, Hr.
  destruct (ReplyFacts.typed_try_block fields w Ht)
    as (q & l & srcs & k & _ & _ & Hs & Hk & ->).
  destruct (negb (Str.truthy q) || negb (Str.truthy l));
    intros [= <- <-]; [apply BudgetFacts.grows_by_refl|].
  eapply BudgetFacts.grows_by_mono; [|apply search_request_budget].
  unfold listed. cbn [handler.ok_reply body assoc String.eqb Ascii.eqb Bool.eqb].
  rewrite (ReplyFacts.as_sources_listed _ _ Hs).
  destruct (from_option id _ _); nia.
Qed.

Lemma do_POST_request_budget_witness :
  grows_by (5 * 1) Examples.yell_flaky
    (search "plumbers" "Leeds" (Some ["yell"]) 5 Examples.yell_flaky).2.
Proof.
  apply (do_POST_request_budget
           (Examples.post [("Content-Length", "74")] (Examples.plumbers 100))
           Examples.yell_flaky 74
           [("query", JStr "plumbers"); ("location", JStr "Leeds");
            ("sources", JArr [JStr "yell"]); ("max_pages", JInt 100)]
           (handler.ok_reply
              (search "plumbers" "Leeds" (Some ["yell"]) 5 Examples.yell_flaky).1
              (JStr "plumbers") (JStr "Leeds") (JArr [JStr "yell"]))
           _ eq_refl eq_refl eq_refl).
  apply (HandlerFacts.do_POST_typed
           (Examples.post [("Content-Length", "74")] (Examples.plumbers 100))
           Examples.yell_flaky 74
           [("query", JStr "plumbers"); ("location", JStr "Leeds");
            ("sources", JArr [JStr "yell"]); ("max_pages", JInt 100)]
           "plumbers" "Leeds" (Some ["yell"]) (Some 100));
    try reflexivity; discriminate.
Defined.

(** ** The fields of the records *)

Module RecordFacts.
Import UKBusinessScraper StrFacts AdapterFacts.

#[local] Arguments _clean_text : simpl never.
#[local] Arguments _extract_uk_postcode : simpl never.
#[local] Arguments _extract_uk_phones : simpl never.
#[local] Arguments re.search : simpl never.
#[local] Arguments re.groups : simpl never.
#[local] Arguments Str.join : simpl never.
#[local] Arguments texts : simpl never.
#[local] Arguments select : simpl never.
#[local] Arguments select_one : simpl never.
#[local] Arguments select_one_or : simpl never.
#[local] Arguments attr : simpl never.

Ltac fields H :=
  simpl in H; lookups H; injection H as <-; simpl;
  repeat split; reflexivity.

Lemma yell_listing_fields now listing b :
  yell_listing now listing = Ok b -> yell_record b.
Proof. unfold yell_listing, yell_record, defaults_kept. intros H. fields H. Qed.

Lemma freeindex_listing_fields now listing b :
  freeindex_listing now listing = Ok b -> freeindex_record b.
Proof.
  unfold freeindex_listing, freeindex_record, defaults_kept. intros H. fields H.
Qed.

Lemma thomson_listing_fields now listing b :
  thomson_listing now listing = Ok b -> thomson_record b.
Proof.
  unfold thomson_listing, thomson_record, defaults_kept. intros H. fields H.
Qed.

Lemma yelp_listing_fields now listing b :
  yelp_listing now listing = Ok b -> yelp_record b.
Proof. unfold yelp_listing, yelp_record, defaults_kept. intros H. fields H. Qed.

Lemma google_result_fields now result b :
  google_result now result = Ok b -> google_record b.
Proof. unfold google_result, google_record, defaults_kept. intros H. fields H. Qed.

(** A property of every parsed record is a property of every record a
    loop returns. *)
Ltac loop_inv P parser_lemma :=
  intros pages; induction pages as [|page pages IH]; intros businesses w r Hacc;
  cbn -[fetch_listings parse_listings]; [by intros [= <-]|];
  loop_cases IH; try done; try (by intros [= <-]);
  apply IH;
  (apply (parse_listings_Forall P);
   [intros ? ? ? _; by eapply parser_lemma | done]).

Lemma yell_loop_fields q l : forall pages businesses w r,
  Forall yell_record businesses ->
  (yell_loop q l pages businesses w).1 = Ok r -> Forall yell_record r.
Proof. loop_inv yell_record yell_listing_fields. Qed.

Lemma freeindex_loop_fields q l : forall pages businesses w r,
  Forall freeindex_record businesses ->
  (freeindex_loop q l pages businesses w).1 = Ok r -> Forall freeindex_record r.
Proof. loop_inv freeindex_record freeindex_listing_fields. Qed.

Lemma thomson_loop_fields q l : forall pages businesses w r,
  Forall thomson_record businesses ->
  (thomson_loop q l pages businesses w).1 = Ok r -> Forall thomson_record r.
Proof. loop_inv thomson_record thomson_listing_fields. Qed.

Lemma yelp_loop_fields q l : forall pages businesses w r,
  Forall yelp_record businesses ->
  (yelp_loop q l pages businesses w).1 = Ok r -> Forall yelp_record r.
Proof. loop_inv yelp_record yelp_listing_fields. Qed.

Lemma google_fields q l n w r :
  (scrape_google_maps q l n w).1 = Ok r -> Forall google_record r.
Proof.
  unfold scrape_google_maps.
  destruct (fetch_listings _ _ _ w) as [[listings|e1] w1].
  - intros [= <-]. apply (parse_listings_Forall google_record); [|done].
    intros ? ? ? _. by eapply google_result_fields.
  - destruct (is_RequestException e1); [by intros [= <-] | done].
Qed.

End RecordFacts.

(** X8: every record an adapter returns carries the adapter's own source
    tag, and the fields no adapter assigns (e-mail, website, city, county,
    company data, opening hours, social media) keep their defaults, with
    country [UK].  Each adapter also leaves empty the fields it has no
    selector for; a Yell record's postcode is the one extracted from its
    address field. *)
Theorem adapter_records_fields query location max_pages w :
  (forall r, (scrape_yell query location max_pages w).1 = Ok r ->
             Forall yell_record r)
  /\ (forall r, (scrape_freeindex query location max_pages w).1 = Ok r ->
                Forall freeindex_record r)
  /\ (forall r, (scrape_thomson_local query location max_pages w).1 = Ok r ->
                Forall thomson_record r)
  /\ (forall r, (scrape_yelp_uk query location max_pages w).1 = Ok r ->
                Forall yelp_record r)
  /\ (forall r, (scrape_google_maps query location max_pages w).1 = Ok r ->
                Forall google_record r).
Proof.
  split_and!; intros r.
  - by apply RecordFacts.yell_loop_fields.
  - by apply RecordFacts.freeindex_loop_fields.
  - by apply RecordFacts.thomson_loop_fields.
  - by apply RecordFacts.yelp_loop_fields.
  - apply RecordFacts.google_fields.
Qed.

Lemma adapter_records_fields_witness :
  exists r,
    (scrape_yell "plumbers" "Leeds" 1 Examples.yell_flaky).1 = Ok r
    /\ length r = 1%nat /\ Forall yell_record r.
Proof.
  eexists. split; [vm_compute; reflexivity|]. split; [reflexivity|].
  apply (proj1 (adapter_records_fields "plumbers" "Leeds" 1 Examples.yell_flaky)).
  vm_compute. reflexivity.
Defined.

(** ** More on the orchestrator *)

Module MoreSearchFacts.
Import UKBusinessScraper StrFacts AdapterFacts SearchFacts.

Lemma Forall_of_sublist {A} (P : A -> Prop) (k l : list A) :
  sublist k l -> Forall P l -> Forall P k.
Proof.
  induction 1 as [|x k l _ IH|x k l _ IH]; [done|..].
  - intros [? ?]%Forall_cons. constructor; auto.
  - intros [_ ?]%Forall_cons. auto.
Qed.

Lemma run_sources_Forall (P : UKBusiness -> Prop) q l n :
  (forall s m w r, source_methods q l n !! s = Some m -> (m w).1 = Ok r -> Forall P r) ->
  forall sources acc w,
    Forall P acc -> Forall P (run_sources (source_methods q l n) sources acc w).1.
Proof.
  intros HP sources. induction sources as [|s sources IH]; intros acc w Hacc;
    simpl; [done|].
  destruct (source_methods q l n !! s) as [m|] eqn:Hm; [|by apply IH].
  destruct (m w) as [[r|e] w1] eqn:Hw; apply IH; [|done].
  apply Forall_app. split; [done|]. eapply HP; [exact Hm|]. by rewrite Hw.
Qed.

(** The accumulated list only ever grows at its end. *)
Lemma run_sources_acc methods sources : forall acc w,
  run_sources methods sources acc w
  = (acc ++ (run_sources methods sources [] w).1,
     (run_sources methods sources [] w).2).
Proof.
  induction sources as [|s sources IH]; intros acc w; simpl.
  - by rewrite app_nil_r.
  - destruct (methods !! s) as [m|]; [|apply IH].
    destruct (m w) as [[r|e] w1]; [|apply IH].
    rewrite (IH (acc ++ r)), (IH ([] ++ r)). simpl.
    by rewrite (assoc_L (++)).
Qed.

Lemma deduplicate_filter all : forall seen unique,
  deduplicate all seen unique
  = deduplicate (filter named all) seen unique.
Proof.
  induction all as [|b all IH]; intros seen unique; [done|].
  destruct (decide (named b)) as [Hb|Hb].
  - rewrite filter_cons_True by done. simpl.
    destruct (_ && _); apply IH.
  - rewrite filter_cons_False by done. simpl.
    unfold named in Hb. apply not_true_is_false in Hb. rewrite Hb. apply IH.
Qed.

Lemma first_occurrences_id before l :
  NoDup (name_lower <$> l) ->
  (forall b, b ∈ l -> name_lower b ∉ name_lower <$> before) ->
  first_occurrences before l = l.
Proof.
  revert before. induction l as [|b l IH]; intros before Hnd Hfresh; [done|].
  simpl. apply NoDup_cons in Hnd as [Hb Hnd].
  rewrite bool_decide_eq_false_2 by (apply Hfresh; left). simpl. f_equal.
  apply IH; [done|]. intros b' Hb'. rewrite fmap_app. simpl.
  intros [Hin|Hin%list_elem_of_singleton]%elem_of_app.
  - eapply Hfresh; [by right | done].
  - apply Hb. rewrite <- Hin. by apply list_elem_of_fmap_2.
Qed.

Lemma deduplicate_named all :
  deduplicate all ∅ [] = first_occurrences [] (filter named all).
Proof.
  rewrite deduplicate_filter.
  rewrite (deduplicate_first_occurrences _ [] ∅ []); [done| |done].
  apply Forall_forall. by intros b [Hb _]%list_elem_of_filter.
Qed.

End MoreSearchFacts.

(** X9: every record [search] returns has one of the five source tags and
    keeps the defaults of the fields no adapter assigns: in particular its
    e-mail and website are always empty. *)
Theorem search_records_defaults query location sources max_pages w :
  Forall (fun b => source b ∈ source_tags /\ defaults_kept b)
         (search query location sources max_pages w).1.
Proof.
  rewrite search_fst.
  destruct (SearchFacts.deduplicate_sublist
              (accumulated query location sources max_pages w) ∅ [])
    as (kept & -> & Hsub & _).
  simpl. eapply MoreSearchFacts.Forall_of_sublist; [exact Hsub|]. unfold accumulated.
  apply MoreSearchFacts.run_sources_Forall; [|done].
  intros s m w0 r [->|[->|[->|[->| ->]]]]%SearchFacts.source_methods_lookup Hr.
  - eapply Forall_impl; [by eapply RecordFacts.yell_loop_fields|].
    intros b (-> & ? & _). split; [|done]. unfold source_tags. repeat constructor.
  - eapply Forall_impl; [by eapply RecordFacts.google_fields|].
    intros b (-> & ? & _). split; [|done]. unfold source_tags. repeat constructor.
  - eapply Forall_impl; [by eapply RecordFacts.thomson_loop_fields|].
    intros b (-> & ? & _). split; [|done]. unfold source_tags. repeat constructor.
  - eapply Forall_impl; [by eapply RecordFacts.freeindex_loop_fields|].
    intros b (-> & ? & _). split; [|done]. unfold source_tags. repeat constructor.
  - eapply Forall_impl; [by eapply RecordFacts.yelp_loop_fields|].
    intros b (-> & ? & _). split; [|done]. unfold source_tags. repeat constructor.
Qed.

(** X10: the duplicate-removing loop of [search], on any list of records:
    it drops the records whose name is blank (empty after lower-casing and
    stripping) and keeps the first occurrence of every other normalized
    name, in order.  Its result has pairwise different normalized names, and
    running the loop on its own result changes nothing. *)
Theorem deduplicate_spec all_businesses :
  let unique := deduplicate all_businesses ∅ [] in
  unique = first_occurrences [] (filter named all_businesses)
  /\ sublist unique all_businesses
  /\ Forall named unique
  /\ NoDup (name_lower <$> unique)
  /\ deduplicate unique ∅ [] = unique.
Proof.
  intros unique. subst unique. rewrite MoreSearchFacts.deduplicate_named.
  assert (Forall named (first_occurrences [] (filter named all_businesses))) as Hn.
  { eapply MoreSearchFacts.Forall_of_sublist;
      [apply SearchFacts.first_occurrences_sublist|].
    apply Forall_forall. by intros b [Hb _]%list_elem_of_filter. }
  split_and!.
  - done.
  - etrans; [apply SearchFacts.first_occurrences_sublist | apply sublist_filter].
  - done.
  - apply SearchFacts.first_occurrences_NoDup.
  - rewrite (SearchFacts.deduplicate_first_occurrences _ [] ∅ []); [|done..].
    apply MoreSearchFacts.first_occurrences_id.
    + apply SearchFacts.first_occurrences_NoDup.
    + intros b _. apply not_elem_of_nil.
Qed.

(** X11: the results of the sources are concatenated in the order the
    caller lists them.  What [search] accumulates for a list [s1 ++ s2] is
    what it accumulates for [s1], followed by what it accumulates for [s2]
    in the world the sources of [s1] left; the final world is the one the
    run over [s2] ends in. *)
Theorem accumulation_composes query location max_pages s1 s2 w :
  let w1 := (search query location (Some s1) max_pages w).2 in
  accumulated query location (Some (s1 ++ s2)) max_pages w
  = accumulated query location (Some s1) max_pages w
    ++ accumulated query location (Some s2) max_pages w1
  /\ (search query location (Some (s1 ++ s2)) max_pages w).2
     = (search query location (Some s2) max_pages w1).2.
Proof.
  intros w1. subst w1. unfold accumulated. rewrite !search_snd.
  cbn [default from_option id]. rewrite SearchFacts.run_sources_app.
  rewrite (MoreSearchFacts.run_sources_acc _ s2
             (run_sources _ s1 [] w).1). done.
Qed.

(** X12: the requests [do_POST] does not serve.  With a readable
    [Content-Length]: when reading the body raises, the exception leaves
    [do_POST] and nothing is sent, the read standing before the [try]; a body
    that does not decode or parse, or that is not a JSON object, gets a 500
    with the exception's message; so does a [max_pages] that is not a number,
    even when [query] or [location] is missing, since the cap is computed
    first; otherwise a missing or empty [query] or [location] gets a 400.  In
    all these cases no directory is contacted. *)
Theorem do_POST_error_replies req w n :
  int (header "Content-Length" req) = Ok n ->
  (forall e,
     rfile_read req n = Raise e ->
     handler.do_POST req w = (Propagated e, w))
  /\ (forall e,
        rfile_read req n = Ok (Raise e) ->
        handler.do_POST req w = (Responded (handler.error_reply 500 (exn_str e)), w))
  /\ (forall data,
        rfile_read req n = Ok (Ok data) -> is_object data = false ->
        handler.do_POST req w
        = (Responded
             (handler.error_reply 500
                (quoted (type_name data) +:+ " object has no attribute 'get'")),
           w))
  /\ (forall fields v,
        rfile_read req n = Ok (Ok (JObj fields)) ->
        assoc "max_pages" fields = Some v -> is_number v = false ->
        handler.do_POST req w
        = (Responded
             (handler.error_reply 500
                ("'<' not supported between instances of 'int' and "
                 +:+ quoted (type_name v))),
           w))
  /\ (forall fields,
        rfile_read req n = Ok (Ok (JObj fields)) ->
        is_number (from_option id (JInt 2) (assoc "max_pages" fields)) = true ->
        json_truthy (from_option id (JStr EmptyString) (assoc "query" fields))
          = false
        \/ json_truthy (from_option id (JStr EmptyString) (assoc "location" fields))
           = false ->
        handler.do_POST req w
        = (Responded (handler.error_reply 400 "Missing query or location"), w)).
Proof.
  intros Hn. unfold handler.do_POST, handler.try_block. rewrite Hn. split_and!.
  - by intros e ->.
  - by intros e ->.
  - intros data -> Hobj. by destruct data.
  - intros fields v -> Hv Hnum. cbn [mbind res_bind json_get]. rewrite Hv.
    cbn [from_option id]. by destruct v.
  - intros fields -> Hnum Hmissing. cbn [mbind res_bind json_get].
    destruct (from_option id (JInt 2) (assoc "max_pages" fields))
      as [| |k|x| | |]; try done; cbn [min_5 mbind res_bind];
      destruct Hmissing as [-> | ->]; cbn [negb orb]; by rewrite ?orb_true_r.
Qed.

Lemma do_POST_error_replies_witness :
  handler.do_POST
    (Examples.post [("Content-Length", "17")] (JObj [("max_pages", JStr "3")]))
    Examples.acme
  = (Responded
       (handler.error_reply 500
          "'<' not supported between instances of 'int' and 'str'"),
     Examples.acme)
  /\ handler.do_POST
       (Examples.post [("Content-Length", "20")] (JObj [("query", JStr "plumbers")]))
       Examples.acme
     = (Responded (handler.error_reply 400 "Missing query or location"),
        Examples.acme)
  /\ handler.do_POST
       {| headers := [("Content-Length", "-2")];
          rfile_read := fun _ =>
            Raise (Exception "ValueError" "read length must be non-negative or -1") |}
       Examples.acme
     = (Propagated (Exception "ValueError" "read length must be non-negative or -1"),
        Examples.acme).
Proof.
  split_and!.
  - apply (proj1 (proj2 (proj2 (proj2
             (do_POST_error_replies
                (Examples.post [("Content-Length", "17")]
                   (JObj [("max_pages", JStr "3")]))
                Examples.acme 17 eq_refl))))
             [("max_pages", JStr "3")] (JStr "3")); reflexivity.
  - apply (proj2 (proj2 (proj2 (proj2
             (do_POST_error_replies
                (Examples.post [("Content-Length", "20")]
                   (JObj [("query", JStr "plumbers")]))
                Examples.acme 20 eq_refl))))
             [("query", JStr "plumbers")]); [reflexivity.. | right; reflexivity].
  - apply (proj1
             (do_POST_error_replies
                {| headers := [("Content-Length", "-2")];
                   rfile_read := fun _ =>
                     Raise (Exception "ValueError"
                              "read length must be non-negative or -1") |}
                Examples.acme (-2) eq_refl)); reflexivity.
Defined.

(** ** The rating fields of a Google record *)

Module RatingFacts.
Import re UKBusinessScraper StrFacts reFacts AdapterFacts.

Lemma rating_groups m :
  matches rating_pattern m ->
  exists whole dot frac count,
    Str.chars (groups 0 3 (Str.text <$> m)) = whole ++ dot ++ frac
    /\ whole <> [] /\ digits whole
    /\ (dot = [] \/ dot = ["."%char]) /\ digits frac
    /\ Str.chars (groups 5 1 (Str.text <$> m)) = count
    /\ count <> [] /\ digits count.
Proof.
  unfold rating_pattern, plus, opt, star, one. intros H.
  repeat match goal with
         | H : matches (_ :: _) _ |- _ => inversion H; subst; clear H
         | H : matches [] _ |- _ => inversion H; subst; clear H
         end.
  match goal with
  | |- context [Str.text <$> [?whole; ?dot; ?frac; _; _; ?count; _]] =>
      exists whole, dot, frac, count
  end.
  unfold groups, group. cbn [fmap list_fmap take drop concat].
  rewrite !chars_text, !app_nil_r.
  repeat match goal with
         | H : (1 <= length ?x)%nat |- _ =>
             assert (x <> []) by (intros ->; simpl in H; lia); clear H
         end.
  split_and!; try done.
  match goal with
  | H : Forall (fun a => lit "." a = true) ?dot, L : within (Some 1%nat) (length ?dot)
    |- ?dot = [] \/ _ =>
      destruct dot as [|a [|? ?]]; simpl in L; [by left | right | lia];
      apply Forall_cons in H as [->%bool_decide_eq_true _]; done
  end.
Qed.

Lemma search_rating text m :
  re.search rating_pattern text = Some m ->
  exists m0, m = Str.text <$> m0 /\ matches rating_pattern m0.
Proof.
  unfold re.search.
  destruct (search_chars rating_pattern (Str.chars text)) as [m0|] eqn:Hs; [|done].
  intros [= <-]. exists m0. split; [done|]. by apply search_chars_Some in Hs as [? _].
Qed.

#[local] Arguments _clean_text : simpl never.
#[local] Arguments _extract_uk_postcode : simpl never.
#[local] Arguments _extract_uk_phones : simpl never.
#[local] Arguments re.search : simpl never.
#[local] Arguments re.groups : simpl never.
#[local] Arguments texts : simpl never.
#[local] Arguments select : simpl never.
#[local] Arguments select_one : simpl never.
#[local] Arguments select_one_or : simpl never.
#[local] Arguments attr : simpl never.

Lemma google_result_rated now result b :
  google_result now result = Ok b -> rated b.
Proof.
  unfold google_result. intros H.
  destruct (re.search rating_pattern (get_text result)) as [m|] eqn:Hs.
  - apply search_rating in Hs as (m0 & -> & Hm).
    pose proof (rating_groups m0 Hm) as Hg.
    simpl in H; lookups H; injection H as <-; right; exact Hg.
  - simpl in H; lookups H; injection H as <-; by left.
Qed.

End RatingFacts.

(** X13: in every record the Google adapter returns, the rating and the
    review count are either both empty or both set from one match of the
    rating pattern: the rating is a non-empty run of digits, at most one
    dot, and further digits; the review count is a non-empty run of
    digits. *)
Theorem google_rating_fields query location max_results w r :
  (scrape_google_maps query location max_results w).1 = Ok r ->
  Forall rated r.
Proof.
  unfold UKBusinessScraper.scrape_google_maps.
  destruct (UKBusinessScraper.fetch_listings _ _ _ w) as [[listings|e1] w1].
  - intros [= <-]. apply (AdapterFacts.parse_listings_Forall rated); [|done].
    intros ? ? ? _. by eapply RatingFacts.google_result_rated.
  - destruct (is_RequestException e1); [by intros [= <-] | done].
Qed.

Lemma google_rating_fields_witness :
  exists r,
    (scrape_google_maps "plumbers" "Leeds" 2 MoreExamples.google_three).1 = Ok r
    /\ length r = 2%nat /\ Forall rated r.
Proof.
  eexists. split; [vm_compute; reflexivity|]. split; [reflexivity|].
  apply (google_rating_fields "plumbers" "Leeds" 2 MoreExamples.google_three).
  vm_compute. reflexivity.
Defined.

(** ** Extracting a postcode from an extracted postcode *)

Module IdempotenceFacts.
Import re UKBusinessScraper StrFacts reFacts PostcodeFacts.

Lemma first_some_fmap {A B C} (F : B -> C) (g : A -> option B) l :
  first_some (fun a => F <$> g a) l = F <$> first_some g l.
Proof. induction l as [|a l IH]; simpl; [done|]. by destruct (g a). Qed.

(** Over a decreasing range, the first success is the largest one. *)
Lemma first_some_decreasing {B} (g : nat -> option B) lo len r :
  first_some g (reverse (seq lo len)) = Some r <->
  exists n, (lo <= n < lo + len)%nat /\ g n = Some r
            /\ forall n', (n < n' < lo + len)%nat -> g n' = None.
Proof.
  induction len as [|len IH].
  - simpl. split; [done | intros (n & ? & _); lia].
  - rewrite seq_S, reverse_app. simpl. destruct (g (lo + len)%nat) eqn:Hg.
    + split.
      * intros [= ->]. exists (lo + len)%nat. split_and!; [lia..|done|intros; lia].
      * intros (n & Hn & Hgn & Hafter).
        destruct (decide (n = lo + len)%nat) as [->|]; [congruence|].
        rewrite Hafter in Hg; [done | lia].
    + rewrite IH. split; intros (n & Hn & Hgn & Hafter); exists n.
      * split_and!; [lia..|done|]. intros n' Hn'.
        destruct (decide (n' = lo + len)%nat) as [->|]; [done|]. apply Hafter. lia.
      * assert (n <> lo + len)%nat by congruence.
        split_and!; [lia..|done|]. intros n' Hn'. apply Hafter. lia.
Qed.

Lemma first_some_counts {B} (g : nat -> option B) lo hi k r :
  first_some g (counts lo hi k) = Some r <->
  exists n, (lo <= n <= cap hi k)%nat /\ g n = Some r
            /\ forall n', (n < n' <= cap hi k)%nat -> g n' = None.
Proof.
  unfold counts. rewrite first_some_decreasing.
  split; intros (n & Hn & Hgn & Hafter); exists n;
    (split_and!; [lia..|done|]); intros n' Hn'; apply Hafter; lia.
Qed.

Lemma run_app_le c s t : (run c s <= run c (s ++ t))%nat.
Proof.
  induction s as [|a s IH]; simpl; [lia|]. destruct (c a); lia.
Qed.

Lemma run_fmap (f : ascii -> ascii) c s :
  (forall a, c (f a) = c a) -> run c (f <$> s) = run c s.
Proof.
  intros Hc. induction s as [|a s IH]; simpl; [done|]. rewrite Hc.
  destruct (c a); [f_equal; exact IH | done].
Qed.

(** A failure at a position stays one when the text is cut short. *)
Lemma match_here_None_prefix p x t :
  match_here p (x ++ t) = None -> match_here p x = None.
Proof.
  intros H. destruct (match_here p x) as [m|] eqn:Hm; [|done].
  apply match_here_sound in Hm as [Hm [r ->]]. exfalso.
  eapply (match_here_complete p _ m (r ++ t)); [done..|].
  by rewrite <- !(assoc_L (++)).
Qed.

Lemma startswith_prefix a s t :
  Str.startswith_chars a (s ++ t) = true -> (length a <= length s)%nat ->
  Str.startswith_chars a s = true.
Proof.
  revert s. induction a as [|x a IH]; intros [|y s]; simpl; try done; [lia|].
  intros [-> Ha]%andb_true_iff Hlen. simpl. apply IH; [done | lia].
Qed.

Lemma startswith_app_l a s t :
  Str.startswith_chars a s = true -> Str.startswith_chars a (s ++ t) = true.
Proof.
  revert s. induction a as [|x a IH]; intros [|y s]; simpl; try done.
  intros [-> Ha]%andb_true_iff. simpl. by apply IH.
Qed.

(** The match found at a position does not depend on the text after it. *)
Lemma match_here_restrict p : forall s t m,
  match_here p (s ++ t) = Some m -> (length (concat m) <= length s)%nat ->
  match_here p s = Some m.
Proof.
  induction p as [|[c lo hi|alts] p IH]; intros s t m; simpl; [done|..].
  - rewrite !first_some_counts. intros (n & Hn & Hg & Hafter) Hlen.
    destruct (match_here p (drop n (s ++ t))) as [m'|] eqn:Hm'; [|done].
    injection Hg as <-. simpl in Hlen. rewrite length_app in Hlen.
    destruct Hn as [Hlo [Hrun Hhi]%cap_le].
    destruct (run_take c (s ++ t) n Hrun) as [HF HL]. rewrite HL in Hlen.
    assert (n <= length s)%nat as Hns by lia.
    rewrite take_app_le in * by done. rewrite drop_app_le in Hm' by done.
    assert (n <= run c s)%nat as Hrs.
    { rewrite <- (take_drop n s). pose proof (run_app c _ (drop n s) HF). lia. }
    exists n. split_and!.
    + lia.
    + by apply cap_le.
    + rewrite (IH _ _ _ Hm'); [done|]. rewrite length_drop. lia.
    + intros n' Hn'. assert (n' <= run c s)%nat as Hn's.
      { destruct Hn' as [_ Hn']. by apply cap_le in Hn' as [? _]. }
      pose proof (run_le_length c s). pose proof (run_app_le c s t).
      specialize (Hafter n'). rewrite drop_app_le in Hafter by lia.
      destruct (match_here p (drop n' s ++ t)) as [?|] eqn:Hlong.
      * discriminate Hafter. split; [lia|]. apply cap_le. split; [lia|].
        destruct Hn' as [_ Hn']. by apply cap_le in Hn' as [_ ?].
      * by rewrite (match_here_None_prefix _ _ _ Hlong).
  - intros (l1 & a & l2 & -> & Hf & Hbefore)%first_some_Some Hlen.
    destruct (Str.startswith_chars a (s ++ t)) eqn:Hpre; [|done].
    destruct (match_here p (drop (length a) (s ++ t))) as [m'|] eqn:Hm'; [|done].
    injection Hf as <-. simpl in Hlen. rewrite length_app in Hlen.
    rewrite drop_app_le in Hm' by lia.
    assert (forall l (g : list ascii -> option (list (list ascii))),
              (forall a', a' ∈ l1 -> g a' = None) ->
              first_some g (l1 ++ l) = first_some g l) as Hskip.
    { clear. intros l g. induction l1 as [|x l1 IHl]; intros H; simpl; [done|].
      rewrite (H x) by left. apply IHl. intros a' Ha'. apply H. by right. }
    rewrite Hskip.
    + simpl. rewrite (startswith_prefix _ _ _ Hpre) by lia.
      rewrite (IH _ _ _ Hm'); [done|]. rewrite length_drop. lia.
    + intros a' Ha'. specialize (Hbefore a' Ha'). simpl in Hbefore.
      destruct (Str.startswith_chars a' s) eqn:Hpre'; [|done].
      rewrite (startswith_app_l _ _ t Hpre') in Hbefore.
      rewrite drop_app_le in Hbefore by by apply EmailFacts.startswith_length.
      destruct (match_here p (drop (length a') s ++ t)) as [?|] eqn:Hlong; [done|].
      by rewrite (match_here_None_prefix _ _ _ Hlong).
Qed.

(** A mapping of the characters that no class of the pattern notices
    maps the match. *)
Lemma match_here_fmap (f : ascii -> ascii) p :
  Forall (fun i => match i with
                   | Rep c _ _ => forall a, c (f a) = c a
                   | Alt _ => False
                   end) p ->
  forall s : list ascii,
    match_here p (f <$> s)
    = (fun m : list (list ascii) => fmap (M:=list) f <$> m) <$> match_here p s.
Proof.
  induction 1 as [|[c lo hi|alts] p Hc _ IH]; intros s; cbn [match_here];
    [done| |done].
  rewrite (run_fmap f c s Hc), <- first_some_fmap. apply first_some_ext.
  intros n _. rewrite <- fmap_take, <- fmap_drop, IH.
  by destruct (match_here p (drop n s)).
Qed.

Lemma search_chars_here p s m :
  match_here p s = Some m -> search_chars p s = Some m.
Proof. intros H. destruct s; simpl; by rewrite H. Qed.

Lemma search_chars_at p : forall s m,
  search_chars p s = Some m ->
  exists pre rest, s = pre ++ rest /\ match_here p rest = Some m.
Proof.
  induction s as [|a s IH]; intros m; simpl.
  - destruct (match_here p []) eqn:H0; [|done]. intros [= <-]. by exists [], [].
  - destruct (match_here p (a :: s)) eqn:H0.
    + intros [= <-]. by exists [], (a :: s).
    + intros (pre & rest & -> & Hm)%IH. by exists (a :: pre), rest.
Qed.

Lemma upper_char_idemp c : Str.upper_char (Str.upper_char c) = Str.upper_char c.
Proof. by destruct c as [[] [] [] [] [] [] [] []]. Qed.

Lemma postcode_pattern_upper :
  Forall (fun i => match i with
                   | Rep c _ _ => forall a, c (Str.upper_char a) = c a
                   | Alt _ => False
                   end) postcode_pattern.
Proof.
  unfold postcode_pattern, one, opt, star.
  repeat constructor; intros a; by destruct a as [[] [] [] [] [] [] [] []].
Qed.

Lemma concat_fmap (f : ascii -> ascii) (m : list (list ascii)) :
  concat (fmap (M:=list) f <$> m) = f <$> concat m.
Proof.
  induction m as [|x m IH]; [done|].
  cbn [fmap list_fmap concat]. rewrite fmap_app. f_equal. exact IH.
Qed.

End IdempotenceFacts.

(** X14: extracting the postcode of an extracted postcode changes nothing:
    the result of [_extract_uk_postcode] is read back whole, so a record's
    postcode field is a fixed point of the extractor. *)
Theorem extract_uk_postcode_idempotent text :
  UKBusinessScraper._extract_uk_postcode (UKBusinessScraper._extract_uk_postcode text)
  = UKBusinessScraper._extract_uk_postcode text.
Proof.
  assert (forall t,
            UKBusinessScraper._extract_uk_postcode t
            = match re.search_chars UKBusinessScraper.postcode_pattern (Str.chars t) with
              | Some m => Str.text (Str.upper_char <$> concat m)
              | None => EmptyString
              end) as Hx.
  { intros t. unfold UKBusinessScraper._extract_uk_postcode, re.search, Str.upper.
    destruct (re.search_chars _ _) as [m|]; cbn [fmap option_fmap option_map];
      [|done].
    by rewrite PostcodeFacts.group_text, StrFacts.chars_text. }
  rewrite (Hx text).
  destruct (re.search_chars UKBusinessScraper.postcode_pattern (Str.chars text))
    as [m|] eqn:Hs; [|reflexivity].
  apply IdempotenceFacts.search_chars_at in Hs as (pre & rest & _ & Hm).
  destruct (reFacts.match_here_sound _ _ _ Hm) as [_ [post ->]].
  apply IdempotenceFacts.match_here_restrict in Hm; [|done].
  pose proof (IdempotenceFacts.match_here_fmap Str.upper_char _
                IdempotenceFacts.postcode_pattern_upper (concat m)) as Hup.
  rewrite Hm in Hup. cbn [fmap option_fmap option_map] in Hup.
  apply IdempotenceFacts.search_chars_here in Hup.
  rewrite Hx, StrFacts.chars_text, Hup, IdempotenceFacts.concat_fmap. f_equal.
  rewrite <- list_fmap_compose. apply list_fmap_ext.
  intros _ c _. apply IdempotenceFacts.upper_char_idemp.
Qed.
